(** * Byte Pair Encoding tokenizer: a shallow embedding of [bpe_encoder.py]

    The development follows the Python module function by function:
    the merge table is an insertion-ordered dictionary, the vocabulary a
    finite map from token ids to byte strings, [encode] a fuelled loop,
    [decode] a lookup-concatenate-interpret pipeline, and [save] /
    [from_file] conversions to and from the persisted record.

    Integers are [Z] (Python integers are unbounded), a byte string is a
    list of integers in 0..255, and a text string is a list of Unicode
    code points. *)

From stdpp Require Import base decidable option list sorting gmap.
From Stdlib Require Import ZArith Lia Sorting.Sorted Sorting.Permutation.
From Stdlib Require Strings.String Strings.Ascii.
Import Strings.String.StringSyntax.
Delimit Scope string_scope with string.

Local Open Scope Z_scope.

(** ** Outcomes of running Python code *)

Inductive pykey :=
  | KeyInt (z : Z)
  | KeyPair (p : Z * Z).

Inductive exn :=
  | KeyError (k : pykey)
  | ValueError
  | IndexError
  | TypeError
  | UnicodeEncodeError.

(** A computation returns a value, raises an exception, or (for the
    fuelled loops only) exhausts the iteration budget it was given. *)
Inductive outcome (A : Type) :=
  | Ok (a : A)
  | Raise (e : exn)
  | OutOfFuel.

Arguments Ok {A} a.
Arguments Raise {A} e.
Arguments OutOfFuel {A}.

Definition obind {A B} (m : outcome A) (f : A → outcome B) : outcome B :=
  match m with
  | Ok a => f a
  | Raise e => Raise e
  | OutOfFuel => OutOfFuel
  end.

Notation "x ←? m ; k" := (obind m (λ x, k))
  (at level 20, m at level 100, k at level 200, right associativity,
   format "x  ←?  m ;  '/' k").

(** A byte string ([bytes]) is a list of integers in 0..255, a text string
    ([str]) a list of code points, a token sequence a list of ids. *)
Abbreviation bytes := (list Z).
Abbreviation str := (list Z).

(** ** Insertion-ordered dictionaries

    A Python [dict] keeps its keys in first-insertion order; assigning to
    an existing key replaces the value in place. *)
Module Dict.
Section dict.
Context {K V : Type} `{EqDecision K}.

Fixpoint get (d : list (K * V)) (k : K) : option V :=
  match d with
  | [] => None
  | (k', v) :: d' => if decide (k = k') then Some v else get d' k
  end.

Fixpoint set (d : list (K * V)) (k : K) (v : V) : list (K * V) :=
  match d with
  | [] => [(k, v)]
  | (k', v') :: d' =>
      if decide (k = k') then (k', v) :: d' else (k', v') :: set d' k v
  end.

Definition contains (d : list (K * V)) (k : K) : bool :=
  bool_decide (is_Some (get d k)).

Definition keys (d : list (K * V)) : list K := d.*1.
Definition items (d : list (K * V)) : list (K * V) := d.

(** Representation invariant of a dictionary: keys are unique. *)
Definition wf (d : list (K * V)) : Prop := NoDup d.*1.
End dict.
End Dict.

Abbreviation merge_table := (list ((Z * Z) * Z)).

(** ** The encoder object *)

Record BPEEncoder := mkBPEEncoder {
  merges : merge_table;
  vocab_size : Z;
  _vocab : option (gmap Z (list Z));
}.

(** ** [_build_vocab] *)

(** [{idx: bytes([idx]) for idx in range(256)}] *)
Definition base_vocab : gmap Z (list Z) :=
  fold_left (λ (v : gmap Z (list Z)) idx, <[idx := [idx]]> v) (seqZ 0 256) ∅.

(** [sorted(items, key=...)] is stable: elements with equal keys keep
    their relative order.  Inserting from the right, in front of the
    first element whose key is not smaller, gives exactly that list. *)
Section sorted.
Context {A : Type} (key : A → Z).

Fixpoint sorted_insert (x : A) (l : list A) : list A :=
  match l with
  | [] => [x]
  | y :: l' =>
      if decide (key x ≤ key y) then x :: l else y :: sorted_insert x l'
  end.

Definition py_sorted (l : list A) : list A := foldr sorted_insert [] l.
End sorted.

Definition vocab_getitem (v : gmap Z (list Z)) (idx : Z) : outcome (list Z) :=
  match v !! idx with
  | Some b => Ok b
  | None => Raise (KeyError (KeyInt idx))
  end.

(** [for (p0, p1), idx in sorted_merges: vocab[idx] = vocab[p0] + vocab[p1]] *)
Fixpoint build_loop (rules : list ((Z * Z) * Z)) (v : gmap Z (list Z))
  : outcome (gmap Z (list Z)) :=
  match rules with
  | [] => Ok v
  | ((p0, p1), idx) :: rest =>
      b0 ←? vocab_getitem v p0;
      b1 ←? vocab_getitem v p1;
      build_loop rest (<[idx := b0 ++ b1]> v)
  end.

Definition build_vocab_map (m : merge_table) : outcome (gmap Z (list Z)) :=
  let sorted_merges := py_sorted snd (Dict.items m) in
  build_loop sorted_merges base_vocab.

Definition _build_vocab (self : BPEEncoder) : outcome BPEEncoder :=
  v ←? build_vocab_map (merges self);
  Ok (mkBPEEncoder (merges self) (vocab_size self) (Some v)).

Definition __init__ (m : merge_table) (vs : Z) : outcome BPEEncoder :=
  _build_vocab (mkBPEEncoder m vs None).

(** ** [_get_stats] *)

Definition count_pair (counts : list ((Z * Z) * Z)) (pair : Z * Z)
  : list ((Z * Z) * Z) :=
  Dict.set counts pair (default 0 (Dict.get counts pair) + 1).

Definition _get_stats (ids : list Z) : list ((Z * Z) * Z) :=
  fold_left count_pair (zip ids (drop 1 ids)) [].

(** ** [_merge] *)

(** [ids[i]] for a non-negative index. *)
Definition list_getitem (ids : list Z) (i : nat) : outcome Z :=
  match ids !! i with
  | Some x => Ok x
  | None => Raise IndexError
  end.

(** The [while i < len(ids)] loop; every unit of [fuel] pays for one
    execution of the loop body. *)
Fixpoint _merge_loop (fuel : nat) (ids : list Z) (pair : Z * Z) (idx : Z)
    (i : nat) (newids : list Z) : outcome (list Z) :=
  if decide (i < length ids)%nat then
    match fuel with
    | O => OutOfFuel
    | S fuel' =>
        hit ←? (if decide (i < length ids - 1)%nat then
                  a ←? list_getitem ids i;
                  if decide (a = pair.1) then
                    b ←? list_getitem ids (i + 1);
                    Ok (bool_decide (b = pair.2))
                  else Ok false
                else Ok false);
        if (hit : bool) then
          _merge_loop fuel' ids pair idx (i + 2) (newids ++ [idx])
        else
          a ←? list_getitem ids i;
          _merge_loop fuel' ids pair idx (i + 1) (newids ++ [a])
    end
  else Ok newids.

Definition _merge (ids : list Z) (pair : Z * Z) (idx : Z) : outcome (list Z) :=
  _merge_loop (length ids) ids pair idx 0 [].

(** The replacement scan in the words of the specification: one pass from
    the left, advancing two positions on a match and one otherwise. *)
Fixpoint replace_scan (ids : list Z) (pair : Z * Z) (idx : Z) : list Z :=
  match ids with
  | [] => []
  | a :: tl =>
      match tl with
      | [] => [a]
      | b :: rest =>
          if decide (a = pair.1 ∧ b = pair.2)
          then idx :: replace_scan rest pair idx
          else a :: replace_scan tl pair idx
      end
  end.

(** ** [encode] *)

(** The value of [self.merges.get(p, float("inf"))]. *)
Inductive pynum :=
  | PInt (z : Z)
  | PInf.

Definition pynum_lt (a b : pynum) : bool :=
  match a, b with
  | PInt x, PInt y => bool_decide (x < y)
  | PInt _, PInf => true
  | PInf, _ => false
  end.

Definition pynum_le (a b : pynum) : bool := negb (pynum_lt b a).

Definition merge_rank (m : merge_table) (p : Z * Z) : pynum :=
  match Dict.get m p with
  | Some idx => PInt idx
  | None => PInf
  end.

(** [min(iterable, key=...)]: the first element whose key is minimal. *)
Fixpoint min_loop {A} (key : A → pynum) (best : A) (rest : list A) : A :=
  match rest with
  | [] => best
  | x :: rest' =>
      if pynum_lt (key x) (key best) then min_loop key x rest'
      else min_loop key best rest'
  end.

Definition py_min {A} (key : A → pynum) (l : list A) : outcome A :=
  match l with
  | [] => Raise ValueError
  | x :: rest => Ok (min_loop key x rest)
  end.

Definition merges_getitem (m : merge_table) (p : Z * Z) : outcome Z :=
  match Dict.get m p with
  | Some idx => Ok idx
  | None => Raise (KeyError (KeyPair p))
  end.

(** One execution of the body of [while len(tokens) >= 2]; [None] is the
    [break]. *)
Definition encode_body (m : merge_table) (tokens : list Z)
  : outcome (option (list Z)) :=
  let stats := _get_stats tokens in
  pair ←? py_min (merge_rank m) (Dict.keys stats);
  if negb (Dict.contains m pair) then Ok None
  else
    idx ←? merges_getitem m pair;
    tokens' ←? _merge tokens pair idx;
    Ok (Some tokens').

Fixpoint encode_loop (fuel : nat) (m : merge_table) (tokens : list Z)
  : outcome (list Z) :=
  if decide (2 ≤ length tokens)%nat then
    match fuel with
    | O => OutOfFuel
    | S fuel' =>
        step ←? encode_body m tokens;
        match step with
        | None => Ok tokens
        | Some tokens' => encode_loop fuel' m tokens'
        end
    end
  else Ok tokens.

(** The runs of the loop, with the number of times the body is executed:
    the guard fails at once; or the body breaks; or the body merges and the
    loop goes on from the merged sequence. *)
Inductive loop_run (m : merge_table) : list Z → nat → list Z → Prop :=
  | run_guard tokens :
      (length tokens < 2)%nat → loop_run m tokens 0 tokens
  | run_break tokens :
      (2 ≤ length tokens)%nat → encode_body m tokens = Ok None →
      loop_run m tokens 1 tokens
  | run_merge tokens tokens' n result :
      (2 ≤ length tokens)%nat → encode_body m tokens = Ok (Some tokens') →
      loop_run m tokens' n result →
      loop_run m tokens (S n) result.

(** ** The UTF-8 codec of the interpreter

    [str.encode("utf-8")] and [bytes.decode("utf-8", errors="replace")]
    are built into Python.  The encoder emits the shortest form of each
    code point and rejects surrogates; the decoder replaces every maximal
    ill-formed prefix by one U+FFFD and resumes right after it. *)

Definition is_surrogate (ch : Z) : bool := bool_decide (0xD800 ≤ ch ≤ 0xDFFF).

(** A Unicode scalar value: a code point that is not a surrogate. *)
Definition is_scalar (ch : Z) : Prop :=
  0 ≤ ch ≤ 0x10FFFF ∧ ¬ (0xD800 ≤ ch ≤ 0xDFFF).

Definition is_byte (b : Z) : Prop := 0 ≤ b < 256.

Definition utf8_encode_char (ch : Z) : outcome bytes :=
  if decide (ch < 0x80) then Ok [ch]
  else if decide (ch < 0x800) then
    Ok [Z.lor 0xC0 (Z.shiftr ch 6); Z.lor 0x80 (Z.land ch 0x3F)]
  else if is_surrogate ch then Raise UnicodeEncodeError
  else if decide (ch < 0x10000) then
    Ok [Z.lor 0xE0 (Z.shiftr ch 12);
        Z.lor 0x80 (Z.land (Z.shiftr ch 6) 0x3F);
        Z.lor 0x80 (Z.land ch 0x3F)]
  else
    Ok [Z.lor 0xF0 (Z.shiftr ch 18);
        Z.lor 0x80 (Z.land (Z.shiftr ch 12) 0x3F);
        Z.lor 0x80 (Z.land (Z.shiftr ch 6) 0x3F);
        Z.lor 0x80 (Z.land ch 0x3F)].

Fixpoint utf8_encode (text : str) : outcome bytes :=
  match text with
  | [] => Ok []
  | ch :: rest =>
      b ←? utf8_encode_char ch;
      bs ←? utf8_encode rest;
      Ok (b ++ bs)
  end.

Definition is_continuation (b : Z) : bool := bool_decide (0x80 ≤ b < 0xC0).

Definition REPLACEMENT_CHARACTER : Z := 0xFFFD.

Fixpoint utf8_decode_replace (s : bytes) : str :=
  match s with
  | [] => []
  | ch :: s1 =>
    if decide (ch < 0x80) then ch :: utf8_decode_replace s1
    else if decide (ch < 0xC2) then
      REPLACEMENT_CHARACTER :: utf8_decode_replace s1
    else if decide (ch < 0xE0) then
      match s1 with
      | [] => [REPLACEMENT_CHARACTER]
      | ch2 :: s2 =>
        if is_continuation ch2 then
          (Z.shiftl ch 6 + ch2 - (Z.shiftl 0xC0 6 + 0x80))
            :: utf8_decode_replace s2
        else REPLACEMENT_CHARACTER :: utf8_decode_replace s1
      end
    else if decide (ch < 0xF0) then
      match s1 with
      | [] => [REPLACEMENT_CHARACTER]
      | ch2 :: s2 =>
        if negb (is_continuation ch2)
           || (if decide (ch2 < 0xA0) then bool_decide (ch = 0xE0)
               else bool_decide (ch = 0xED))
        then REPLACEMENT_CHARACTER :: utf8_decode_replace s1
        else
          match s2 with
          | [] => [REPLACEMENT_CHARACTER]
          | ch3 :: s3 =>
            if is_continuation ch3 then
              (Z.shiftl ch 12 + Z.shiftl ch2 6 + ch3
               - (Z.shiftl 0xE0 12 + Z.shiftl 0x80 6 + 0x80))
                :: utf8_decode_replace s3
            else REPLACEMENT_CHARACTER :: utf8_decode_replace s2
          end
      end
    else if decide (ch < 0xF5) then
      match s1 with
      | [] => [REPLACEMENT_CHARACTER]
      | ch2 :: s2 =>
        if negb (is_continuation ch2)
           || (if decide (ch2 < 0x90) then bool_decide (ch = 0xF0)
               else bool_decide (ch = 0xF4))
        then REPLACEMENT_CHARACTER :: utf8_decode_replace s1
        else
          match s2 with
          | [] => [REPLACEMENT_CHARACTER]
          | ch3 :: s3 =>
            if is_continuation ch3 then
              match s3 with
              | [] => [REPLACEMENT_CHARACTER]
              | ch4 :: s4 =>
                if is_continuation ch4 then
                  (Z.shiftl ch 18 + Z.shiftl ch2 12 + Z.shiftl ch3 6 + ch4
                   - (Z.shiftl 0xF0 18 + Z.shiftl 0x80 12
                      + Z.shiftl 0x80 6 + 0x80))
                    :: utf8_decode_replace s4
                else REPLACEMENT_CHARACTER :: utf8_decode_replace s3
              end
            else REPLACEMENT_CHARACTER :: utf8_decode_replace s2
          end
      end
    else REPLACEMENT_CHARACTER :: utf8_decode_replace s1
  end.

(** [encode]: the loop runs at most once per initial token, so the number
    of initial tokens is a sufficient budget. *)
Definition encode (self : BPEEncoder) (text : str) : outcome (list Z) :=
  tokens ←? utf8_encode text;
  encode_loop (length tokens) (merges self) tokens.

(** ** [decode] *)

(** [self._vocab[idx]] *)
Definition self_vocab_getitem (self : BPEEncoder) (idx : Z)
  : outcome (list Z) :=
  match _vocab self with
  | None => Raise TypeError
  | Some v => vocab_getitem v idx
  end.

(** [join] of the generator [self._vocab[idx] for idx in ids] on the
    empty byte string *)
Fixpoint join_vocab (self : BPEEncoder) (ids : list Z) : outcome bytes :=
  match ids with
  | [] => Ok []
  | idx :: rest =>
      b ←? self_vocab_getitem self idx;
      bs ←? join_vocab self rest;
      Ok (b ++ bs)
  end.

Definition decode (self : BPEEncoder) (ids : list Z) : outcome str :=
  tokens ←? join_vocab self ids;
  Ok (utf8_decode_replace tokens).

(** Decoding each token on its own and concatenating the texts: what
    [decode] does not do. *)
Fixpoint decode_per_token (self : BPEEncoder) (ids : list Z)
  : outcome str :=
  match ids with
  | [] => Ok []
  | idx :: rest =>
      b ←? self_vocab_getitem self idx;
      ts ←? decode_per_token self rest;
      Ok (utf8_decode_replace b ++ ts)
  end.

(** ** Integers as text: [str(int)], [int(str)], [str.split] *)

(** The number of decimal digits beyond which [str] and [int] refuse to
    convert: [sys.int_info.default_max_str_digits], the limit of an
    interpreter whose settings were left alone. *)
Definition max_str_digits : nat := 4300.
Arguments max_str_digits : simpl never.

(** Decimal digits of a non-negative integer, most significant first. *)
Fixpoint digits_loop (fuel : nat) (n : Z) : list Z :=
  match fuel with
  | O => []
  | S fuel' =>
      if decide (n < 10) then [48 + n]
      else digits_loop fuel' (n / 10) ++ [48 + n mod 10]
  end.

(** The decimal text of an integer: a minus sign when it is negative, then
    its digits. *)
Definition decimal_string (z : Z) : str :=
  if decide (z < 0) then 45 :: digits_loop (S (Z.to_nat (Z.log2 (- z)))) (- z)
  else digits_loop (S (Z.to_nat (Z.log2 z))) z.

(** [str(z)], as used by the f-string [f"{k[0]},{k[1]}"], and
    [int.__repr__(z)], as used by [json.dump]: the decimal text, and a
    [ValueError] when it has more digits, the sign not counted, than the
    limit. *)
Definition py_str_int (z : Z) : outcome str :=
  if decide (max_str_digits < length (decimal_string (Z.abs z)))%nat
  then Raise ValueError
  else Ok (decimal_string z).

(** [s.split(sep)] for a one-character separator. *)
Fixpoint split (sep : Z) (s : str) : list str :=
  match s with
  | [] => [[]]
  | c :: rest =>
      if decide (c = sep) then [] :: split sep rest
      else match split sep rest with
           | h :: t => (c :: h) :: t
           | [] => [[c]]
           end
  end.

(** The ASCII classification used by the integer parser. *)
Definition Py_ISSPACE (c : Z) : bool :=
  bool_decide (9 ≤ c ≤ 13) || bool_decide (c = 32).

Definition Py_ISDIGIT (c : Z) : bool := bool_decide (48 ≤ c ≤ 57).

Fixpoint skip_spaces (s : list Z) : list Z :=
  match s with
  | [] => []
  | c :: rest => if Py_ISSPACE c then skip_spaces rest else s
  end.

(** The run of digits and single underscores at the front of [s]: its
    value, the number of digits, and what follows.  [None] when two
    underscores meet or an underscore ends the run. *)
Fixpoint scan_digits (s : list Z) (prev_underscore : bool) (acc : Z)
    (ndigits : nat) : option (Z * nat * list Z) :=
  match s with
  | [] => if prev_underscore then None else Some (acc, ndigits, [])
  | c :: rest =>
      if Py_ISDIGIT c then
        scan_digits rest false (acc * 10 + (c - 48)) (S ndigits)
      else if decide (c = 95) then
        if prev_underscore then None else scan_digits rest true acc ndigits
      else if prev_underscore then None else Some (acc, ndigits, s)
  end.

(** Base-10 parsing of an ASCII buffer: optional surrounding white space,
    optional sign, digits with single underscores between them.  A run of
    more digits than the limit, leading zeros counted and underscores not,
    is refused. *)
Definition split_sign (s : list Z) : Z * list Z :=
  match s with
  | c :: t =>
      if decide (c = 43) then (1, t)
      else if decide (c = 45) then (-1, t)
      else (1, s)
  | [] => (1, s)
  end.

Definition PyLong_FromString (s : list Z) : outcome Z :=
  let '(sign, s2) := split_sign (skip_spaces s) in
  if decide (head s2 = Some 95) then Raise ValueError
  else
    match scan_digits s2 false 0 0 with
    | None => Raise ValueError
    | Some (v, n, rest) =>
        if decide (max_str_digits < n)%nat then Raise ValueError
        else if decide (n = 0%nat) then Raise ValueError
        else match skip_spaces rest with
             | [] => Ok (sign * v)
             | _ :: _ => Raise ValueError
             end
    end.

Section unicode_tables.
(** The two Unicode property tables [int] consults for characters outside
    ASCII: white space, and the value of a decimal digit. *)
Variable Py_UNICODE_ISSPACE : Z → bool.
Variable Py_UNICODE_TODECIMAL : Z → option Z.

(** In a string with a character outside ASCII, characters below 127 are
    kept; further spaces become [' '], further decimal digits their ASCII
    digit; anything else becomes ['?'] and ends the buffer. *)
Fixpoint transform_loop (s : str) : str :=
  match s with
  | [] => []
  | ch :: rest =>
      if decide (ch < 127) then ch :: transform_loop rest
      else if Py_UNICODE_ISSPACE ch then 32 :: transform_loop rest
      else match Py_UNICODE_TODECIMAL ch with
           | Some d => (48 + d) :: transform_loop rest
           | None => [63]
           end
  end.

(** An ASCII string is passed on as it is. *)
Definition transform_decimal_and_space_to_ascii (s : str) : str :=
  if bool_decide (Forall (λ ch, ch < 128) s) then s else transform_loop s.

(** [int(s)] for a string [s] *)
Definition py_int (s : str) : outcome Z :=
  PyLong_FromString (transform_decimal_and_space_to_ascii s).

(** [k1, k2 = map(int, key.split(','))]: every way this can fail (a part
    that is no integer, fewer or more than two parts) is a ValueError. *)
Definition parse_key (key : str) : outcome (Z * Z) :=
  match split 44 key with
  | [a; b] =>
      k1 ←? py_int a;
      k2 ←? py_int b;
      Ok (k1, k2)
  | _ => Raise ValueError
  end.
End unicode_tables.

(** ** The persisted record, [save] and [from_file]

    The content of the file is taken to be the record itself: a mapping
    from strings to integers in file order, and the optional informational
    fields.  On records of this shape [json.dump] and [json.load] are the
    identity where they succeed; they fail on an integer beyond the digit
    limit, which [json.dump] writes with [int.__repr__] and [json.load]
    reads with [int]. *)

Record persisted := mkPersisted {
  p_merges : list (list Z * Z);
  p_vocab_size : option Z;
  p_num_merges : option Z;
  p_description : option (list Z);
}.

(** [int.__repr__] of each integer in turn. *)
Fixpoint dump_ints (zs : list Z) : outcome unit :=
  match zs with
  | [] => Ok tt
  | z :: rest => _ ←? py_str_int z; dump_ints rest
  end.

(** [json.dump(data, f, indent=2)]: what reaches the file. *)
Definition json_dump (data : persisted) : outcome persisted :=
  _ ←? dump_ints (p_merges data).*2;
  _ ←? dump_ints (option_list (p_vocab_size data));
  _ ←? dump_ints (option_list (p_num_merges data));
  Ok data.

(** [int] of the literal of each integer in turn; the literal of an
    integer in a JSON text is its decimal text. *)
Fixpoint load_ints (zs : list Z) : outcome unit :=
  match zs with
  | [] => Ok tt
  | z :: rest => _ ←? PyLong_FromString (decimal_string z); load_ints rest
  end.

(** [json.load(f)] on the content of a file. *)
Definition json_load (doc : persisted) : outcome persisted :=
  _ ←? load_ints (p_merges doc).*2;
  _ ←? load_ints (option_list (p_vocab_size doc));
  _ ←? load_ints (option_list (p_num_merges doc));
  Ok doc.

(** [f"{k[0]},{k[1]}"] *)
Definition format_key (k : Z * Z) : outcome str :=
  s1 ←? py_str_int k.1;
  s2 ←? py_str_int k.2;
  Ok (s1 ++ [44] ++ s2).

(** [{f"{k[0]},{k[1]}": v for k, v in merges.items()}] *)
Fixpoint merges_json_loop (items : list ((Z * Z) * Z))
    (d : list (list Z * Z)) : outcome (list (list Z * Z)) :=
  match items with
  | [] => Ok d
  | (k, v) :: rest =>
      key ←? format_key k;
      merges_json_loop rest (Dict.set d key v)
  end.

Definition merges_json (m : merge_table) : outcome (list (list Z * Z)) :=
  merges_json_loop (Dict.items m) [].

(** [save] returns the record written to the file. *)
Definition save (self : BPEEncoder) : outcome persisted :=
  merges_json ←? merges_json (merges self);
  json_dump {| p_merges := merges_json;
               p_vocab_size := Some (vocab_size self);
               p_num_merges := Some (Z.of_nat (length (merges self)));
               p_description := None |}.

Section loading.
Variable Py_UNICODE_ISSPACE : Z → bool.
Variable Py_UNICODE_TODECIMAL : Z → option Z.

(** [for key, value in data["merges"].items(): ...] *)
Fixpoint load_loop (entries : list (list Z * Z)) (m : merge_table)
  : outcome merge_table :=
  match entries with
  | [] => Ok m
  | (key, value) :: rest =>
      k ←? parse_key Py_UNICODE_ISSPACE Py_UNICODE_TODECIMAL key;
      load_loop rest (Dict.set m k value)
  end.

(** [from_file] applied to what [json.load] returned for the file. *)
Definition from_file (data : persisted) : outcome BPEEncoder :=
  m ←? load_loop (p_merges data) [];
  __init__ m (default 5000 (p_vocab_size data)).
End loading.

(** Tables that know no character outside ASCII; used to run examples. *)
Definition ascii_isspace (_ : Z) : bool := false.
Definition ascii_todecimal (_ : Z) : option Z := None.

(** ** Vocabulary of the claims *)

(** [p] occurs at two neighbouring positions of [ids]. *)
Definition adjacent (ids : list Z) (p : Z * Z) : Prop :=
  ∃ i : nat, ids !! i = Some p.1 ∧ ids !! S i = Some p.2.

(** The conditions on a merge table that the claims speak of. *)
Definition results_above_bytes (m : merge_table) : Prop :=
  ∀ k res, (k, res) ∈ m → 255 < res.

Definition results_distinct (m : merge_table) : Prop := NoDup m.*2.

(** Every operand is a base byte or the result of a rule created earlier,
    creation order being the order of the results. *)
Definition references_defined (m : merge_table) : Prop :=
  ∀ l r res, ((l, r), res) ∈ m →
    ∀ o, o = l ∨ o = r → 0 ≤ o ≤ 255 ∨ (o ∈ m.*2 ∧ o < res).

(** Every operand of a rule is a base byte or the result of a rule that
    precedes it when the rules are taken in ascending result order. *)
Definition references_in_order (m : merge_table) : Prop :=
  ∀ pre l r res post, py_sorted snd m = pre ++ ((l, r), res) :: post →
    ∀ o, o = l ∨ o = r → 0 ≤ o ≤ 255 ∨ o ∈ pre.*2.

(** What a vocabulary has to say about a merge table. *)
Definition vocab_describes (v : gmap Z (list Z)) (m : merge_table) : Prop :=
  (∀ id, 0 ≤ id ≤ 255 → v !! id = Some [id])
  ∧ (∀ l r res, ((l, r), res) ∈ m →
       ∃ bl br, v !! l = Some bl ∧ v !! r = Some br
                ∧ v !! res = Some (bl ++ br)).


(** [decode(encode(text)) == text] on the encoder built from [m]. *)
Definition round_trip (m : merge_table) (vs : Z) (text : list Z) : Prop :=
  ∃ self tokens, __init__ m vs = Ok self ∧ encode self text = Ok tokens
                 ∧ decode self tokens = Ok text.

(** The table of the specification's concrete scenario: "hi" becomes 256. *)
Definition hi_merges : merge_table := [((104, 105), 256)].

(** Two rules that share one result. *)
Definition shared_result_merges : merge_table :=
  [((1, 2), 256); ((3, 4), 256)].

(** A rule whose result is a base byte. *)
Definition byte_result_merges : merge_table := [((1, 2), 65)].

(** ** Vocabulary of the UTF-8 interpretation

    What it means to interpret a byte string as UTF-8 with replacement,
    written after the Unicode Standard and independently of the decoder:
    the table of well-formed byte sequences with the scalar value each one
    stands for, and the reading of a byte string, in which every
    well-formed sequence yields its scalar value and every maximal subpart
    of an ill-formed subsequence yields one U+FFFD. *)

(** Well-formed UTF-8 byte sequences (Unicode Standard, table 3-7) and the
    scalar values they stand for. *)
Inductive utf8_well_formed : bytes → Z → Prop :=
  | well_formed_1 b1 : 0 ≤ b1 < 0x80 → utf8_well_formed [b1] b1
  | well_formed_2 b1 b2 :
      0xC2 ≤ b1 < 0xE0 → 0x80 ≤ b2 < 0xC0 →
      utf8_well_formed [b1; b2] (b1 * 64 + b2 - 0x3080)
  | well_formed_3 b1 b2 b3 :
      0xE0 ≤ b1 < 0xF0 → 0x80 ≤ b2 < 0xC0 → 0x80 ≤ b3 < 0xC0 →
      (b1 = 0xE0 → 0xA0 ≤ b2) → (b1 = 0xED → b2 < 0xA0) →
      utf8_well_formed [b1; b2; b3] (b1 * 4096 + b2 * 64 + b3 - 0xE2080)
  | well_formed_4 b1 b2 b3 b4 :
      0xF0 ≤ b1 < 0xF5 → 0x80 ≤ b2 < 0xC0 → 0x80 ≤ b3 < 0xC0 →
      0x80 ≤ b4 < 0xC0 →
      (b1 = 0xF0 → 0x90 ≤ b2) → (b1 = 0xF4 → b2 < 0x90) →
      utf8_well_formed [b1; b2; b3; b4]
        (b1 * 262144 + b2 * 4096 + b3 * 64 + b4 - 0x3C82080).

(** An initial piece of a well-formed sequence. *)
Definition utf8_subpart (bs : bytes) : Prop :=
  ∃ more ch, utf8_well_formed (bs ++ more) ch.

(** No well-formed sequence starts at the front of [s]. *)
Definition unconvertible (s : bytes) : Prop :=
  ∀ bs more ch, utf8_well_formed bs ch → s ≠ bs ++ more.

(** [bad], followed by [rest], is the longest piece that is the initial
    piece of a well-formed sequence, or has length one. *)
Definition maximal_subpart (bad rest : bytes) : Prop :=
  (length bad = 1%nat ∨ utf8_subpart bad)
  ∧ ∀ b rest', rest = b :: rest' → ¬ utf8_subpart (bad ++ [b]).

Inductive utf8_reading : bytes → str → Prop :=
  | reading_end : utf8_reading [] []
  | reading_char bs ch rest text :
      utf8_well_formed bs ch → utf8_reading rest text →
      utf8_reading (bs ++ rest) (ch :: text)
  | reading_replaced bad rest text :
      bad ≠ [] → unconvertible (bad ++ rest) → maximal_subpart bad rest →
      utf8_reading rest text →
      utf8_reading (bad ++ rest) (REPLACEMENT_CHARACTER :: text).

(** The characters of [str(z)]: a minus sign and decimal digits. *)
Definition is_digit_char (c : Z) : Prop := 48 ≤ c ≤ 57.
Definition is_int_char (c : Z) : Prop := c = 45 ∨ is_digit_char c.

(** An integer of at most as many decimal digits as the limit allows. *)
Definition fits_digit_limit (z : Z) : Prop :=
  (length (decimal_string (Z.abs z)) ≤ max_str_digits)%nat.

(** Every operand and every result of the table is such an integer. *)
Definition table_fits_digit_limit (m : merge_table) : Prop :=
  ∀ l r res, ((l, r), res) ∈ m →
    fits_digit_limit l ∧ fits_digit_limit r ∧ fits_digit_limit res.

(** Every pair of the table is made of such integers. *)
Definition keys_fit (m : merge_table) : Prop :=
  ∀ k v, (k, v) ∈ m → fits_digit_limit k.1 ∧ fits_digit_limit k.2.

(** Every integer of the record is such an integer: the ones that
    [json.dump] writes and [json.load] reads. *)
Definition record_fits_digit_limit (data : persisted) : Prop :=
  Forall fits_digit_limit (p_merges data).*2
  ∧ Forall fits_digit_limit (option_list (p_vocab_size data))
  ∧ Forall fits_digit_limit (option_list (p_num_merges data)).

(** A collection that Python can hold: [len] of it is at most
    [sys.maxsize]. *)
Definition py_sized {A} (l : list A) : Prop := Z.of_nat (length l) < 2 ^ 63.

(** The key ["<left>,<right>"] of a pair: the two integers in decimal with
    a comma between them. *)
Definition key_text (k : Z * Z) : str :=
  decimal_string k.1 ++ [44] ++ decimal_string k.2.

(** The persisted form of one rule. *)
Definition persist_rule (rule : (Z * Z) * Z) : list Z * Z :=
  (key_text rule.1, rule.2).

(** The cases in which loading is claimed to be refused: a key that is no
    pair of integers, a result that occurs twice, a result of at most 255. *)
Definition load_refusal_claimed (isspace : Z → bool)
    (todecimal : Z → option Z) (data : persisted) : Prop :=
  (∃ key v, (key, v) ∈ p_merges data
            ∧ parse_key isspace todecimal key = Raise ValueError)
  ∨ ¬ NoDup (p_merges data).*2
  ∨ (∃ key v, (key, v) ∈ p_merges data ∧ v ≤ 255).

(** Persisted records used as examples; the keys are written out as code
    points: ["1,2"] is [49; 44; 50]. *)

(** [{"1,2": 300, "01,2": 256}]: two keys for the pair (1, 2). *)
Definition collision_data : persisted :=
  mkPersisted [([49; 44; 50], 300); ([48; 49; 44; 50], 256)] None None None.

(** [{"1,2": 65}] *)
Definition byte_result_data : persisted :=
  mkPersisted [([49; 44; 50], 65)] None None None.

(** [{"1,2": 256, "3,4": 256}] *)
Definition shared_result_data : persisted :=
  mkPersisted [([49; 44; 50], 256); ([51; 44; 52], 256)] None None None.

(** [{"300,301": 256}]: a rule over identifiers that nothing defines. *)
Definition dangling_data : persisted :=
  mkPersisted [([51; 48; 48; 44; 51; 48; 49], 256)] None None None.

(** [{"1;2": 256}]: a key without a comma. *)
Definition malformed_data : persisted :=
  mkPersisted [([49; 59; 50], 256)] None None None.


(** A valid table whose one result has 4301 decimal digits. *)
Definition long_result_merges : merge_table := [((1, 2), 10 ^ 4300)].

(** ** The remaining methods, the export script and the demo

    [get_vocab_size] and [get_num_merges] of the encoder, the function of
    [save_merges.py], and [decode_tokens] of [app.py]. *)

Definition get_vocab_size (self : BPEEncoder) : Z := vocab_size self.

Definition get_num_merges (self : BPEEncoder) : Z :=
  Z.of_nat (length (merges self)).

(** The code points of an ASCII string literal. *)
Definition str_of_string (s : String.string) : str :=
  (λ a, Z.of_N (Ascii.N_of_ascii a)) <$> String.list_ascii_of_string s.

Definition save_merges_description : str :=
  str_of_string
    "BPE merges trained on Hindi Wikipedia dataset (1000 articles)"%string.

(** [save_merges_to_file(merges, filepath, vocab_size)] returns the record
    it writes to the file; the three lines it prints afterwards are not
    part of the model. *)
Definition save_merges_to_file (m : merge_table) (vs : Z)
  : outcome persisted :=
  merges_json ←? merges_json m;
  json_dump {| p_merges := merges_json;
               p_vocab_size := Some vs;
               p_num_merges := Some (Z.of_nat (length m));
               p_description := Some save_merges_description |}.

(** [notebook_cell_save_merges.py]: the [data] that the cell writes to
    [merges.json] for the notebook's dictionary [merges]. *)
Definition notebook_cell_data (m : merge_table) : outcome persisted :=
  merges_json ←? merges_json m;
  json_dump {| p_merges := merges_json;
               p_vocab_size := Some 5000;
               p_num_merges := Some (Z.of_nat (length m));
               p_description := Some save_merges_description |}.

(** White space among the ASCII characters, as [str.strip] sees it. *)
Definition _Py_ascii_whitespace (c : Z) : bool :=
  bool_decide (9 ≤ c ≤ 13) || bool_decide (28 ≤ c ≤ 31) || bool_decide (c = 32).

(** What [decode_tokens] returns.  The fixed messages are kept as tags:
    - [reply_not_loaded]: "Encoder not loaded. Please check merges.json
      file.";
    - [reply_enter_ids]: "Please enter token IDs.";
    - [reply_invalid_format]: "Error: Invalid token format. Please use
      comma-separated integers (e.g., 256, 257, 258)";
    - [reply_error e]: "Error: " followed by [str(e)];
    - [reply_text text]: the decoded text. *)
Inductive reply :=
  | reply_text (text : str)
  | reply_not_loaded
  | reply_enter_ids
  | reply_invalid_format
  | reply_error (e : exn).

(** The exceptions that [except ValueError] catches: [UnicodeEncodeError]
    is a subclass of [ValueError]. *)
Definition is_ValueError (e : exn) : bool :=
  match e with
  | ValueError | UnicodeEncodeError => true
  | _ => false
  end.

Section demo.
Variable Py_UNICODE_ISSPACE : Z → bool.
Variable Py_UNICODE_TODECIMAL : Z → option Z.

Definition str_isspace (c : Z) : bool :=
  if decide (c < 128) then _Py_ascii_whitespace c else Py_UNICODE_ISSPACE c.

Fixpoint lstrip (s : str) : str :=
  match s with
  | [] => []
  | c :: rest => if str_isspace c then lstrip rest else s
  end.

Definition rstrip (s : str) : str := reverse (lstrip (reverse s)).

(** [x.strip()] *)
Definition strip (s : str) : str := rstrip (lstrip s).

(** [[int(x.strip()) for x in pieces if x.strip()]] *)
Fixpoint parse_tokens (pieces : list str) : outcome (list Z) :=
  match pieces with
  | [] => Ok []
  | x :: rest =>
      if decide (strip x = []) then parse_tokens rest
      else
        n ←? py_int Py_UNICODE_ISSPACE Py_UNICODE_TODECIMAL (strip x);
        ns ←? parse_tokens rest;
        Ok (n :: ns)
  end.

(** [decode_tokens(tokens_str)] with the module's global [encoder], which
    is [None] when [merges.json] was not found. *)
Definition decode_tokens (encoder : option BPEEncoder) (tokens_str : str)
  : outcome reply :=
  match encoder with
  | None => Ok reply_not_loaded
  | Some enc =>
      if decide (tokens_str = []) then Ok reply_enter_ids
      else
        match (tokens ←? parse_tokens (split 44 tokens_str);
               decode enc tokens) with
        | Ok text => Ok (reply_text text)
        | Raise e =>
            if is_ValueError e then Ok reply_invalid_format
            else Ok (reply_error e)
        | OutOfFuel => OutOfFuel
        end
  end.
End demo.

(** ** Vocabulary of the further properties *)

(** The number of positions at which [p] occurs in [ids]. *)
Fixpoint occurrences (ids : list Z) (p : Z * Z) : nat :=
  match ids with
  | [] => 0
  | a :: tl =>
      match tl with
      | [] => 0
      | b :: _ => (if decide ((a, b) = p) then 1 else 0) + occurrences tl p
      end
  end%nat.

(** Every [idx] written out as the pair it stands for. *)
Definition expand (ids : list Z) (pair : Z * Z) (idx : Z) : list Z :=
  ids ≫= λ t, if decide (t = idx) then [pair.1; pair.2] else [t].

(** White space as the integer parser sees it. *)
Definition is_space_char (c : Z) : Prop := Py_ISSPACE c = true.

(** The identifiers in decimal, separated by a comma and a space. *)
Fixpoint format_tokens (ids : list Z) : str :=
  match ids with
  | [] => []
  | [t] => decimal_string t
  | t :: rest => decimal_string t ++ [44; 32] ++ format_tokens rest
  end.

(** * Proofs *)

(** ** The outcome monad *)

Lemma obind_Ok {A B} (m : outcome A) (f : A → outcome B) (b : B) :
  obind m f = Ok b ↔ ∃ a, m = Ok a ∧ f a = Ok b.
Proof.
  destruct m as [a| |]; simpl; split.
  - intros Hf. by exists a.
  - intros [a' [[= <-] Hf]]. done.
  - done.
  - intros [a' [? _]]. done.
  - done.
  - intros [a' [? _]]. done.
Qed.

(** ** Dictionaries *)

Section dict_facts.
Context {K V : Type} `{EqDecision K}.
Implicit Types (d : list (K * V)) (k : K) (v : V).

Lemma dict_get_set_eq d k v : Dict.get (Dict.set d k v) k = Some v.
Proof.
  induction d as [|[k' v'] d IH]; simpl.
  - by rewrite decide_True.
  - destruct (decide (k = k')) as [->|Hne]; simpl.
    + by rewrite decide_True.
    + by rewrite decide_False.
Qed.

Lemma dict_get_set_ne d k k' v :
  k ≠ k' → Dict.get (Dict.set d k v) k' = Dict.get d k'.
Proof.
  intros Hne. induction d as [|[k0 v0] d IH]; simpl.
  - by rewrite decide_False.
  - destruct (decide (k = k0)) as [->|Hne0]; simpl.
    + by rewrite !decide_False by done.
    + by rewrite IH.
Qed.

Lemma dict_get_Some_elem d k v : Dict.get d k = Some v → (k, v) ∈ d.
Proof.
  induction d as [|[k' v'] d IH]; simpl; [done|].
  destruct (decide (k = k')) as [->|Hne].
  - intros [= ->]. apply list_elem_of_here.
  - intros H'. apply list_elem_of_further. auto.
Qed.

Lemma dict_keys_set d k v k' :
  k' ∈ (Dict.set d k v).*1 ↔ k' = k ∨ k' ∈ d.*1.
Proof.
  induction d as [|[k0 v0] d IH]; simpl.
  - rewrite list_elem_of_singleton. split; [auto|].
    intros [?|Hn]; [done|]. by apply elem_of_nil in Hn.
  - destruct (decide (k = k0)) as [->|Hne]; simpl.
    + rewrite !elem_of_cons. tauto.
    + rewrite !elem_of_cons, IH. tauto.
Qed.

Lemma dict_set_wf d k v : Dict.wf d → Dict.wf (Dict.set d k v).
Proof.
  unfold Dict.wf. induction d as [|[k0 v0] d IH]; simpl.
  - intros _. apply NoDup_singleton.
  - rewrite NoDup_cons. intros [Hnotin Hnd].
    destruct (decide (k = k0)) as [->|Hne]; simpl.
    + by apply NoDup_cons.
    + apply NoDup_cons. split; [|by apply IH].
      rewrite dict_keys_set. intros [?|?]; [congruence | done].
Qed.

(** Assigning a fresh key appends the entry. *)
Lemma dict_set_fresh d k v : k ∉ d.*1 → Dict.set d k v = d ++ [(k, v)].
Proof.
  induction d as [|[k0 v0] d IH]; simpl; [done|].
  rewrite not_elem_of_cons. intros [Hne Hnotin].
  by rewrite decide_False, IH.
Qed.
End dict_facts.

(** ** The replacement scan *)

(** Induction following the two-step recursion of the scan. *)
Lemma list_pair_ind {A} (P : list A → Prop) :
  P [] → (∀ a, P [a]) →
  (∀ a b rest, P rest → P (b :: rest) → P (a :: b :: rest)) →
  ∀ l, P l.
Proof.
  intros Hnil Hone Hstep l.
  assert (P l ∧ ∀ a, P (a :: l)) as [? _]; [|done].
  induction l as [|b l [IH1 IH2]]; [by split|].
  split; [apply IH2|]. intros a. by apply Hstep.
Qed.

Lemma replace_scan_length ids pair idx :
  (length (replace_scan ids pair idx) ≤ length ids)%nat.
Proof.
  induction ids as [|a|a b rest IH1 IH2] using list_pair_ind; [done..|].
  change (replace_scan (a :: b :: rest) pair idx)
    with (if decide (a = pair.1 ∧ b = pair.2)
          then idx :: replace_scan rest pair idx
          else a :: replace_scan (b :: rest) pair idx).
  case_decide; simpl in *; lia.
Qed.

Lemma adjacent_cons ids a p :
  adjacent (a :: ids) p ↔
  (ids ≠ [] ∧ a = p.1 ∧ head ids = Some p.2) ∨ adjacent ids p.
Proof.
  unfold adjacent. split.
  - intros [[|i] [H1 H2]]; simpl in *.
    + left. destruct ids as [|b ids]; [done|].
      simpl in *. split; [done|]. split; congruence.
    + right. eauto.
  - intros [(Hne & -> & Hhd)|[i [H1 H2]]].
    + exists 0%nat. destruct ids; simpl in *; [done|]. split; congruence.
    + exists (S i). done.
Qed.

Lemma adjacent_nil p : ¬ adjacent [] p.
Proof. intros [i [H1 _]]. done. Qed.

Lemma adjacent_singleton a p : ¬ adjacent [a] p.
Proof. intros [i [_ H2]]. done. Qed.

(** A pass over a sequence that contains the pair is strictly shorter. *)
Lemma replace_scan_shrinks ids pair idx :
  adjacent ids pair →
  (length (replace_scan ids pair idx) < length ids)%nat.
Proof.
  induction ids as [|a|a b rest IH1 IH2] using list_pair_ind.
  - intros H. by apply adjacent_nil in H.
  - intros H. by apply adjacent_singleton in H.
  - intros Hadj.
    change (replace_scan (a :: b :: rest) pair idx)
      with (if decide (a = pair.1 ∧ b = pair.2)
            then idx :: replace_scan rest pair idx
            else a :: replace_scan (b :: rest) pair idx).
    case_decide as Hc.
    + pose proof (replace_scan_length rest pair idx). simpl. lia.
    + apply adjacent_cons in Hadj as [(_ & -> & [= ->])|Hadj].
      * by destruct Hc.
      * specialize (IH2 Hadj). simpl in *. lia.
Qed.

(** The index loop of [_merge] computes the scan of the part of [ids] not
    yet visited, and never needs more budget than that part is long. *)
Lemma _merge_loop_scan fuel ids pair idx (i : nat) newids :
  (length ids - i ≤ fuel)%nat →
  _merge_loop fuel ids pair idx i newids
  = Ok (newids ++ replace_scan (drop i ids) pair idx).
Proof.
  revert i newids. induction fuel as [|fuel IH]; intros i newids Hfuel.
  - simpl. rewrite decide_False by lia.
    rewrite drop_ge by lia. by rewrite app_nil_r.
  - simpl. destruct (decide (i < length ids)%nat) as [Hlt|Hge].
    2:{ rewrite drop_ge by lia. by rewrite app_nil_r. }
    destruct (lookup_lt_is_Some_2 ids i Hlt) as [a Ha].
    rewrite (drop_S _ _ _ Ha).
    unfold list_getitem. rewrite Ha. simpl.
    destruct (decide (i < length ids - 1)%nat) as [Hlt1|Hge1].
    + destruct (lookup_lt_is_Some_2 ids (S i)) as [b Hb]; [lia|].
      rewrite (drop_S _ _ _ Hb).
      replace (i + 1)%nat with (S i) by lia. rewrite Hb. simpl.
      destruct (decide (a = pair.1)) as [Ha1|Ha1]; simpl.
      * destruct (bool_decide_reflect (b = pair.2)) as [Hb2|Hb2].
        -- rewrite decide_True by done.
           rewrite IH by lia.
           replace (i + 2)%nat with (S (S i)) by lia.
           by rewrite <-app_assoc.
        -- rewrite decide_False by tauto. rewrite ?Ha. simpl.
           rewrite IH by lia. rewrite (drop_S _ _ _ Hb).
           by rewrite <-app_assoc.
      * rewrite decide_False by tauto. rewrite ?Ha. simpl.
        rewrite IH by lia. replace (i + 1)%nat with (S i) by lia.
        rewrite (drop_S _ _ _ Hb). by rewrite <-app_assoc.
    + rewrite ?Ha. simpl. rewrite IH by lia.
      replace (i + 1)%nat with (S i) by lia.
      rewrite !drop_ge by lia. by rewrite <-app_assoc.
Qed.

Lemma _merge_scan ids pair idx :
  _merge ids pair idx = Ok (replace_scan ids pair idx).
Proof. unfold _merge. rewrite _merge_loop_scan by lia. done. Qed.

(** ** [_get_stats]: the keys are the adjacent pairs *)

Lemma adjacent_zip ids p : adjacent ids p ↔ p ∈ zip ids (drop 1 ids).
Proof.
  destruct p as [a b]. unfold adjacent. simpl.
  rewrite list_elem_of_lookup. split.
  - intros [i [H1 H2]]. exists i.
    rewrite lookup_zip_with, H1, lookup_drop. simpl. by rewrite H2.
  - intros [i Hi]. exists i.
    rewrite lookup_zip_with in Hi.
    destruct (ids !! i) as [x|] eqn:H1; [|done]. simpl in Hi.
    rewrite lookup_drop in Hi. simpl in Hi.
    destruct (ids !! S i) as [y|] eqn:H2; [|done]. simpl in Hi.
    by injection Hi as -> ->.
Qed.

Lemma count_pairs_keys pairs counts p :
  p ∈ (fold_left count_pair pairs counts).*1 ↔ p ∈ pairs ∨ p ∈ counts.*1.
Proof.
  revert counts. induction pairs as [|q pairs IH]; intros counts; simpl.
  - split; [auto|]. intros [H|H]; [by apply elem_of_nil in H|done].
  - rewrite IH. unfold count_pair. rewrite dict_keys_set, elem_of_cons. tauto.
Qed.

Lemma _get_stats_keys ids p : p ∈ Dict.keys (_get_stats ids) ↔ adjacent ids p.
Proof.
  unfold Dict.keys, _get_stats. rewrite count_pairs_keys, adjacent_zip.
  split; [intros [?|H]; [done|by apply elem_of_nil in H] | auto].
Qed.

Lemma adjacent_exists ids :
  (2 ≤ length ids)%nat → ∃ p, adjacent ids p.
Proof.
  destruct ids as [|a [|b ids]]; simpl; [lia..|]. intros _.
  exists (a, b), 0%nat. done.
Qed.

(** ** [min] with the rank of a pair as key *)

Lemma pynum_le_trans a b c :
  pynum_le a b = true → pynum_le b c = true → pynum_le a c = true.
Proof.
  unfold pynum_le.
  destruct a as [x|], b as [y|], c as [z|]; simpl; try done.
  rewrite !negb_true_iff, !bool_decide_eq_false. lia.
Qed.

Lemma pynum_lt_le a b : pynum_lt a b = true → pynum_le a b = true.
Proof.
  unfold pynum_le. destruct a as [x|], b as [y|]; simpl; try done.
  rewrite negb_true_iff, bool_decide_eq_true, bool_decide_eq_false. lia.
Qed.

Section min_facts.
Context {A : Type} (key : A → pynum).

Lemma min_loop_elem best rest : min_loop key best rest ∈ best :: rest.
Proof.
  revert best. induction rest as [|x rest IH]; intros best; simpl.
  - apply list_elem_of_here.
  - destruct (pynum_lt (key x) (key best)).
    + apply list_elem_of_further, IH.
    + specialize (IH best). apply elem_of_cons in IH as [->|IH].
      * apply list_elem_of_here.
      * by do 2 apply list_elem_of_further.
Qed.

Lemma min_loop_le_best best rest :
  pynum_le (key (min_loop key best rest)) (key best) = true.
Proof.
  revert best. induction rest as [|x rest IH]; intros best; simpl.
  - unfold pynum_le. destruct (key best); simpl; [|done].
    rewrite negb_true_iff, bool_decide_eq_false. lia.
  - destruct (pynum_lt (key x) (key best)) eqn:Hlt; [|apply IH].
    eapply pynum_le_trans; [apply IH|]. by apply pynum_lt_le.
Qed.

Lemma min_loop_le best rest x :
  x ∈ best :: rest →
  pynum_le (key (min_loop key best rest)) (key x) = true.
Proof.
  revert best. induction rest as [|y rest IH]; intros best Hin.
  - apply list_elem_of_singleton in Hin as ->. apply min_loop_le_best.
  - simpl. destruct (pynum_lt (key y) (key best)) eqn:Hlt.
    + apply elem_of_cons in Hin as [->|Hin].
      * eapply pynum_le_trans; [apply min_loop_le_best|].
        by apply pynum_lt_le.
      * by apply IH.
    + apply elem_of_cons in Hin as [->|Hin]; [apply min_loop_le_best|].
      apply elem_of_cons in Hin as [->|Hin].
      * eapply pynum_le_trans; [apply min_loop_le_best|].
        unfold pynum_le. by rewrite Hlt.
      * apply IH. by apply list_elem_of_further.
Qed.
End min_facts.

(** ** One pass of [encode] *)

Lemma dict_contains_true (m : merge_table) p :
  Dict.contains m p = true ↔ is_Some (Dict.get m p).
Proof. unfold Dict.contains. apply bool_decide_eq_true. Qed.

(** A pass that does not leave the loop merged a pair that is adjacent in
    the sequence and has a rule. *)
Lemma encode_body_Some m tokens tokens' :
  encode_body m tokens = Ok (Some tokens') →
  ∃ pair idx, adjacent tokens pair ∧ Dict.get m pair = Some idx
              ∧ tokens' = replace_scan tokens pair idx.
Proof.
  unfold encode_body. intros H.
  apply obind_Ok in H as (pair & Hmin & H).
  assert (adjacent tokens pair) as Hadj.
  { apply _get_stats_keys. unfold py_min in Hmin.
    destruct (Dict.keys (_get_stats tokens)) as [|x rest]; [done|].
    injection Hmin as <-. apply min_loop_elem. }
  destruct (Dict.contains m pair) eqn:Hc; simpl in H; [|done].
  apply dict_contains_true in Hc as [idx Hidx].
  unfold merges_getitem in H. rewrite Hidx in H. simpl in H.
  rewrite _merge_scan in H. simpl in H. injection H as <-. eauto.
Qed.

Lemma encode_body_cases m tokens :
  (2 ≤ length tokens)%nat →
  (encode_body m tokens = Ok None
   ∧ ∀ p, adjacent tokens p → Dict.get m p = None)
  ∨ (∃ pair idx,
       adjacent tokens pair ∧ Dict.get m pair = Some idx
       ∧ (∀ q v, adjacent tokens q → Dict.get m q = Some v → idx ≤ v)
       ∧ encode_body m tokens = Ok (Some (replace_scan tokens pair idx))).
Proof.
  intros Hlen. destruct (adjacent_exists tokens Hlen) as [p0 Hp0].
  apply _get_stats_keys in Hp0. unfold encode_body, py_min.
  assert (∀ q, adjacent tokens q ↔ q ∈ Dict.keys (_get_stats tokens)) as Hk.
  { intros q. symmetry. apply _get_stats_keys. }
  destruct (Dict.keys (_get_stats tokens)) as [|x rest] eqn:Hkeys.
  { by apply elem_of_nil in Hp0. }
  simpl. set (pair := min_loop (merge_rank m) x rest).
  pose proof (min_loop_elem (merge_rank m) x rest) as Hin.
  pose proof (min_loop_le (merge_rank m) x rest) as Hmin.
  fold pair in Hin, Hmin.
  destruct (Dict.contains m pair) eqn:Hc; simpl.
  - right. apply dict_contains_true in Hc as [idx Hidx].
    exists pair, idx. split; [by apply Hk|]. split; [done|]. split.
    + intros q v Hq Hv. apply Hk in Hq. specialize (Hmin q Hq).
      unfold merge_rank, pynum_le in Hmin. rewrite Hidx, Hv in Hmin.
      simpl in Hmin. rewrite negb_true_iff, bool_decide_eq_false in Hmin. lia.
    + unfold merges_getitem. rewrite Hidx. simpl. by rewrite _merge_scan.
  - left. split; [done|]. intros q Hq. apply Hk in Hq.
    specialize (Hmin q Hq). unfold merge_rank, pynum_le in Hmin.
    assert (Dict.get m pair = None) as Hnone.
    { destruct (Dict.get m pair) eqn:Hg; [|done].
      assert (Dict.contains m pair = true) by (apply dict_contains_true; eauto).
      congruence. }
    rewrite Hnone in Hmin. by destruct (Dict.get m q).
Qed.

(** ** Termination of the merge loop *)

Lemma encode_loop_short fuel m tokens :
  (length tokens < 2)%nat → encode_loop fuel m tokens = Ok tokens.
Proof. intros H. destruct fuel; simpl; by rewrite decide_False by lia. Qed.

Lemma encode_loop_budget fuel m tokens :
  (length tokens - 1 ≤ fuel)%nat →
  ∃ r, encode_loop fuel m tokens = Ok r ∧ (length r ≤ length tokens)%nat.
Proof.
  revert tokens. induction fuel as [|fuel IH]; intros tokens Hfuel.
  - exists tokens. rewrite encode_loop_short by lia. done.
  - simpl. destruct (decide (2 ≤ length tokens)%nat) as [Hlen|Hlen].
    2:{ exists tokens. done. }
    destruct (encode_body_cases m tokens Hlen)
      as [[-> _]|(pair & idx & Hadj & _ & _ & ->)]; simpl.
    + exists tokens. done.
    + pose proof (replace_scan_shrinks tokens pair idx Hadj) as Hlt.
      destruct (IH (replace_scan tokens pair idx)) as (r & -> & Hr); [lia|].
      exists r. split; [done|lia].
Qed.

(** A run of [n] body executions is what the fuelled loop computes with
    any budget of at least [n]. *)
Lemma loop_run_encode_loop m tokens n result fuel :
  loop_run m tokens n result → (n ≤ fuel)%nat →
  encode_loop fuel m tokens = Ok result.
Proof.
  intros Hrun. revert fuel.
  induction Hrun as [tokens Hlen|tokens Hlen Hbody
                    |tokens tokens' n result Hlen Hbody _ IH]; intros fuel Hle.
  - by apply encode_loop_short.
  - destruct fuel as [|fuel]; [lia|]. simpl.
    rewrite decide_True by done. by rewrite Hbody.
  - destruct fuel as [|fuel]; [lia|]. simpl.
    rewrite decide_True by done. rewrite Hbody. simpl. apply IH. lia.
Qed.

(** Every sequence has a run, of at most one body execution less than it
    has tokens. *)
Lemma loop_run_exists m tokens :
  ∃ n result, loop_run m tokens n result ∧ (n ≤ length tokens - 1)%nat.
Proof.
  remember (length tokens) as len eqn:Hlen.
  revert tokens Hlen. induction (lt_wf len) as [len _ IH]. intros tokens ->.
  destruct (decide (2 ≤ length tokens)%nat) as [Hge|Hlt].
  2:{ exists 0%nat, tokens. split; [constructor|]; lia. }
  destruct (encode_body_cases m tokens Hge)
    as [[Hbody _]|(pair & idx & Hadj & _ & _ & Hbody)].
  - exists 1%nat, tokens. split; [by constructor|lia].
  - pose proof (replace_scan_shrinks tokens pair idx Hadj) as Hshrink.
    destruct (IH _ Hshrink _ eq_refl) as (n & result & Hrun & Hn).
    exists (S n), result. split; [by econstructor|lia].
Qed.

(** The run of a sequence is unique. *)
Lemma loop_run_unique m tokens n n' result result' :
  loop_run m tokens n result → loop_run m tokens n' result' →
  n = n' ∧ result = result'.
Proof.
  intros Hrun. revert n' result'.
  induction Hrun as [tokens Hlen|tokens Hlen Hbody
                    |tokens tokens' n result Hlen Hbody _ IH];
    intros n' result' Hrun'.
  - inversion Hrun' as [t Hl|t Hl Hb|t t' k r Hl Hb Hr]; subst;
      [done|lia|lia].
  - inversion Hrun' as [t Hl|t Hl Hb|t t' k r Hl Hb Hr]; subst;
      [lia|done|congruence].
  - inversion Hrun' as [t Hl|t Hl Hb|t t' k r Hl Hb Hr]; subst;
      [lia|congruence|].
    assert (t' = tokens') as -> by congruence.
    destruct (IH _ _ Hr) as [-> ->]. done.
Qed.

Lemma utf8_encode_char_outcome ch :
  (∃ b, utf8_encode_char ch = Ok b)
  ∨ utf8_encode_char ch = Raise UnicodeEncodeError.
Proof.
  unfold utf8_encode_char.
  destruct (is_surrogate ch); repeat case_decide; eauto.
Qed.

Lemma utf8_encode_outcome text :
  (∃ b, utf8_encode text = Ok b) ∨ utf8_encode text = Raise UnicodeEncodeError.
Proof.
  induction text as [|ch text IH]; simpl; [eauto|].
  destruct (utf8_encode_char_outcome ch) as [[b ->]| ->]; simpl; [|by right].
  destruct IH as [[bs ->]| ->]; simpl; eauto.
Qed.

(** ** The vocabulary *)

Lemma fold_insert_singletons (l : list Z) (v : gmap Z (list Z)) (i : Z) :
  fold_left (λ (v : gmap Z (list Z)) idx, <[idx := [idx]]> v) l v !! i
  = if decide (i ∈ l) then Some [i] else v !! i.
Proof.
  revert v. induction l as [|x l IH]; intros v.
  - destruct (decide (i ∈ [])) as [Hin|_]; [by apply elem_of_nil in Hin|done].
  - cbn [fold_left]. rewrite IH.
    destruct (decide (i ∈ l)) as [Hin|Hnin].
    + rewrite decide_True; [done|]. by apply list_elem_of_further.
    + destruct (decide (x = i)) as [->|Hne].
      * rewrite lookup_insert_eq, decide_True; [done|]. apply list_elem_of_here.
      * rewrite lookup_insert_ne by done. rewrite decide_False; [done|].
        rewrite elem_of_cons. intros [?|?]; congruence.
Qed.

Lemma base_vocab_lookup i :
  base_vocab !! i = if decide (0 ≤ i ≤ 255) then Some [i] else None.
Proof.
  unfold base_vocab. rewrite fold_insert_singletons.
  destruct (decide (i ∈ seqZ 0 256)) as [Hin|Hnin];
    rewrite elem_of_seqZ in *; case_decide; try done; lia.
Qed.

Lemma vocab_getitem_Ok v idx b : vocab_getitem v idx = Ok b ↔ v !! idx = Some b.
Proof.
  unfold vocab_getitem. destruct (v !! idx); split; intros H; congruence.
Qed.

(** *** [sorted] *)

Section sorted_facts.
Context {A : Type} (key : A → Z).

Lemma sorted_insert_perm x l : sorted_insert key x l ≡ₚ x :: l.
Proof.
  induction l as [|y l IH]; simpl; [done|].
  case_decide; [done|]. rewrite IH. apply Permutation_swap.
Qed.

Lemma py_sorted_perm l : py_sorted key l ≡ₚ l.
Proof.
  induction l as [|x l IH]; simpl; [done|].
  rewrite sorted_insert_perm. by rewrite IH.
Qed.

Lemma sorted_insert_sorted x l :
  StronglySorted (λ a b, key a ≤ key b) l →
  StronglySorted (λ a b, key a ≤ key b) (sorted_insert key x l).
Proof.
  induction l as [|y l IH]; simpl; intros Hs.
  - repeat constructor.
  - apply StronglySorted_inv in Hs as [Hs Hall].
    case_decide as Hxy.
    + constructor; [by constructor|]. constructor; [done|].
      eapply Forall_impl; [exact Hall|]. simpl. intros; lia.
    + constructor; [by apply IH|].
      rewrite sorted_insert_perm. constructor; [lia|done].
Qed.

Lemma py_sorted_sorted l :
  StronglySorted (λ a b, key a ≤ key b) (py_sorted key l).
Proof.
  induction l as [|x l IH]; simpl; [constructor|].
  by apply sorted_insert_sorted.
Qed.

Lemma sorted_distinct_strict l :
  StronglySorted (λ a b, key a ≤ key b) l → NoDup (key <$> l) →
  StronglySorted (λ a b, key a < key b) l.
Proof.
  induction l as [|x l IH]; simpl; intros Hs Hnd; [constructor|].
  apply StronglySorted_inv in Hs as [Hs Hall].
  apply NoDup_cons in Hnd as [Hnotin Hnd].
  constructor; [by apply IH|].
  rewrite Forall_forall in *. intros y Hy.
  assert (key x ≠ key y).
  { intros Heq. apply Hnotin. rewrite Heq. apply list_elem_of_fmap.
    by exists y. }
  specialize (Hall y Hy). simpl in Hall. lia.
Qed.

(** In a sorted list nothing at or after a position has a smaller key. *)
Lemma sorted_split_smaller pre x post y :
  StronglySorted (λ a b, key a ≤ key b) (pre ++ x :: post) →
  y ∈ pre ++ x :: post → key y < key x → y ∈ pre.
Proof.
  induction pre as [|z pre IH]; simpl; intros Hs Hin Hlt.
  - apply StronglySorted_inv in Hs as [_ Hall].
    apply elem_of_cons in Hin as [->|Hin]; [lia|].
    rewrite Forall_forall in Hall.
    specialize (Hall y Hin). simpl in Hall. lia.
  - apply StronglySorted_inv in Hs as [Hs _].
    apply elem_of_cons in Hin as [->|Hin]; [apply list_elem_of_here|].
    apply list_elem_of_further. by apply IH.
Qed.
End sorted_facts.

(** *** The loop over the sorted rules *)

Lemma build_loop_cons_Ok l r res rest v v' :
  build_loop (((l, r), res) :: rest) v = Ok v' ↔
  ∃ bl br, v !! l = Some bl ∧ v !! r = Some br
           ∧ build_loop rest (<[res := bl ++ br]> v) = Ok v'.
Proof.
  simpl. rewrite obind_Ok. split.
  - intros (bl & Hl & H). apply obind_Ok in H as (br & Hr & H).
    apply vocab_getitem_Ok in Hl, Hr. eauto.
  - intros (bl & br & Hl & Hr & H). exists bl.
    split; [by apply vocab_getitem_Ok|]. apply obind_Ok. exists br.
    split; [by apply vocab_getitem_Ok|done].
Qed.

Lemma build_loop_app_Ok rules1 rules2 v v' :
  build_loop (rules1 ++ rules2) v = Ok v' ↔
  ∃ v1, build_loop rules1 v = Ok v1 ∧ build_loop rules2 v1 = Ok v'.
Proof.
  revert v. induction rules1 as [|[[l r] res] rules1 IH]; intros v.
  - simpl. split; [eauto|]. by intros (v1 & [= <-] & H).
  - rewrite <-app_comm_cons, build_loop_cons_Ok. split.
    + intros (bl & br & Hl & Hr & H). apply IH in H as (v1 & H1 & H2).
      exists v1. split; [|done]. apply build_loop_cons_Ok. eauto 10.
    + intros (v1 & H1 & H2).
      apply build_loop_cons_Ok in H1 as (bl & br & Hl & Hr & H1).
      exists bl, br. split; [done|]. split; [done|]. apply IH. eauto.
Qed.

(** The loop defines the results of the rules and nothing else. *)
Lemma build_loop_dom rules v v' :
  build_loop rules v = Ok v' →
  ∀ k, is_Some (v' !! k) ↔ is_Some (v !! k) ∨ k ∈ rules.*2.
Proof.
  revert v. induction rules as [|[[l r] res] rules IH]; intros v H k.
  - simpl in H. injection H as <-. rewrite elem_of_nil. tauto.
  - apply build_loop_cons_Ok in H as (bl & br & Hl & Hr & H).
    rewrite (IH _ H k). simpl. rewrite elem_of_cons.
    destruct (decide (res = k)) as [->|Hne].
    + rewrite lookup_insert_eq. split; [auto|]. intros _. left. eauto.
    + rewrite lookup_insert_ne by done. split.
      * intros [?|?]; auto.
      * intros [?|[?|?]]; [auto|congruence|auto].
Qed.

(** The loop raises nothing but [KeyError] and never runs out of budget. *)
Lemma build_loop_outcome rules v :
  (∃ v', build_loop rules v = Ok v')
  ∨ (∃ o, build_loop rules v = Raise (KeyError (KeyInt o))).
Proof.
  revert v. induction rules as [|[[l r] res] rules IH]; intros v; simpl.
  - eauto.
  - unfold vocab_getitem.
    destruct (v !! l) as [bl|]; simpl; [|eauto].
    destruct (v !! r) as [br|]; simpl; [|eauto]. apply IH.
Qed.

(** The loop succeeds exactly when every rule finds its operands among
    the entries present at the start and the results written before it. *)
Lemma build_loop_Ok_iff rules v :
  (∃ v', build_loop rules v = Ok v') ↔
  (∀ pre l r res post, rules = pre ++ ((l, r), res) :: post →
     ∀ o, o = l ∨ o = r → is_Some (v !! o) ∨ o ∈ pre.*2).
Proof.
  split.
  - intros [v' H] pre l r res post -> o Ho.
    apply build_loop_app_Ok in H as (v1 & H1 & H2).
    apply build_loop_cons_Ok in H2 as (bl & br & Hl & Hr & _).
    apply (build_loop_dom _ _ _ H1). destruct Ho as [-> | ->]; eauto.
  - revert v. induction rules as [|[[l r] res] rules IH]; intros v Hrefs.
    + simpl. eauto.
    + destruct (Hrefs [] l r res rules eq_refl l) as [[bl Hl]|Hl]; [auto| |].
      2:{ by apply elem_of_nil in Hl. }
      destruct (Hrefs [] l r res rules eq_refl r) as [[br Hr]|Hr]; [auto| |].
      2:{ by apply elem_of_nil in Hr. }
      destruct (IH (<[res := bl ++ br]> v)) as [v' Hv'].
      * intros pre l' r' res' post -> o Ho.
        destruct (Hrefs (((l, r), res) :: pre) l' r' res' post eq_refl o Ho)
          as [Hs|Hin].
        -- left. destruct (decide (res = o)) as [->|Hne].
           ++ rewrite lookup_insert_eq. eauto.
           ++ by rewrite lookup_insert_ne.
        -- simpl in Hin. apply elem_of_cons in Hin as [->|Hin]; [|auto].
           left. rewrite lookup_insert_eq. eauto.
      * exists v'. apply build_loop_cons_Ok. eauto 10.
Qed.

(** With results that are new and strictly ascending, entries are never
    overwritten: the final vocabulary extends every earlier one and keeps
    what each rule wrote. *)
Lemma build_loop_final rules v v' :
  build_loop rules v = Ok v' →
  StronglySorted (λ a b : Z * Z * Z, a.2 < b.2) rules →
  (∀ k res, (k, res) ∈ rules → v !! res = None) →
  v ⊆ v'
  ∧ (∀ l r res, ((l, r), res) ∈ rules →
       ∃ bl br, v' !! l = Some bl ∧ v' !! r = Some br
                ∧ v' !! res = Some (bl ++ br)).
Proof.
  revert v. induction rules as [|[[l r] res] rules IH]; intros v H Hs Hfresh.
  - simpl in H. injection H as <-. split; [done|].
    intros l r res Hin. by apply elem_of_nil in Hin.
  - apply build_loop_cons_Ok in H as (bl & br & Hl & Hr & H).
    apply StronglySorted_inv in Hs as [Hs Hall].
    rewrite Forall_forall in Hall.
    assert (v !! res = None) as Hres.
    { apply (Hfresh (l, r)). apply list_elem_of_here. }
    destruct (IH _ H Hs) as [Hsub Hrules].
    { intros k res' Hin. rewrite lookup_insert_ne.
      - apply (Hfresh k). by apply list_elem_of_further.
      - specialize (Hall _ Hin). simpl in Hall. lia. }
    assert (v ⊆ v') as Hsub'.
    { etrans; [|exact Hsub]. by apply insert_subseteq. }
    split; [done|]. intros l' r' res' Hin.
    apply elem_of_cons in Hin as [[= -> -> ->]|Hin]; [|by apply Hrules].
    exists bl, br. split; [by eapply lookup_weaken|].
    split; [by eapply lookup_weaken|].
    eapply lookup_weaken; [|exact Hsub]. apply lookup_insert_eq.
Qed.

Lemma build_vocab_map_outcome m :
  (∃ v, build_vocab_map m = Ok v)
  ∨ (∃ o, build_vocab_map m = Raise (KeyError (KeyInt o))).
Proof. apply build_loop_outcome. Qed.

Lemma build_vocab_map_dom m v :
  build_vocab_map m = Ok v →
  ∀ k, is_Some (v !! k) ↔ 0 ≤ k ≤ 255 ∨ k ∈ m.*2.
Proof.
  intros H k. rewrite (build_loop_dom _ _ _ H k).
  rewrite base_vocab_lookup.
  assert (k ∈ (py_sorted snd (Dict.items m)).*2 ↔ k ∈ m.*2) as ->.
  { unfold Dict.items. by rewrite (py_sorted_perm snd m). }
  case_decide as Hk; split; intros [Hb|Hr]; auto.
  - by destruct Hb.
  - lia.
Qed.

Lemma build_vocab_map_Ok_iff m :
  (∃ v, build_vocab_map m = Ok v) ↔ references_in_order m.
Proof.
  unfold build_vocab_map, references_in_order, Dict.items.
  rewrite build_loop_Ok_iff.
  split; intros H pre l r res post Heq o Ho;
    specialize (H pre l r res post Heq o Ho);
    rewrite base_vocab_lookup in *; case_decide; destruct H as [H|H]; auto.
  all: try (by destruct H); try (left; eauto; lia).
Qed.

(** On a table with distinct results above the bytes, a successful build
    yields a vocabulary that describes the table. *)
Lemma build_vocab_map_describes m v :
  results_above_bytes m → results_distinct m →
  build_vocab_map m = Ok v → vocab_describes v m.
Proof.
  intros Habove Hdist H. unfold build_vocab_map, Dict.items in H.
  pose proof (py_sorted_perm snd m) as Hperm.
  destruct (build_loop_final _ _ _ H) as [Hsub Hrules].
  - apply sorted_distinct_strict; [apply py_sorted_sorted|].
    unfold results_distinct in Hdist. by rewrite Hperm.
  - intros k res Hin. rewrite Hperm in Hin. apply Habove in Hin.
    rewrite base_vocab_lookup. rewrite decide_False; [done|lia].
  - split.
    + intros id Hid. eapply lookup_weaken; [|exact Hsub].
      rewrite base_vocab_lookup. by rewrite decide_True.
    + intros l r res Hin. apply Hrules. by rewrite Hperm.
Qed.

Lemma references_defined_in_order m :
  references_defined m → references_in_order m.
Proof.
  intros Hrefs pre l r res post Heq o Ho.
  pose proof (py_sorted_perm snd m) as Hperm.
  assert (((l, r), res) ∈ m) as Hin.
  { rewrite <-Hperm, Heq. apply elem_of_app. right. apply list_elem_of_here. }
  destruct (Hrefs l r res Hin o Ho) as [?|[Hom Hlt]]; [by left|]. right.
  apply list_elem_of_fmap in Hom as ([k o'] & -> & Hom). simpl in *.
  apply list_elem_of_fmap. exists (k, o'). split; [done|].
  apply (sorted_split_smaller snd pre ((l, r), res) post).
  - rewrite <-Heq. apply py_sorted_sorted.
  - by rewrite <-Heq, Hperm.
  - done.
Qed.

(** ** The UTF-8 codec *)

(** Bit operations on the ranges the codec uses, as arithmetic. *)
Lemma range_check (P : Z → bool) (lo len : Z) :
  forallb P (seqZ lo len) = true → ∀ x, lo ≤ x < lo + len → P x = true.
Proof.
  intros Hall x Hx. rewrite forallb_forall in Hall. apply Hall.
  apply list_elem_of_In, elem_of_seqZ. lia.
Qed.

Lemma lor_lead (hi bound x : Z) :
  forallb (λ x, bool_decide (Z.lor hi x = hi + x)) (seqZ 0 bound) = true →
  0 ≤ x < bound → Z.lor hi x = hi + x.
Proof.
  intros Hall Hx.
  apply (range_check _ 0 bound Hall x) in Hx as Hb.
  by apply bool_decide_eq_true in Hb.
Qed.

Lemma lor_0x80 x : 0 ≤ x < 64 → Z.lor 0x80 x = 0x80 + x.
Proof. by apply lor_lead. Qed.

Lemma lor_0xC0 x : 0 ≤ x < 32 → Z.lor 0xC0 x = 0xC0 + x.
Proof. by apply lor_lead. Qed.

Lemma lor_0xE0 x : 0 ≤ x < 16 → Z.lor 0xE0 x = 0xE0 + x.
Proof. by apply lor_lead. Qed.

Lemma lor_0xF0 x : 0 ≤ x < 8 → Z.lor 0xF0 x = 0xF0 + x.
Proof. by apply lor_lead. Qed.

Lemma land_0x3F x : Z.land x 0x3F = x mod 64.
Proof. change 0x3F with (Z.ones 6). by rewrite Z.land_ones. Qed.

Lemma shiftr_div x n : 0 ≤ n → Z.shiftr x n = x / 2 ^ n.
Proof. intros. by apply Z.shiftr_div_pow2. Qed.

Lemma shiftl_mul x n : 0 ≤ n → Z.shiftl x n = x * 2 ^ n.
Proof. intros. by apply Z.shiftl_mul_pow2. Qed.

Ltac codec_arith :=
  rewrite ?land_0x3F, ?shiftr_div, ?shiftl_mul by lia;
  change (2 ^ 6) with 64; change (2 ^ 12) with 4096;
  change (2 ^ 18) with 262144.

Lemma is_continuation_true b : 0x80 ≤ b < 0xC0 → is_continuation b = true.
Proof. intros. by apply bool_decide_eq_true_2. Qed.

(** What the decoder does with a well-formed sequence at the front.  The
    tails are kept abstract while the head is examined, so that only one
    layer of the decoder is unfolded at a time. *)
Lemma decode_1 b1 rest :
  b1 < 0x80 → utf8_decode_replace (b1 :: rest) = b1 :: utf8_decode_replace rest.
Proof. intros. cbn [utf8_decode_replace]. by rewrite decide_True by lia. Qed.

Lemma decode_2 b1 b2 rest :
  0xC2 ≤ b1 < 0xE0 → 0x80 ≤ b2 < 0xC0 →
  utf8_decode_replace (b1 :: b2 :: rest)
  = (b1 * 64 + b2 - 0x3080) :: utf8_decode_replace rest.
Proof.
  intros. remember (b2 :: rest) as s1 eqn:Hs1. cbn [utf8_decode_replace].
  rewrite !decide_False by lia. rewrite decide_True by lia.
  subst s1. cbv match. rewrite is_continuation_true by lia.
  codec_arith. f_equal; lia.
Qed.

Lemma decode_3 b1 b2 b3 rest :
  0xE0 ≤ b1 < 0xF0 → 0x80 ≤ b2 < 0xC0 → 0x80 ≤ b3 < 0xC0 →
  (b1 = 0xE0 → 0xA0 ≤ b2) → (b1 = 0xED → b2 < 0xA0) →
  utf8_decode_replace (b1 :: b2 :: b3 :: rest)
  = (b1 * 4096 + b2 * 64 + b3 - 0xE2080) :: utf8_decode_replace rest.
Proof.
  intros. remember (b3 :: rest) as s2 eqn:Hs2.
  remember (b2 :: s2) as s1 eqn:Hs1. cbn [utf8_decode_replace].
  rewrite !decide_False by lia. rewrite decide_True by lia.
  subst s1. cbv match. rewrite is_continuation_true by lia.
  assert ((if decide (b2 < 0xA0) then bool_decide (b1 = 0xE0)
           else bool_decide (b1 = 0xED)) = false) as ->.
  { case_decide; apply bool_decide_eq_false; lia. }
  subst s2. cbv match beta delta [negb orb].
  rewrite is_continuation_true by lia.
  codec_arith. f_equal; lia.
Qed.

Lemma decode_4 b1 b2 b3 b4 rest :
  0xF0 ≤ b1 < 0xF5 → 0x80 ≤ b2 < 0xC0 → 0x80 ≤ b3 < 0xC0 →
  0x80 ≤ b4 < 0xC0 →
  (b1 = 0xF0 → 0x90 ≤ b2) → (b1 = 0xF4 → b2 < 0x90) →
  utf8_decode_replace (b1 :: b2 :: b3 :: b4 :: rest)
  = (b1 * 262144 + b2 * 4096 + b3 * 64 + b4 - 0x3C82080)
      :: utf8_decode_replace rest.
Proof.
  intros. remember (b4 :: rest) as s3 eqn:Hs3.
  remember (b3 :: s3) as s2 eqn:Hs2.
  remember (b2 :: s2) as s1 eqn:Hs1. cbn [utf8_decode_replace].
  rewrite !decide_False by lia. rewrite decide_True by lia.
  subst s1. cbv match. rewrite is_continuation_true by lia.
  assert ((if decide (b2 < 0x90) then bool_decide (b1 = 0xF0)
           else bool_decide (b1 = 0xF4)) = false) as ->.
  { case_decide; apply bool_decide_eq_false; lia. }
  subst s2. cbv match beta delta [negb orb].
  rewrite is_continuation_true by lia.
  subst s3. cbv match. rewrite is_continuation_true by lia.
  codec_arith. f_equal; lia.
Qed.

Lemma utf8_char_roundtrip ch rest :
  is_scalar ch →
  ∃ b, utf8_encode_char ch = Ok b ∧ Forall is_byte b
       ∧ utf8_decode_replace (b ++ rest) = ch :: utf8_decode_replace rest.
Proof.
  intros [Hrange Hsur]. unfold utf8_encode_char, is_byte.
  destruct (decide (ch < 0x80)) as [H1|H1].
  { eexists. split; [done|]. split; [repeat constructor; lia|].
    by apply decode_1. }
  destruct (decide (ch < 0x800)) as [H2|H2].
  { eexists. split; [done|]. codec_arith.
    rewrite lor_0xC0, lor_0x80 by (Z.div_mod_to_equations; lia).
    split; [repeat constructor; Z.div_mod_to_equations; lia|].
    simpl app. rewrite decode_2 by (Z.div_mod_to_equations; lia).
    f_equal. Z.div_mod_to_equations; lia. }
  unfold is_surrogate. rewrite bool_decide_eq_false_2 by done.
  destruct (decide (ch < 0x10000)) as [H3|H3].
  { eexists. split; [done|]. codec_arith.
    rewrite lor_0xE0, !lor_0x80 by (Z.div_mod_to_equations; lia).
    split; [repeat constructor; Z.div_mod_to_equations; lia|].
    simpl app. rewrite decode_3 by (Z.div_mod_to_equations; lia).
    f_equal. Z.div_mod_to_equations; lia. }
  eexists. split; [done|]. codec_arith.
  rewrite lor_0xF0, !lor_0x80 by (Z.div_mod_to_equations; lia).
  split; [repeat constructor; Z.div_mod_to_equations; lia|].
  simpl app. rewrite decode_4 by (Z.div_mod_to_equations; lia).
  f_equal. Z.div_mod_to_equations; lia.
Qed.

(** Encoding a text of scalar values succeeds with bytes that decode back
    to the text. *)
Lemma utf8_roundtrip text :
  Forall is_scalar text →
  ∃ b, utf8_encode text = Ok b ∧ Forall is_byte b
       ∧ utf8_decode_replace b = text.
Proof.
  induction 1 as [|ch text Hch _ (bs & Hbs & Hbytes & Hdec)]; simpl.
  - exists []. done.
  - destruct (utf8_char_roundtrip ch bs Hch) as (b & -> & Hb & Hd). simpl.
    rewrite Hbs. simpl. exists (b ++ bs).
    split; [done|]. split; [by apply Forall_app|]. by rewrite Hd, Hdec.
Qed.

(** ** Construction of the encoder *)

Lemma init_Ok m vs self :
  __init__ m vs = Ok self ↔
  ∃ v, build_vocab_map m = Ok v ∧ self = mkBPEEncoder m vs (Some v).
Proof.
  unfold __init__, _build_vocab. simpl. rewrite obind_Ok. split.
  - intros (v & Hv & [= <-]). eauto.
  - intros (v & Hv & ->). eauto.
Qed.

(** Every entry of a built vocabulary is a string of bytes. *)
Lemma build_loop_bytes rules v v' :
  build_loop rules v = Ok v' →
  (∀ k b, v !! k = Some b → Forall is_byte b) →
  ∀ k b, v' !! k = Some b → Forall is_byte b.
Proof.
  revert v. induction rules as [|[[l r] res] rules IH]; intros v H Hv.
  - simpl in H. by injection H as <-.
  - apply build_loop_cons_Ok in H as (bl & br & Hl & Hr & H).
    apply (IH _ H). intros k b.
    destruct (decide (res = k)) as [->|Hne].
    + rewrite lookup_insert_eq. intros [= <-]. apply Forall_app. eauto.
    + rewrite lookup_insert_ne by done. apply Hv.
Qed.

Lemma build_vocab_map_bytes m v k b :
  build_vocab_map m = Ok v → v !! k = Some b → Forall is_byte b.
Proof.
  intros H. apply (build_loop_bytes _ _ _ H). clear. intros k b.
  rewrite base_vocab_lookup. case_decide; [|done].
  intros [= <-]. repeat constructor; unfold is_byte; lia.
Qed.

(** ** Joining the byte strings of tokens *)

Section join_facts.
Context (self : BPEEncoder) (v : gmap Z (list Z)).
Hypothesis Hvocab : _vocab self = Some v.

Lemma self_vocab_getitem_eq idx :
  self_vocab_getitem self idx = vocab_getitem v idx.
Proof using Hvocab. unfold self_vocab_getitem. by rewrite Hvocab. Qed.

Lemma join_vocab_cons_Some idx rest b :
  v !! idx = Some b →
  join_vocab self (idx :: rest) = bs ←? join_vocab self rest; Ok (b ++ bs).
Proof using Hvocab.
  intros Hb. simpl. rewrite self_vocab_getitem_eq. unfold vocab_getitem.
  by rewrite Hb.
Qed.

(** The joined bytes are the concatenation of the tokens' entries. *)
Lemma join_vocab_pieces ids :
  (∀ id, id ∈ ids → is_Some (v !! id)) →
  ∃ pieces, Forall2 (λ id b, v !! id = Some b) ids pieces
            ∧ join_vocab self ids = Ok (concat pieces).
Proof using Hvocab.
  induction ids as [|id ids IH]; intros Hall.
  - exists []. split; [constructor|done].
  - destruct (Hall id) as [b Hb]; [apply list_elem_of_here|].
    destruct IH as (pieces & Hf & Hj).
    { intros id' Hin. apply Hall. by apply list_elem_of_further. }
    exists (b :: pieces). split; [by constructor|].
    rewrite (join_vocab_cons_Some _ _ _ Hb), Hj. done.
Qed.

(** An identifier without an entry makes the join raise [KeyError]. *)
Lemma join_vocab_missing ids :
  (∃ id, id ∈ ids ∧ v !! id = None) →
  ∃ id, id ∈ ids ∧ v !! id = None
        ∧ join_vocab self ids = Raise (KeyError (KeyInt id)).
Proof using Hvocab.
  induction ids as [|a ids IH]; intros (id & Hin & Hnone).
  - by apply elem_of_nil in Hin.
  - destruct (v !! a) as [b|] eqn:Ha.
    + apply elem_of_cons in Hin as [->|Hin]; [congruence|].
      destruct IH as (id' & Hin' & Hnone' & Hj); [eauto|].
      exists id'. split; [by apply list_elem_of_further|]. split; [done|].
      rewrite (join_vocab_cons_Some _ _ _ Ha), Hj. done.
    + exists a. split; [apply list_elem_of_here|]. split; [done|].
      simpl. rewrite self_vocab_getitem_eq. unfold vocab_getitem.
      by rewrite Ha.
Qed.

(** Base bytes stand for themselves. *)
Lemma join_vocab_bytes bs :
  (∀ id, 0 ≤ id ≤ 255 → v !! id = Some [id]) →
  Forall is_byte bs → join_vocab self bs = Ok bs.
Proof using Hvocab.
  intros Hbase. induction 1 as [|b bs Hb _ IH]; [done|].
  rewrite (join_vocab_cons_Some _ _ [b]), IH; [done|].
  apply Hbase. unfold is_byte in Hb. lia.
Qed.

(** Replacing a pair by a token that stands for both leaves the joined
    bytes as they were. *)
Lemma join_vocab_replace_scan ids p0 p1 idx b0 b1 :
  v !! p0 = Some b0 → v !! p1 = Some b1 → v !! idx = Some (b0 ++ b1) →
  join_vocab self (replace_scan ids (p0, p1) idx) = join_vocab self ids.
Proof using Hvocab.
  intros H0 H1 Hidx.
  induction ids as [|a|a b rest IH1 IH2] using list_pair_ind; [done..|].
  change (replace_scan (a :: b :: rest) (p0, p1) idx)
    with (if decide (a = p0 ∧ b = p1)
          then idx :: replace_scan rest (p0, p1) idx
          else a :: replace_scan (b :: rest) (p0, p1) idx).
  case_decide as Hc.
  - destruct Hc as [-> ->].
    rewrite (join_vocab_cons_Some _ _ _ Hidx), IH1.
    rewrite (join_vocab_cons_Some _ _ _ H0), (join_vocab_cons_Some _ _ _ H1).
    destruct (join_vocab self rest); simpl; [|done..].
    by rewrite app_assoc.
  - change (join_vocab self (a :: ?l))
      with (x ←? self_vocab_getitem self a; bs ←? join_vocab self l;
            Ok (x ++ bs)).
    by rewrite IH2.
Qed.

Lemma encode_loop_join fuel m tokens r :
  vocab_describes v m →
  encode_loop fuel m tokens = Ok r →
  join_vocab self r = join_vocab self tokens.
Proof using Hvocab.
  intros [_ Hrules]. revert tokens.
  induction fuel as [|fuel IH]; intros tokens; simpl.
  - case_decide; [done|]. by intros [= <-].
  - case_decide; [|by intros [= <-]].
    destruct (encode_body m tokens) as [[t'|]| |] eqn:Hbody; simpl;
      [|by intros [= <-]|done..].
    intros Hloop. rewrite (IH _ Hloop).
    apply encode_body_Some in Hbody as ([p0 p1] & idx & _ & Hget & ->).
    apply dict_get_Some_elem, Hrules in Hget as (b0 & b1 & H0 & H1 & Hidx).
    by eapply join_vocab_replace_scan.
Qed.
End join_facts.

(** The decoder turns bytes into a text: every character it produces is a
    scalar value. *)
Lemma replacement_scalar : is_scalar REPLACEMENT_CHARACTER.
Proof. unfold is_scalar, REPLACEMENT_CHARACTER. lia. Qed.

Ltac decoder_case :=
  match goal with
  | |- context [decide ?P] => destruct (decide P)
  | |- context [is_continuation ?b] =>
      let E := fresh "Hcont" in
      destruct (is_continuation b) eqn:E;
      [apply bool_decide_eq_true in E|clear E]
  | |- context [bool_decide ?P] => destruct (bool_decide_reflect P)
  | H : Forall is_byte ?s
    |- context [match ?s with [] => _ | _ :: _ => _ end] =>
      let b := fresh "b" in let s' := fresh "s" in
      destruct s as [|b s']; [clear H|apply Forall_cons in H as [? ?]];
      cbv match
  end; cbn [negb orb].

Lemma utf8_decode_replace_scalar (n : nat) (s : list Z) :
  (length s ≤ n)%nat → Forall is_byte s →
  Forall is_scalar (utf8_decode_replace s).
Proof.
  revert s. induction n as [|n IH]; intros s Hlen Hbytes.
  { destruct s; [constructor|simpl in Hlen; lia]. }
  destruct s as [|ch s1]; [constructor|].
  apply Forall_cons in Hbytes as [Hch Hs1]. simpl in Hlen.
  cbn [utf8_decode_replace]. pose proof replacement_scalar as Hrep.
  repeat decoder_case.
  all: try (apply Forall_singleton; exact Hrep).
  all: constructor;
    [ try done; unfold is_scalar, is_byte in *; codec_arith; lia
    | apply IH; [simpl in *; lia | repeat (apply Forall_cons; split); done] ].
Qed.

(** ** Facts about concrete tables *)

Ltac elem_cases H :=
  repeat (apply elem_of_cons in H as [H|H]; [inversion H; subst|]);
  try (by apply elem_of_nil in H).

Lemma hi_merges_above : results_above_bytes hi_merges.
Proof. intros k res H. elem_cases H. lia. Qed.

Lemma hi_merges_distinct : results_distinct hi_merges.
Proof. apply NoDup_singleton. Qed.

Lemma hi_merges_references : references_defined hi_merges.
Proof. intros l r res H o Ho. elem_cases H. left. lia. Qed.

Lemma hi_init :
  ∃ v, build_vocab_map hi_merges = Ok v
       ∧ __init__ hi_merges 5000 = Ok (mkBPEEncoder hi_merges 5000 (Some v)).
Proof.
  destruct (proj2 (build_vocab_map_Ok_iff hi_merges)) as [v Hv].
  { apply references_defined_in_order, hi_merges_references. }
  exists v. split; [done|]. apply init_Ok. eauto.
Qed.

(** The scenario of the specification: with the rule (104, 105) → 256 the
    text "hi" is encoded as [256], which is decoded as "hi". *)
Example hi_scenario :
  (self ←? __init__ hi_merges 5000;
   tokens ←? encode self [104; 105];
   text ←? decode self tokens;
   Ok (tokens, text))
  = Ok ([256], [104; 105]).
Proof. vm_compute. reflexivity. Qed.

(** ** The claims *)

(** C3.  On a sequence of at least two tokens, one pass of [encode] either
    finds no adjacent pair with a rule, and then [encode] stops and returns
    the sequence unchanged; or it selects an adjacent pair with a rule whose
    result is lowest among all adjacent pairs with a rule, and the index
    loop of [_merge] replaces its occurrences exactly as one scan from the
    left does that advances two positions on a match and one otherwise. *)
Theorem encode_pass_merges_lowest_rule (m : merge_table) (tokens : list Z) :
  (2 ≤ length tokens)%nat →
  ((∀ p, adjacent tokens p → Dict.get m p = None)
   ∧ encode_body m tokens = Ok None
   ∧ ∀ fuel, encode_loop (S fuel) m tokens = Ok tokens)
  ∨ (∃ pair idx,
       adjacent tokens pair ∧ Dict.get m pair = Some idx
       ∧ (∀ q v, adjacent tokens q → Dict.get m q = Some v → idx ≤ v)
       ∧ _merge tokens pair idx = Ok (replace_scan tokens pair idx)
       ∧ encode_body m tokens = Ok (Some (replace_scan tokens pair idx))).
Proof.
  intros Hlen.
  destruct (encode_body_cases m tokens Hlen)
    as [[Hbody Hnone]|(pair & idx & Hadj & Hget & Hmin & Hbody)].
  - left. split; [done|]. split; [done|]. intros fuel. simpl.
    rewrite decide_True by done. by rewrite Hbody.
  - right. exists pair, idx. by rewrite _merge_scan.
Qed.

Lemma encode_pass_merges_lowest_rule_witness :
  ((∀ p, adjacent [104; 105; 104; 105] p → Dict.get hi_merges p = None)
   ∧ encode_body hi_merges [104; 105; 104; 105] = Ok None
   ∧ ∀ fuel, encode_loop (S fuel) hi_merges [104; 105; 104; 105]
             = Ok [104; 105; 104; 105])
  ∨ (∃ pair idx,
       adjacent [104; 105; 104; 105] pair
       ∧ Dict.get hi_merges pair = Some idx
       ∧ (∀ q v, adjacent [104; 105; 104; 105] q →
                 Dict.get hi_merges q = Some v → idx ≤ v)
       ∧ _merge [104; 105; 104; 105] pair idx
         = Ok (replace_scan [104; 105; 104; 105] pair idx)
       ∧ encode_body hi_merges [104; 105; 104; 105]
         = Ok (Some (replace_scan [104; 105; 104; 105] pair idx))).
Proof.
  apply (encode_pass_merges_lowest_rule hi_merges [104; 105; 104; 105]).
  simpl. lia.
Defined.

(** C10.  [encode] terminates on every text and every merge table.  A pass
    that merges shortens the sequence, because the pair it selected was
    collected from adjacent positions; so the loop has a run, its only
    one, in which the body is executed at most [len(utf8(text)) - 1] times
    (not at all on the empty text), and [encode] returns the result of that
    run.  The only
    exception [encode] can raise comes from the UTF-8 encoding of the text
    itself. *)
Theorem encode_terminates (self : BPEEncoder) (text : str) :
  (∀ tokens tokens',
     encode_body (merges self) tokens = Ok (Some tokens') →
     (length tokens' < length tokens)%nat)
  ∧ ((utf8_encode text = Raise UnicodeEncodeError
      ∧ encode self text = Raise UnicodeEncodeError)
     ∨ (∃ tokens n result,
          utf8_encode text = Ok tokens
          ∧ loop_run (merges self) tokens n result
          ∧ (∀ n' result', loop_run (merges self) tokens n' result' →
                           n' = n ∧ result' = result)
          ∧ (n ≤ length tokens - 1)%nat
          ∧ (∀ fuel, (n ≤ fuel)%nat →
                     encode_loop fuel (merges self) tokens = Ok result)
          ∧ encode self text = Ok result)).
Proof.
  split.
  - intros tokens tokens' Hbody.
    apply encode_body_Some in Hbody as (pair & idx & Hadj & _ & ->).
    by apply replace_scan_shrinks.
  - unfold encode. destruct (utf8_encode_outcome text) as [[tokens ->]| ->].
    + right. simpl.
      destruct (loop_run_exists (merges self) tokens)
        as (n & result & Hrun & Hn).
      exists tokens, n, result. split; [done|]. split; [done|].
      split; [intros n' result' Hrun'; by eapply loop_run_unique|].
      split; [done|]. split.
      * intros fuel Hfuel. by eapply loop_run_encode_loop.
      * eapply loop_run_encode_loop; [exact Hrun|lia].
    + left. done.
Qed.

Lemma encode_terminates_witness :
  Nat.lt (length (replace_scan [104; 105; 104; 105] (104, 105) 256))
         (length [104; 105; 104; 105]).
Proof.
  apply (proj1 (encode_terminates (mkBPEEncoder hi_merges 5000 None) [])).
  vm_compute. reflexivity.
Defined.

(** C9.  Whatever the merge table, [encode] of the empty text is the empty
    sequence, [decode] of the empty sequence is the empty text, and a text
    of one character that UTF-8 writes as a single byte is encoded as the
    one-element sequence holding that byte. *)
Theorem encode_decode_small_inputs (self : BPEEncoder) :
  encode self [] = Ok []
  ∧ decode self [] = Ok []
  ∧ ∀ b, 0 ≤ b < 128 → utf8_encode [b] = Ok [b] ∧ encode self [b] = Ok [b].
Proof.
  split; [done|]. split; [done|]. intros b Hb.
  unfold encode. simpl. unfold utf8_encode_char.
  rewrite decide_True by lia. done.
Qed.

Lemma encode_decode_small_inputs_witness :
  utf8_encode [104] = Ok [104]
  ∧ encode (mkBPEEncoder hi_merges 5000 None) [104] = Ok [104].
Proof.
  apply (proj2 (proj2 (encode_decode_small_inputs
                         (mkBPEEncoder hi_merges 5000 None)))).
  lia.
Defined.

(** C1 (amended).  On a merge table whose results are all above 255 and
    pairwise distinct, and whose rules reference only base bytes or results
    of rules created earlier, the encoder is constructed, and for every text
    of Unicode scalar values [decode(encode(text))] is the text. *)
Theorem decode_encode_round_trip (m : merge_table) (vs : Z) (text : list Z) :
  results_above_bytes m → results_distinct m → references_defined m →
  Forall is_scalar text →
  round_trip m vs text.
Proof.
  intros Habove Hdist Hrefs Htext.
  destruct (proj2 (build_vocab_map_Ok_iff m)) as [v Hv].
  { by apply references_defined_in_order. }
  pose proof (build_vocab_map_describes m v Habove Hdist Hv) as Hdesc.
  set (self := mkBPEEncoder m vs (Some v)).
  assert (_vocab self = Some v) as Hself by done.
  destruct (utf8_roundtrip text Htext) as (b & Hb & Hbytes & Hdec).
  destruct (encode_loop_budget (length b) m b) as (r & Hr & _); [lia|].
  exists self, r. split; [apply init_Ok; eauto|]. split.
  - unfold encode. rewrite Hb. done.
  - unfold decode.
    rewrite (encode_loop_join self v Hself _ _ _ _ Hdesc Hr).
    rewrite (join_vocab_bytes self v Hself b (proj1 Hdesc) Hbytes). simpl.
    by rewrite Hdec.
Qed.

Lemma decode_encode_round_trip_witness : round_trip hi_merges 5000 [104; 105].
Proof.
  apply (decode_encode_round_trip hi_merges 5000 [104; 105]).
  - apply hi_merges_above.
  - apply hi_merges_distinct.
  - apply hi_merges_references.
  - repeat constructor; unfold is_scalar; lia.
Defined.

(** C1 as stated fails: two rules with one result satisfy its conditions,
    yet the text [\x01\x02] is encoded to [256] and decoded to [\x03\x04]. *)
Lemma round_trip_fails_on_shared_result :
  results_above_bytes shared_result_merges
  ∧ references_defined shared_result_merges
  ∧ Forall is_scalar [1; 2]
  ∧ ¬ round_trip shared_result_merges 5000 [1; 2].
Proof.
  split; [intros k res H; elem_cases H; lia|].
  split; [intros l r res H o Ho; elem_cases H; left; lia|].
  split; [repeat constructor; unfold is_scalar; lia|].
  intros (self & tokens & Hinit & Henc & Hdec).
  assert ((e ←? __init__ shared_result_merges 5000;
           t ←? encode e [1; 2]; decode e t) = Ok [3; 4]) as Hrun
    by (vm_compute; reflexivity).
  rewrite Hinit in Hrun. simpl in Hrun. rewrite Henc in Hrun. simpl in Hrun.
  rewrite Hdec in Hrun. discriminate.
Qed.

(** C4 (amended).  On a merge table whose results are all above 255 and
    pairwise distinct, a vocabulary that is built maps every id in 0..255
    to the single byte id and every rule's result to the bytes of its left
    operand followed by those of its right operand; it is the outcome of
    the rules taken in ascending result order from the 256 base entries.
    Building again on the object changes nothing, and the order in which
    the table lists its rules does not matter. *)
Theorem build_vocab_describes_table (m : merge_table) :
  results_above_bytes m → results_distinct m →
  (∀ v, build_vocab_map m = Ok v →
        vocab_describes v m
        ∧ ∃ rules, rules ≡ₚ m
                   ∧ StronglySorted (λ a b : Z * Z * Z, a.2 ≤ b.2) rules
                   ∧ build_loop rules base_vocab = Ok v)
  ∧ (∀ self self1 self2,
       merges self = m → _build_vocab self = Ok self1 →
       _build_vocab self1 = Ok self2 → self2 = self1)
  ∧ (∀ m', m' ≡ₚ m → build_vocab_map m' = build_vocab_map m).
Proof.
  intros Habove Hdist. split; [|split].
  - intros v Hv. split; [by apply build_vocab_map_describes|].
    exists (py_sorted snd m). split; [apply py_sorted_perm|].
    split; [apply py_sorted_sorted | exact Hv].
  - intros self self1 self2 Hm H1 H2. unfold _build_vocab in *.
    apply obind_Ok in H1 as (v1 & Hv1 & [= <-]). simpl in H2.
    rewrite Hv1 in H2. simpl in H2. by injection H2 as <-.
  - intros m' Hperm. unfold build_vocab_map, Dict.items. f_equal.
    apply (StronglySorted_unique_strong (λ a b : Z * Z * Z, a.2 < b.2)).
    + intros x1 x2 _ _ ? ?. lia.
    + apply sorted_distinct_strict; [apply py_sorted_sorted|].
      rewrite (py_sorted_perm snd m'), Hperm. exact Hdist.
    + apply sorted_distinct_strict; [apply py_sorted_sorted|].
      rewrite (py_sorted_perm snd m). exact Hdist.
    + by rewrite !py_sorted_perm.
Qed.

Lemma build_vocab_describes_table_witness :
  ∃ v, build_vocab_map hi_merges = Ok v ∧ vocab_describes v hi_merges.
Proof.
  destruct hi_init as (v & Hv & _). exists v. split; [exact Hv|].
  apply (proj1 (build_vocab_describes_table hi_merges
                  hi_merges_above hi_merges_distinct) v Hv).
Defined.

(** C4 as stated fails: a rule with result 65 replaces the entry of byte
    65, and of two rules sharing result 256 only the later one is kept. *)
Lemma build_vocab_overwrites_entries :
  (∃ v, build_vocab_map byte_result_merges = Ok v
        ∧ ¬ vocab_describes v byte_result_merges)
  ∧ (∃ v, build_vocab_map shared_result_merges = Ok v
          ∧ ¬ vocab_describes v shared_result_merges).
Proof.
  split.
  - destruct (proj2 (build_vocab_map_Ok_iff byte_result_merges)) as [v Hv].
    { apply references_defined_in_order.
      intros l r res H o Ho. elem_cases H. left. lia. }
    exists v. split; [done|]. intros [Hbase _].
    assert ((v ←? build_vocab_map byte_result_merges; Ok (v !! 65))
            = Ok (Some [1; 2])) as Hrun by (vm_compute; reflexivity).
    rewrite Hv in Hrun. simpl in Hrun. rewrite Hbase in Hrun by lia.
    discriminate.
  - destruct (proj2 (build_vocab_map_Ok_iff shared_result_merges)) as [v Hv].
    { apply references_defined_in_order.
      intros l r res H o Ho. elem_cases H; left; lia. }
    exists v. split; [done|]. intros [_ Hrules].
    destruct (Hrules 1 2 256) as (bl & br & H1 & H2 & H3).
    { apply list_elem_of_here. }
    assert ((v ←? build_vocab_map shared_result_merges;
             Ok (v !! 1, v !! 2, v !! 256))
            = Ok (Some [1], Some [2], Some [3; 4])) as Hrun
      by (vm_compute; reflexivity).
    rewrite Hv in Hrun. simpl in Hrun. rewrite H1, H2, H3 in Hrun.
    injection Hrun as -> -> Hres. discriminate.
Qed.

(** C5.  When the sequence holds an identifier that is neither in 0..255
    nor the result of a rule, [decode] raises [KeyError] for such an
    identifier; it returns no text. *)
Theorem decode_unknown_id_raises (m : merge_table) (vs : Z)
    (self : BPEEncoder) (ids : list Z) :
  __init__ m vs = Ok self →
  (∃ id, id ∈ ids ∧ ¬ (0 ≤ id ≤ 255) ∧ (id ∉ m.*2)) →
  ∃ id, id ∈ ids ∧ ¬ (0 ≤ id ≤ 255) ∧ (id ∉ m.*2)
        ∧ decode self ids = Raise (KeyError (KeyInt id)).
Proof.
  intros Hinit (id & Hin & Hbyte & Hres).
  apply init_Ok in Hinit as (v & Hv & ->).
  pose proof (build_vocab_map_dom m v Hv) as Hdom.
  assert (∀ k, v !! k = None ↔ ¬ (0 ≤ k ≤ 255) ∧ k ∉ m.*2) as Hnone.
  { intros k. rewrite eq_None_not_Some, Hdom. tauto. }
  destruct (join_vocab_missing (mkBPEEncoder m vs (Some v)) v eq_refl ids)
    as (id' & Hin' & Hnone' & Hjoin).
  { exists id. split; [done|]. apply Hnone. done. }
  exists id'. apply Hnone in Hnone' as [? ?].
  repeat (split; [done|]). unfold decode. by rewrite Hjoin.
Qed.

Lemma decode_unknown_id_raises_witness :
  ∃ self, __init__ hi_merges 5000 = Ok self
  ∧ ∃ id, id ∈ [104; 300] ∧ ¬ (0 ≤ id ≤ 255) ∧ (id ∉ hi_merges.*2)
          ∧ decode self [104; 300] = Raise (KeyError (KeyInt id)).
Proof.
  assert (∃ id, id ∈ [104; 300] ∧ ¬ (0 ≤ id ≤ 255) ∧ (id ∉ hi_merges.*2))
    as Hids.
  { exists 300. split; [by apply list_elem_of_further, list_elem_of_here|].
    split; [lia|]. simpl. intros H. elem_cases H. }
  destruct hi_init as (v & _ & Hinit). eexists. split; [exact Hinit|].
  apply (decode_unknown_id_raises hi_merges 5000 _ [104; 300] Hinit Hids).
Defined.

(** ** The reading of a byte string as UTF-8 *)

(** The encoder writes the well-formed sequence of every scalar value, and
    nothing else is well formed. *)
Lemma utf8_encode_char_well_formed bs ch :
  is_scalar ch → utf8_encode_char ch = Ok bs → utf8_well_formed bs ch.
Proof.
  intros [Hrange Hsur] Henc. unfold utf8_encode_char in Henc.
  destruct (decide (ch < 0x80)) as [H1|H1].
  { injection Henc as <-. constructor. lia. }
  destruct (decide (ch < 0x800)) as [H2|H2].
  { injection Henc as <-. revert H1. codec_arith.
    rewrite lor_0xC0, lor_0x80 by (Z.div_mod_to_equations; lia). intros H1.
    match goal with |- utf8_well_formed ?l ch => set (bs := l) end.
    replace ch with ((0xC0 + ch / 64) * 64 + (0x80 + ch mod 64) - 0x3080)
      by (Z.div_mod_to_equations; lia).
    subst bs. constructor; Z.div_mod_to_equations; lia. }
  unfold is_surrogate in Henc. rewrite bool_decide_eq_false_2 in Henc by done.
  destruct (decide (ch < 0x10000)) as [H3|H3].
  { injection Henc as <-. revert H1. codec_arith.
    rewrite lor_0xE0, !lor_0x80 by (Z.div_mod_to_equations; lia). intros H1.
    match goal with |- utf8_well_formed ?l ch => set (bs := l) end.
    replace ch with ((0xE0 + ch / 4096) * 4096
                     + (0x80 + ch / 64 mod 64) * 64
                     + (0x80 + ch mod 64) - 0xE2080)
      by (Z.div_mod_to_equations; lia).
    subst bs. constructor; Z.div_mod_to_equations; lia. }
  injection Henc as <-. revert H1. codec_arith.
  rewrite lor_0xF0, !lor_0x80 by (Z.div_mod_to_equations; lia). intros H1.
  match goal with |- utf8_well_formed ?l ch => set (bs := l) end.
    replace ch with ((0xF0 + ch / 262144) * 262144
                   + (0x80 + ch / 4096 mod 64) * 4096
                   + (0x80 + ch / 64 mod 64) * 64
                   + (0x80 + ch mod 64) - 0x3C82080)
      by (Z.div_mod_to_equations; lia).
  subst bs. constructor; Z.div_mod_to_equations; lia.
Qed.

Lemma utf8_well_formed_encode_char bs ch :
  utf8_well_formed bs ch → is_scalar ch ∧ utf8_encode_char ch = Ok bs.
Proof.
  unfold is_scalar, utf8_encode_char, is_surrogate.
  destruct 1 as [b1 H1|b1 b2 H1 H2|b1 b2 b3 H1 H2 H3 Hlo Hhi
                 |b1 b2 b3 b4 H1 H2 H3 H4 Hlo Hhi].
  - split; [lia|]. by rewrite decide_True by lia.
  - split; [lia|]. rewrite decide_False, decide_True by lia. codec_arith.
    rewrite lor_0xC0, lor_0x80 by (Z.div_mod_to_equations; lia).
    do 3 f_equal; Z.div_mod_to_equations; lia.
  - split; [lia|]. rewrite !decide_False by lia.
    rewrite bool_decide_eq_false_2 by lia. rewrite decide_True by lia.
    codec_arith.
    rewrite lor_0xE0, !lor_0x80 by (Z.div_mod_to_equations; lia).
    do 4 f_equal; Z.div_mod_to_equations; lia.
  - split; [lia|]. rewrite !decide_False by lia.
    rewrite bool_decide_eq_false_2 by lia.
    codec_arith.
    rewrite lor_0xF0, !lor_0x80 by (Z.div_mod_to_equations; lia).
    do 5 f_equal; Z.div_mod_to_equations; lia.
Qed.

Lemma utf8_well_formed_decode bs ch rest :
  utf8_well_formed bs ch →
  utf8_decode_replace (bs ++ rest) = ch :: utf8_decode_replace rest.
Proof.
  destruct 1; simpl app.
  - apply decode_1. lia.
  - by apply decode_2.
  - by apply decode_3.
  - by apply decode_4.
Qed.

(** The decoder's tests on the second byte, as ranges. *)
Lemma second_of_three b1 b2 :
  negb (is_continuation b2)
  || (if decide (b2 < 0xA0) then bool_decide (b1 = 0xE0)
      else bool_decide (b1 = 0xED)) = false
  ↔ 0x80 ≤ b2 < 0xC0 ∧ (b1 = 0xE0 → 0xA0 ≤ b2) ∧ (b1 = 0xED → b2 < 0xA0).
Proof.
  unfold is_continuation.
  destruct (bool_decide_reflect (0x80 ≤ b2 < 0xC0)); simpl; [|split; [done|lia]].
  case_decide; rewrite bool_decide_eq_false; lia.
Qed.

Lemma second_of_four b1 b2 :
  negb (is_continuation b2)
  || (if decide (b2 < 0x90) then bool_decide (b1 = 0xF0)
      else bool_decide (b1 = 0xF4)) = false
  ↔ 0x80 ≤ b2 < 0xC0 ∧ (b1 = 0xF0 → 0x90 ≤ b2) ∧ (b1 = 0xF4 → b2 < 0x90).
Proof.
  unfold is_continuation.
  destruct (bool_decide_reflect (0x80 ≤ b2 < 0xC0)); simpl; [|split; [done|lia]].
  case_decide; rewrite bool_decide_eq_false; lia.
Qed.

Lemma is_continuation_iff b : is_continuation b = true ↔ 0x80 ≤ b < 0xC0.
Proof. apply bool_decide_eq_true. Qed.

Lemma is_continuation_false b : is_continuation b = false ↔ ¬ 0x80 ≤ b < 0xC0.
Proof. apply bool_decide_eq_false. Qed.

Ltac no_form :=
  let bs := fresh "bs" in let more := fresh "more" in let c := fresh "c" in
  let Hf := fresh "Hf" in let Heq := fresh "Heq" in
  intros bs more c Hf Heq;
  inversion Hf; subst; simpl app in Heq; simplify_eq; lia.

Ltac no_subpart :=
  let b := fresh "b" in let r := fresh "r" in let Hr := fresh "Hr" in
  let more := fresh "more" in let c := fresh "c" in let Hf := fresh "Hf" in
  intros b r Hr (more & c & Hf); try discriminate Hr;
  simpl app in Hf; inversion Hf; simplify_eq; lia.

(** One step of the decoder: it reads the form of a scalar value, or
    replaces the maximal subpart at an offset that cannot be converted. *)
Lemma utf8_decode_step ch s1 :
  Forall is_byte (ch :: s1) →
  (∃ bs c rest, ch :: s1 = bs ++ rest ∧ utf8_well_formed bs c
     ∧ utf8_decode_replace (ch :: s1) = c :: utf8_decode_replace rest)
  ∨ (∃ bad rest, ch :: s1 = bad ++ rest ∧ bad ≠ []
       ∧ unconvertible (bad ++ rest) ∧ maximal_subpart bad rest
       ∧ utf8_decode_replace (ch :: s1)
         = REPLACEMENT_CHARACTER :: utf8_decode_replace rest).
Proof.
  intros Hbytes. apply Forall_cons in Hbytes as [Hch Hs1].
  unfold is_byte in Hch.
  assert (∀ bs c rest, ch :: s1 = bs ++ rest → utf8_well_formed bs c →
            ∃ bs c rest, ch :: s1 = bs ++ rest ∧ utf8_well_formed bs c
              ∧ utf8_decode_replace (ch :: s1) = c :: utf8_decode_replace rest)
    as Hgood.
  { intros bs c rest Heq Ht. exists bs, c, rest. split; [done|].
    split; [done|]. rewrite Heq.
    by apply utf8_well_formed_decode. }
  assert (∀ bad rest, ch :: s1 = bad ++ rest → bad ≠ [] →
            unconvertible (bad ++ rest) → maximal_subpart bad rest →
            utf8_decode_replace (ch :: s1)
            = REPLACEMENT_CHARACTER :: utf8_decode_replace rest →
            ∃ bad rest, ch :: s1 = bad ++ rest ∧ bad ≠ []
              ∧ unconvertible (bad ++ rest) ∧ maximal_subpart bad rest
              ∧ utf8_decode_replace (ch :: s1)
                = REPLACEMENT_CHARACTER :: utf8_decode_replace rest)
    as Hbad.
  { intros bad rest. eauto 10. }
  destruct (decide (ch < 0x80)) as [H1|H1].
  { left. apply (Hgood [ch] ch s1 eq_refl). constructor. lia. }
  destruct (decide (ch < 0xC2)) as [H2|H2].
  { right. apply (Hbad [ch] s1 eq_refl); [done|no_form| |].
    - split; [by left|no_subpart].
    - cbn [utf8_decode_replace]. rewrite decide_False by lia.
      by rewrite decide_True by lia. }
  destruct (decide (ch < 0xE0)) as [H3|H3].
  { destruct s1 as [|ch2 s2].
    { right. apply (Hbad [ch] [] eq_refl); [done|no_form| |].
      - split; [by left|no_subpart].
      - cbn [utf8_decode_replace]. rewrite !decide_False by lia.
        by rewrite decide_True by lia. }
    destruct (is_continuation ch2) eqn:Hc2.
    - apply is_continuation_iff in Hc2. left.
      eapply (Hgood [ch; ch2] _ s2 eq_refl). constructor; lia.
    - right. apply (Hbad [ch] (ch2 :: s2) eq_refl); [done| | |].
      + apply is_continuation_false in Hc2. no_form.
      + apply is_continuation_false in Hc2. split; [by left|no_subpart].
      + remember (ch2 :: s2) as s1 eqn:Hs1'. cbn [utf8_decode_replace].
        rewrite !decide_False by lia. rewrite decide_True by lia.
        subst s1. cbv match.
        by rewrite Hc2. }
  destruct (decide (ch < 0xF0)) as [H4|H4].
  { destruct s1 as [|ch2 s2].
    { right. apply (Hbad [ch] [] eq_refl); [done|no_form| |].
      - split; [by left|no_subpart].
      - cbn [utf8_decode_replace]. rewrite !decide_False by lia.
        by rewrite decide_True by lia. }
    destruct (negb (is_continuation ch2)
              || (if decide (ch2 < 0xA0) then bool_decide (ch = 0xE0)
                  else bool_decide (ch = 0xED))) eqn:Hc2.
    { right. apply not_false_iff_true in Hc2.
      rewrite second_of_three in Hc2.
      apply (Hbad [ch] (ch2 :: s2) eq_refl); [done|no_form| |].
      - split; [by left|no_subpart].
      - rewrite <-second_of_three in Hc2. apply not_false_iff_true in Hc2.
        remember (ch2 :: s2) as s1 eqn:Hs1'. cbn [utf8_decode_replace].
        rewrite !decide_False by lia. rewrite decide_True by lia.
        subst s1. cbv match. by rewrite Hc2. }
    pose proof Hc2 as Hc2'. apply second_of_three in Hc2' as (? & ? & ?).
    assert (utf8_subpart [ch; ch2]) as Hsub.
    { exists [0x80], (ch * 4096 + ch2 * 64 + 0x80 - 0xE2080).
      simpl app. constructor; lia. }
    destruct s2 as [|ch3 s3].
    { right. apply (Hbad [ch; ch2] [] eq_refl); [done|no_form| |].
      - split; [by right|no_subpart].
      - remember [ch2] as s1 eqn:Hs1'. cbn [utf8_decode_replace].
        rewrite !decide_False by lia. rewrite decide_True by lia.
        subst s1. cbv match. by rewrite Hc2. }
    destruct (is_continuation ch3) eqn:Hc3.
    - apply is_continuation_iff in Hc3. left.
      eapply (Hgood [ch; ch2; ch3] _ s3 eq_refl). constructor; lia.
    - right. apply (Hbad [ch; ch2] (ch3 :: s3) eq_refl); [done| | |].
      + apply is_continuation_false in Hc3. no_form.
      + apply is_continuation_false in Hc3. split; [by right|no_subpart].
      + remember (ch3 :: s3) as s2 eqn:Hs2.
        remember (ch2 :: s2) as s1 eqn:Hs1'. cbn [utf8_decode_replace].
        rewrite !decide_False by lia. rewrite decide_True by lia.
        subst s1. cbv match. rewrite Hc2. subst s2. cbv match.
        by rewrite Hc3. }
  destruct (decide (ch < 0xF5)) as [H5|H5].
  { destruct s1 as [|ch2 s2].
    { right. apply (Hbad [ch] [] eq_refl); [done|no_form| |].
      - split; [by left|no_subpart].
      - cbn [utf8_decode_replace]. rewrite !decide_False by lia.
        by rewrite decide_True by lia. }
    destruct (negb (is_continuation ch2)
              || (if decide (ch2 < 0x90) then bool_decide (ch = 0xF0)
                  else bool_decide (ch = 0xF4))) eqn:Hc2.
    { right. apply not_false_iff_true in Hc2.
      rewrite second_of_four in Hc2.
      apply (Hbad [ch] (ch2 :: s2) eq_refl); [done|no_form| |].
      - split; [by left|no_subpart].
      - rewrite <-second_of_four in Hc2. apply not_false_iff_true in Hc2.
        remember (ch2 :: s2) as s1 eqn:Hs1'. cbn [utf8_decode_replace].
        rewrite !decide_False by lia. rewrite decide_True by lia.
        subst s1. cbv match. by rewrite Hc2. }
    pose proof Hc2 as Hc2'. apply second_of_four in Hc2' as (? & ? & ?).
    assert (∀ b3, 0x80 ≤ b3 < 0xC0 → utf8_subpart [ch; ch2; b3]) as Hsub3.
    { intros b3 Hb3.
      exists [0x80], (ch * 262144 + ch2 * 4096 + b3 * 64 + 0x80 - 0x3C82080).
      simpl app. constructor; lia. }
    assert (utf8_subpart [ch; ch2]) as Hsub2.
    { destruct (Hsub3 0x80) as (more & c & Hf); [lia|].
      exists (0x80 :: more), c. exact Hf. }
    destruct s2 as [|ch3 s3].
    { right. apply (Hbad [ch; ch2] [] eq_refl); [done|no_form| |].
      - split; [by right|no_subpart].
      - remember [ch2] as s1 eqn:Hs1'. cbn [utf8_decode_replace].
        rewrite !decide_False by lia. rewrite decide_True by lia.
        subst s1. cbv match. by rewrite Hc2. }
    destruct (is_continuation ch3) eqn:Hc3.
    2:{ right. apply (Hbad [ch; ch2] (ch3 :: s3) eq_refl); [done| | |].
      + apply is_continuation_false in Hc3. no_form.
      + apply is_continuation_false in Hc3. split; [by right|no_subpart].
      + remember (ch3 :: s3) as s2 eqn:Hs2.
        remember (ch2 :: s2) as s1 eqn:Hs1'. cbn [utf8_decode_replace].
        rewrite !decide_False by lia. rewrite decide_True by lia.
        subst s1. cbv match. rewrite Hc2. subst s2. cbv match.
        by rewrite Hc3. }
    pose proof Hc3 as Hc3'. apply is_continuation_iff in Hc3'.
    destruct s3 as [|ch4 s4].
    { right. apply (Hbad [ch; ch2; ch3] [] eq_refl); [done|no_form| |].
      - split; [right; by apply Hsub3|no_subpart].
      - remember [ch3] as s2 eqn:Hs2.
        remember (ch2 :: s2) as s1 eqn:Hs1'. cbn [utf8_decode_replace].
        rewrite !decide_False by lia. rewrite decide_True by lia.
        subst s1. cbv match. rewrite Hc2. subst s2. cbv match.
        by rewrite Hc3. }
    destruct (is_continuation ch4) eqn:Hc4.
    - apply is_continuation_iff in Hc4. left.
      eapply (Hgood [ch; ch2; ch3; ch4] _ s4 eq_refl). constructor; lia.
    - right. apply (Hbad [ch; ch2; ch3] (ch4 :: s4) eq_refl); [done| | |].
      + apply is_continuation_false in Hc4. no_form.
      + apply is_continuation_false in Hc4.
        split; [right; by apply Hsub3|no_subpart].
      + remember (ch4 :: s4) as s3 eqn:Hs3.
        remember (ch3 :: s3) as s2 eqn:Hs2.
        remember (ch2 :: s2) as s1 eqn:Hs1'. cbn [utf8_decode_replace].
        rewrite !decide_False by lia. rewrite decide_True by lia.
        subst s1. cbv match. rewrite Hc2. subst s2. cbv match.
        rewrite Hc3. subst s3. cbv match. by rewrite Hc4. }
  right. apply (Hbad [ch] s1 eq_refl); [done|no_form| |].
  - split; [by left|no_subpart].
  - cbn [utf8_decode_replace]. by rewrite !decide_False by lia.
Qed.

(** The decoder yields the reading of every byte string. *)
Lemma utf8_decode_replace_reading (n : nat) (s : bytes) :
  (length s ≤ n)%nat → Forall is_byte s →
  utf8_reading s (utf8_decode_replace s).
Proof.
  revert s. induction n as [|n IH]; intros s Hlen Hbytes.
  { destruct s; [constructor|simpl in Hlen; lia]. }
  destruct s as [|ch s1]; [constructor|].
  destruct (utf8_decode_step ch s1 Hbytes)
    as [(bs & c & rest & Heq & Hf & ->)|(bad & rest & Heq & Hne & Hu & Hm & ->)];
    rewrite Heq.
  - assert (bs ≠ []) as Hne by by destruct Hf.
    constructor; [done|]. rewrite Heq in Hlen, Hbytes.
    apply IH; [|by apply Forall_app in Hbytes as [_ ?]].
    rewrite length_app in Hlen. destruct bs; [done|]. simpl in Hlen. lia.
  - constructor; [done..|]. rewrite Heq in Hlen, Hbytes.
    apply IH; [|by apply Forall_app in Hbytes as [_ ?]].
    rewrite length_app in Hlen. destruct bad; [done|]. simpl in Hlen. lia.
Qed.

Lemma utf8_subpart_prefix a b : utf8_subpart (a ++ b) → utf8_subpart a.
Proof.
  intros (more & ch & H). exists (b ++ more), ch. by rewrite app_assoc.
Qed.

Lemma maximal_subpart_longer bad k rest bad' rest' :
  bad ≠ [] → k ≠ [] → bad' = bad ++ k → rest = k ++ rest' →
  maximal_subpart bad rest → maximal_subpart bad' rest' → False.
Proof.
  intros Hne Hk -> -> [_ Hmax] [Hsub _].
  destruct k as [|b k]; [done|].
  apply (Hmax b (k ++ rest') eq_refl).
  destruct Hsub as [Hlen|Hsub].
  - rewrite length_app in Hlen. destruct bad; [done|]. simpl in Hlen. lia.
  - apply (utf8_subpart_prefix _ k). by rewrite <-app_assoc.
Qed.

Lemma maximal_subpart_unique bad rest bad' rest' :
  bad ++ rest = bad' ++ rest' → bad ≠ [] → bad' ≠ [] →
  maximal_subpart bad rest → maximal_subpart bad' rest' →
  bad = bad' ∧ rest = rest'.
Proof.
  intros Heq Hne Hne' Hm Hm'.
  apply app_eq_inv in Heq as [(k & Hk1 & Hk2)|(k & Hk1 & Hk2)].
  - destruct (decide (k = [])) as [->|Hk].
    + rewrite app_nil_r in Hk1. by subst.
    + destruct (maximal_subpart_longer _ k _ _ _ Hne' Hk Hk1 Hk2 Hm' Hm).
  - destruct (decide (k = [])) as [->|Hk].
    + rewrite app_nil_r in Hk1. by subst.
    + destruct (maximal_subpart_longer _ k _ _ _ Hne Hk Hk1 Hk2 Hm Hm').
Qed.

(** A byte string has one reading: the one the decoder yields. *)
Lemma utf8_reading_unique s text :
  Forall is_byte s → utf8_reading s text → text = utf8_decode_replace s.
Proof.
  intros Hbytes Hread.
  induction Hread as [|bs ch rest text Hf _ IH
                      |bad rest text Hne Hu Hm _ IH].
  - done.
  - rewrite (utf8_well_formed_decode _ _ _ Hf), IH; [done|].
    by apply Forall_app in Hbytes as [_ ?].
  - assert (∃ ch s1, bad ++ rest = ch :: s1) as (ch & s1 & Heq).
    { destruct bad; [done|]. simpl. eauto. }
    rewrite Heq in Hbytes.
    destruct (utf8_decode_step ch s1 Hbytes)
      as [(bs & c & rest' & Heq' & Hf & _)
         |(bad' & rest' & Heq' & Hne' & _ & Hm' & Hdec)].
    + rewrite <-Heq in Heq'. by destruct (Hu bs rest' c Hf).
    + rewrite <-Heq in Heq', Hdec.
      destruct (maximal_subpart_unique _ _ _ _ Heq' Hne Hne' Hm Hm')
        as [_ <-].
      rewrite Hdec, IH; [done|].
      rewrite <-Heq in Hbytes. by apply Forall_app in Hbytes as [_ ?].
Qed.

(** C6.  When every identifier of the sequence has a vocabulary entry,
    [decode] does not fail.  The text it returns is the reading, as UTF-8,
    of the concatenation of the entries taken as one byte string: every
    well-formed sequence yields its scalar value, every maximal subpart of
    an ill-formed subsequence yields one U+FFFD, and no other text is a
    reading of these bytes.  In particular the bytes of a text of scalar
    values yield that text, wherever the tokens divide them. *)
Theorem decode_joins_then_interprets (m : merge_table) (vs : Z)
    (self : BPEEncoder) (ids : list Z) :
  __init__ m vs = Ok self →
  (∀ id, id ∈ ids → 0 ≤ id ≤ 255 ∨ id ∈ m.*2) →
  ∃ v pieces text,
    _vocab self = Some v
    ∧ Forall2 (λ id b, v !! id = Some b) ids pieces
    ∧ decode self ids = Ok text
    ∧ utf8_reading (concat pieces) text
    ∧ (∀ text', utf8_reading (concat pieces) text' → text' = text)
    ∧ (∀ t, Forall is_scalar t → utf8_encode t = Ok (concat pieces) →
            text = t)
    ∧ Forall is_scalar text.
Proof.
  intros Hinit Hids. apply init_Ok in Hinit as (v & Hv & ->).
  destruct (join_vocab_pieces (mkBPEEncoder m vs (Some v)) v eq_refl ids)
    as (pieces & Hpieces & Hjoin).
  { intros id Hin. apply (build_vocab_map_dom m v Hv). auto. }
  assert (Forall is_byte (concat pieces)) as Hbytes.
  { apply Forall_concat. clear Hjoin Hids.
    induction Hpieces as [|id b ids pieces Hb _ IH]; constructor; [|done].
    by eapply build_vocab_map_bytes. }
  exists v, pieces, (utf8_decode_replace (concat pieces)).
  split; [done|]. split; [done|]. split.
  { unfold decode. by rewrite Hjoin. }
  split; [by eapply utf8_decode_replace_reading|].
  split; [intros text'; by apply utf8_reading_unique|].
  split; [|by eapply utf8_decode_replace_scalar].
  intros t Ht Henc. destruct (utf8_roundtrip t Ht) as (b & Hb & _ & Hdec).
  rewrite Henc in Hb. by injection Hb as <-.
Qed.

Lemma decode_joins_then_interprets_witness :
  ∃ self v pieces text,
    __init__ hi_merges 5000 = Ok self
    ∧ _vocab self = Some v
    ∧ Forall2 (λ id b, v !! id = Some b) [256; 195; 33] pieces
    ∧ decode self [256; 195; 33] = Ok text
    ∧ utf8_reading (concat pieces) text
    ∧ (∀ text', utf8_reading (concat pieces) text' → text' = text)
    ∧ (∀ t, Forall is_scalar t → utf8_encode t = Ok (concat pieces) →
            text = t)
    ∧ Forall is_scalar text.
Proof.
  assert (∀ id, id ∈ [256; 195; 33] → 0 ≤ id ≤ 255 ∨ id ∈ hi_merges.*2)
    as Hids.
  { intros id Hin.
    elem_cases Hin; [right; apply list_elem_of_here|left; lia..]. }
  destruct hi_init as (v0 & _ & Hinit).
  destruct (decode_joins_then_interprets hi_merges 5000 _ [256; 195; 33]
              Hinit Hids) as (v & pieces & text & H).
  eexists _, v, pieces, text. split; [exact Hinit|exact H].
Defined.

(** The three bytes of the letter HA, split over a merged token and a
    byte: [decode] yields the letter, decoding token by token would yield
    two replacement characters. *)
Example decode_after_joining_example :
  (self ←? __init__ [((224, 164), 256)] 5000;
   whole ←? decode self [256; 185];
   parts ←? decode_per_token self [256; 185];
   Ok (whole, parts))
  = Ok ([0x939], [REPLACEMENT_CHARACTER; REPLACEMENT_CHARACTER]).
Proof. vm_compute. reflexivity. Qed.

(** ** Integers as text *)

Lemma digits_loop_digits fuel n :
  0 ≤ n → Forall is_digit_char (digits_loop fuel n).
Proof.
  revert n. induction fuel as [|fuel IH]; intros n Hn; simpl; [constructor|].
  case_decide.
  - apply Forall_singleton. unfold is_digit_char. lia.
  - apply Forall_app. split.
    + apply IH. Z.div_mod_to_equations; lia.
    + apply Forall_singleton. unfold is_digit_char.
      Z.div_mod_to_equations; lia.
Qed.

Lemma digits_loop_nonempty fuel n : digits_loop (S fuel) n ≠ [].
Proof.
  simpl. case_decide; [done|]. intros Heq. by apply app_eq_nil in Heq as [_ ?].
Qed.

Lemma Py_ISDIGIT_true c : is_digit_char c → Py_ISDIGIT c = true.
Proof. intros. by apply bool_decide_eq_true_2. Qed.

Lemma Py_ISSPACE_digit c : is_digit_char c → Py_ISSPACE c = false.
Proof.
  unfold is_digit_char, Py_ISSPACE. intros.
  rewrite !bool_decide_eq_false_2 by lia. done.
Qed.

Lemma skip_spaces_cons c s :
  Py_ISSPACE c = false → skip_spaces (c :: s) = c :: s.
Proof. intros H. simpl. by rewrite H. Qed.

(** Scanning the digits of [n] reads [n]. *)
Lemma scan_digits_loop fuel n rest pu k :
  0 ≤ n < 2 ^ Z.of_nat (S fuel) →
  scan_digits (digits_loop (S fuel) n ++ rest) pu 0 k
  = scan_digits rest false n (k + length (digits_loop (S fuel) n)).
Proof.
  revert n rest pu k. induction fuel as [|fuel IH]; intros n rest pu k Hn.
  - change (2 ^ Z.of_nat 1) with 2 in Hn. simpl.
    rewrite decide_True by lia. simpl.
    rewrite Py_ISDIGIT_true by (unfold is_digit_char; lia).
    f_equal; lia.
  - remember (S fuel) as f eqn:Hf. simpl.
    destruct (decide (n < 10)) as [Hlt|Hge].
    + simpl. rewrite Py_ISDIGIT_true by (unfold is_digit_char; lia).
      f_equal; lia.
    + rewrite <-app_assoc. subst f. rewrite IH.
      2:{ rewrite Nat2Z.inj_succ, Z.pow_succ_r in Hn by lia.
          Z.div_mod_to_equations; lia. }
      simpl. rewrite Py_ISDIGIT_true
        by (unfold is_digit_char; Z.div_mod_to_equations; lia).
      rewrite length_app. simpl. f_equal; [|lia].
      Z.div_mod_to_equations; lia.
Qed.

Lemma log2_budget n : 0 ≤ n → 0 ≤ n < 2 ^ Z.of_nat (S (Z.to_nat (Z.log2 n))).
Proof.
  intros Hn. split; [done|].
  rewrite Nat2Z.inj_succ, Z2Nat.id by apply Z.log2_nonneg.
  destruct (decide (n = 0)) as [->|Hne]; [done|].
  apply Z.log2_spec. lia.
Qed.

Lemma decimal_string_chars z : Forall is_int_char (decimal_string z).
Proof.
  unfold decimal_string. case_decide.
  - constructor; [by left|].
    eapply Forall_impl; [apply digits_loop_digits; lia|]. by right.
  - eapply Forall_impl; [apply digits_loop_digits; lia|]. by right.
Qed.

Lemma decimal_string_nonneg n :
  0 ≤ n → decimal_string n = digits_loop (S (Z.to_nat (Z.log2 n))) n.
Proof. intros. unfold decimal_string. by rewrite decide_False by lia. Qed.

(** Reading the decimal text of [z] gives [z], unless the text has more
    digits than the limit. *)
Lemma PyLong_FromString_decimal_string z :
  PyLong_FromString (decimal_string z)
  = if decide (max_str_digits < length (decimal_string (Z.abs z)))%nat
    then Raise ValueError else Ok z.
Proof.
  rewrite (decimal_string_nonneg (Z.abs z)) by lia.
  unfold PyLong_FromString, decimal_string.
  assert (∀ n, 0 ≤ n →
     let ds := digits_loop (S (Z.to_nat (Z.log2 n))) n in
     ∃ d ds', ds = d :: ds' ∧ is_digit_char d
              ∧ scan_digits ds false 0 0 = Some (n, length ds, [])) as Hds.
  { intros n Hn ds.
    pose proof (digits_loop_nonempty (Z.to_nat (Z.log2 n)) n) as Hne.
    pose proof (digits_loop_digits (S (Z.to_nat (Z.log2 n))) n Hn) as Hall.
    pose proof (scan_digits_loop (Z.to_nat (Z.log2 n)) n [] false 0%nat
                  (log2_budget n Hn)) as Hscan.
    rewrite app_nil_r in Hscan. fold ds in Hne, Hall, Hscan.
    destruct ds as [|d ds']; [done|].
    apply Forall_cons in Hall as [Hd _]. eauto. }
  destruct (decide (z < 0)) as [Hneg|Hpos].
  - replace (Z.abs z) with (- z) by lia.
    destruct (Hds (- z)) as (d & ds' & Heq & Hd & Hscan); [lia|].
    cbn zeta in Heq, Hscan. rewrite Heq in *.
    rewrite skip_spaces_cons by done. unfold split_sign.
    rewrite decide_False by lia. rewrite decide_True by done.
    rewrite decide_False by (unfold is_digit_char in Hd; intros [= ?]; lia).
    rewrite Hscan. cbv beta iota.
    destruct (decide (max_str_digits < length (d :: ds'))%nat); [done|].
    rewrite decide_False by done. simpl. f_equal. lia.
  - replace (Z.abs z) with z by lia.
    destruct (Hds z) as (d & ds' & Heq & Hd & Hscan); [lia|].
    cbn zeta in Heq, Hscan. rewrite Heq in *.
    rewrite skip_spaces_cons by by apply Py_ISSPACE_digit.
    unfold is_digit_char in Hd. unfold split_sign.
    rewrite !decide_False by lia.
    rewrite decide_False by (intros [= ?]; lia).
    rewrite Hscan. cbv beta iota.
    destruct (decide (max_str_digits < length (d :: ds'))%nat); [done|].
    rewrite decide_False by done. simpl. f_equal. lia.
Qed.

Lemma PyLong_FromString_fits_decimal z :
  fits_digit_limit z → PyLong_FromString (decimal_string z) = Ok z.
Proof.
  intros Hfit. rewrite PyLong_FromString_decimal_string.
  apply decide_False. unfold fits_digit_limit in Hfit. lia.
Qed.

(** [str] writes the decimal text of exactly the integers within the
    limit. *)
Lemma py_str_int_fits z :
  fits_digit_limit z → py_str_int z = Ok (decimal_string z).
Proof.
  intros Hfit. unfold py_str_int. apply decide_False.
  unfold fits_digit_limit in Hfit. lia.
Qed.

Lemma py_str_int_Raise z :
  ¬ fits_digit_limit z → py_str_int z = Raise ValueError.
Proof.
  intros Hfit. unfold py_str_int. apply decide_True.
  unfold fits_digit_limit in Hfit. lia.
Qed.

Lemma py_str_int_Ok z s :
  py_str_int z = Ok s → fits_digit_limit z ∧ s = decimal_string z.
Proof.
  unfold py_str_int, fits_digit_limit. case_decide; [done|].
  intros [= <-]. split; [lia|done].
Qed.

(** The digits of a number below a power of ten. *)
Lemma digits_loop_length fuel n k :
  0 ≤ n < 2 ^ Z.of_nat (S fuel) → n < 10 ^ Z.of_nat (S k) →
  (length (digits_loop (S fuel) n) ≤ S k)%nat.
Proof.
  revert n k. induction fuel as [|fuel IH]; intros n k Hn Hk.
  - change (2 ^ Z.of_nat 1) with 2 in Hn. simpl.
    rewrite decide_True by lia. simpl. lia.
  - remember (S fuel) as f eqn:Hf. simpl.
    destruct (decide (n < 10)) as [Hlt|Hge]; [simpl; lia|].
    rewrite length_app. simpl. subst f.
    destruct k as [|k].
    { change (10 ^ Z.of_nat 1) with 10 in Hk. lia. }
    assert (length (digits_loop (S fuel) (n / 10)) ≤ S k)%nat; [|lia].
    apply IH.
    + rewrite Nat2Z.inj_succ, Z.pow_succ_r in Hn by lia.
      Z.div_mod_to_equations; lia.
    + rewrite (Nat2Z.inj_succ (S k)), Z.pow_succ_r in Hk by lia.
      Z.div_mod_to_equations; lia.
Qed.

Lemma digits_loop_length_lower fuel n k :
  0 ≤ n < 2 ^ Z.of_nat (S fuel) → 10 ^ Z.of_nat k ≤ n →
  (k < length (digits_loop (S fuel) n))%nat.
Proof.
  revert n k. induction fuel as [|fuel IH]; intros n k Hn Hk.
  - change (2 ^ Z.of_nat 1) with 2 in Hn. simpl.
    rewrite decide_True by lia. simpl.
    destruct k as [|k]; [lia|].
    rewrite Nat2Z.inj_succ, Z.pow_succ_r in Hk by lia.
    pose proof (Z.pow_pos_nonneg 10 (Z.of_nat k)). lia.
  - remember (S fuel) as f eqn:Hf. simpl.
    destruct (decide (n < 10)) as [Hlt|Hge].
    + simpl. destruct k as [|k]; [lia|].
      rewrite Nat2Z.inj_succ, Z.pow_succ_r in Hk by lia.
      pose proof (Z.pow_pos_nonneg 10 (Z.of_nat k)). lia.
    + rewrite length_app. simpl. subst f.
      destruct k as [|k]; [lia|].
      assert (k < length (digits_loop (S fuel) (n / 10)))%nat; [|lia].
      apply IH.
      * rewrite Nat2Z.inj_succ, Z.pow_succ_r in Hn by lia.
        Z.div_mod_to_equations; lia.
      * rewrite Nat2Z.inj_succ, Z.pow_succ_r in Hk by lia.
        Z.div_mod_to_equations; lia.
Qed.

(** The smallest number with one digit more than the limit allows. *)
Lemma power_exceeds_digit_limit :
  ¬ fits_digit_limit (10 ^ Z.of_nat max_str_digits).
Proof.
  unfold fits_digit_limit.
  pose proof (Z.pow_pos_nonneg 10 (Z.of_nat max_str_digits)) as Hpos.
  set (n := 10 ^ Z.of_nat max_str_digits) in *.
  replace (Z.abs n) with n by lia. rewrite decimal_string_nonneg by lia.
  pose proof (digits_loop_length_lower (Z.to_nat (Z.log2 n)) n max_str_digits
                (log2_budget n ltac:(lia)) ltac:(lia)).
  lia.
Qed.

Lemma scan_digits_bound s pu acc n v n' rest :
  scan_digits s pu acc n = Some (v, n', rest) →
  0 ≤ acc < 10 ^ Z.of_nat n → 0 ≤ v < 10 ^ Z.of_nat n'.
Proof.
  revert pu acc n. induction s as [|c s IH]; intros pu acc n; simpl.
  - destruct pu; [done|]. by intros [= <- <- <-].
  - destruct (Py_ISDIGIT c) eqn:Hc.
    + intros H Hacc. apply (IH _ _ _ H).
      apply bool_decide_eq_true in Hc.
      rewrite Nat2Z.inj_succ, Z.pow_succ_r by lia. lia.
    + destruct (decide (c = 95)) as [_|_].
      * destruct pu; [done|]. intros H Hacc. by apply (IH _ _ _ H).
      * destruct pu; [done|]. by intros [= <- <- <-].
Qed.

(** What [int] accepts is an integer within the limit. *)
Lemma PyLong_FromString_fits s z :
  PyLong_FromString s = Ok z → fits_digit_limit z.
Proof.
  unfold PyLong_FromString.
  destruct (split_sign (skip_spaces s)) as [sign s2] eqn:Hsign.
  assert (sign = 1 ∨ sign = -1) as Hsgn.
  { unfold split_sign in Hsign. destruct (skip_spaces s) as [|c t].
    - injection Hsign as <- _. by left.
    - repeat case_decide; injection Hsign as <- _; auto. }
  case_decide; [done|].
  destruct (scan_digits s2 false 0 0) as [[[v n] rest]|] eqn:Hscan; [|done].
  case_decide; [done|]. case_decide; [done|].
  destruct (skip_spaces rest); [|done]. intros [= <-].
  apply scan_digits_bound in Hscan as Hv; [|simpl; lia].
  unfold fits_digit_limit. replace (Z.abs (sign * v)) with v by lia.
  rewrite decimal_string_nonneg by lia.
  destruct n as [|k]; [done|].
  pose proof (digits_loop_length (Z.to_nat (Z.log2 v)) v k
                (log2_budget v (proj1 Hv)) (proj2 Hv)).
  lia.
Qed.

(** ** [split] *)

Lemma split_no_sep sep s : sep ∉ s → split sep s = [s].
Proof.
  induction s as [|c s IH]; [done|].
  rewrite not_elem_of_cons. intros [Hne Hnotin]. simpl.
  rewrite decide_False by done. by rewrite IH.
Qed.

Lemma split_app_sep sep a b :
  sep ∉ a → split sep (a ++ sep :: b) = a :: split sep b.
Proof.
  induction a as [|c a IH]; simpl.
  - intros _. by rewrite decide_True.
  - rewrite not_elem_of_cons. intros [Hne Hnotin].
    rewrite decide_False by done. by rewrite IH.
Qed.

Lemma decimal_string_no_comma z : 44 ∉ decimal_string z.
Proof.
  intros Hin. pose proof (decimal_string_chars z) as Hall.
  rewrite Forall_forall in Hall. specialize (Hall 44 Hin).
  unfold is_int_char, is_digit_char in Hall. lia.
Qed.

(** ** Keys of the persisted mapping *)

Section key_facts.
Context (isspace : Z → bool) (todecimal : Z → option Z).

Lemma transform_ascii s :
  Forall (λ c, c < 127) s →
  transform_decimal_and_space_to_ascii isspace todecimal s = s.
Proof.
  intros Hs. unfold transform_decimal_and_space_to_ascii.
  rewrite bool_decide_eq_true_2; [done|].
  eapply Forall_impl; [exact Hs|]. simpl. intros; lia.
Qed.

Lemma py_int_decimal_string z :
  fits_digit_limit z → py_int isspace todecimal (decimal_string z) = Ok z.
Proof.
  intros Hfit. unfold py_int. rewrite transform_ascii.
  - by apply PyLong_FromString_fits_decimal.
  - eapply Forall_impl; [apply decimal_string_chars|].
    unfold is_int_char, is_digit_char. intros; lia.
Qed.

Lemma py_int_fits s z :
  py_int isspace todecimal s = Ok z → fits_digit_limit z.
Proof. apply PyLong_FromString_fits. Qed.

(** The key of a pair is read back as the pair. *)
Lemma parse_key_key_text k :
  fits_digit_limit k.1 → fits_digit_limit k.2 →
  parse_key isspace todecimal (key_text k) = Ok k.
Proof.
  destruct k as [k1 k2]. unfold parse_key, key_text. simpl. intros H1 H2.
  rewrite split_app_sep by apply decimal_string_no_comma.
  rewrite split_no_sep by apply decimal_string_no_comma.
  by rewrite !py_int_decimal_string.
Qed.

Lemma key_text_inj k k' :
  fits_digit_limit k.1 → fits_digit_limit k.2 →
  fits_digit_limit k'.1 → fits_digit_limit k'.2 →
  key_text k = key_text k' → k = k'.
Proof using isspace todecimal.
  intros H1 H2 H1' H2' Heq. pose proof (parse_key_key_text k H1 H2) as Hk.
  rewrite Heq, parse_key_key_text in Hk by done. congruence.
Qed.

(** A key that can be parsed denotes integers within the limit. *)
Lemma parse_key_fits key k :
  parse_key isspace todecimal key = Ok k →
  fits_digit_limit k.1 ∧ fits_digit_limit k.2.
Proof.
  unfold parse_key.
  destruct (split 44 key) as [|a [|b [|c parts]]]; [done..| |done].
  intros H. apply obind_Ok in H as (k1 & H1 & H).
  apply obind_Ok in H as (k2 & H2 & [= <-]).
  split; by eapply py_int_fits.
Qed.

Lemma PyLong_FromString_outcome s :
  (∃ z, PyLong_FromString s = Ok z) ∨ PyLong_FromString s = Raise ValueError.
Proof.
  unfold PyLong_FromString. destruct (split_sign (skip_spaces s)) as [sign s2].
  case_decide; [by right|].
  destruct (scan_digits s2 false 0 0) as [[[v n] rest]|]; [|by right].
  case_decide; [by right|].
  case_decide; [by right|]. destruct (skip_spaces rest); eauto.
Qed.

Lemma parse_key_outcome key :
  (∃ k, parse_key isspace todecimal key = Ok k)
  ∨ parse_key isspace todecimal key = Raise ValueError.
Proof.
  unfold parse_key, py_int.
  destruct (split 44 key) as [|a [|b [|c parts]]]; [by right..| |by right].
  destruct (PyLong_FromString_outcome
              (transform_decimal_and_space_to_ascii isspace todecimal a))
    as [[k1 ->]| ->]; simpl; [|by right].
  destruct (PyLong_FromString_outcome
              (transform_decimal_and_space_to_ascii isspace todecimal b))
    as [[k2 ->]| ->]; simpl; eauto.
Qed.
End key_facts.

(** ** Saving and loading *)

Lemma format_key_fits k :
  fits_digit_limit k.1 → fits_digit_limit k.2 →
  format_key k = Ok (key_text k).
Proof.
  intros H1 H2. unfold format_key. by rewrite !py_str_int_fits.
Qed.

Lemma format_key_Ok k s :
  format_key k = Ok s →
  fits_digit_limit k.1 ∧ fits_digit_limit k.2 ∧ s = key_text k.
Proof.
  unfold format_key. intros H. apply obind_Ok in H as (s1 & H1 & H).
  apply obind_Ok in H as (s2 & H2 & [= <-]).
  apply py_str_int_Ok in H1 as [? ->], H2 as [? ->]. done.
Qed.

Lemma format_key_outcome k :
  (∃ s, format_key k = Ok s) ∨ format_key k = Raise ValueError.
Proof.
  unfold format_key, py_str_int. repeat case_decide; simpl; eauto.
Qed.

Lemma keys_fit_cons k v m :
  keys_fit ((k, v) :: m) ↔
  (fits_digit_limit k.1 ∧ fits_digit_limit k.2) ∧ keys_fit m.
Proof.
  unfold keys_fit. split.
  - intros H. split; [apply (H k v), list_elem_of_here|].
    intros k' v' Hin. apply (H k' v'). by apply list_elem_of_further.
  - intros [Hk Hm] k' v' Hin.
    apply elem_of_cons in Hin as [[= -> ->]|Hin]; [done|by eapply Hm].
Qed.

Lemma merges_json_loop_outcome m acc :
  (∃ d, merges_json_loop m acc = Ok d)
  ∨ merges_json_loop m acc = Raise ValueError.
Proof.
  revert acc. induction m as [|[k v] m IH]; intros acc; simpl; [eauto|].
  destruct (format_key_outcome k) as [[s ->]| ->]; simpl; [apply IH|by right].
Qed.

(** The comprehension writes every key exactly when every pair is made of
    integers within the limit. *)
Lemma merges_json_loop_Ok m acc d :
  merges_json_loop m acc = Ok d → keys_fit m.
Proof.
  revert acc. induction m as [|[k v] m IH]; intros acc; simpl.
  - intros _ k v Hin. by apply elem_of_nil in Hin.
  - intros H. apply obind_Ok in H as (s & Hs & H).
    apply format_key_Ok in Hs as (H1 & H2 & _).
    apply keys_fit_cons. split; [done|]. by eapply IH.
Qed.

Lemma merges_json_loop_fresh (m : merge_table) (acc : list (list Z * Z)) :
  keys_fit m → NoDup (acc.*1 ++ (key_text <$> m.*1)) →
  merges_json_loop m acc = Ok (acc ++ (persist_rule <$> m)).
Proof.
  revert acc. induction m as [|[k v] m IH]; intros acc Hfit Hnd; simpl.
  - by rewrite app_nil_r.
  - apply keys_fit_cons in Hfit as [[H1 H2] Hfit].
    rewrite format_key_fits by done. simpl. rewrite dict_set_fresh.
    + rewrite IH; [by rewrite <-app_assoc|done|].
      rewrite fmap_app. simpl. by rewrite <-app_assoc.
    + simpl in Hnd. apply NoDup_app in Hnd as (_ & Hdisj & _).
      intros Hin. apply (Hdisj _ Hin). apply list_elem_of_here.
Qed.

(** [int.__repr__] and [int] on the integers of a record. *)
Lemma dump_ints_fits zs : Forall fits_digit_limit zs → dump_ints zs = Ok tt.
Proof.
  induction 1 as [|z zs Hz _ IH]; simpl; [done|].
  by rewrite py_str_int_fits.
Qed.

Lemma dump_ints_Ok zs : dump_ints zs = Ok tt → Forall fits_digit_limit zs.
Proof.
  induction zs as [|z zs IH]; simpl; [constructor|].
  intros H. apply obind_Ok in H as (s & Hs & H).
  apply py_str_int_Ok in Hs as [Hz _]. constructor; auto.
Qed.

Lemma dump_ints_outcome zs :
  dump_ints zs = Ok tt ∨ dump_ints zs = Raise ValueError.
Proof.
  induction zs as [|z zs IH]; simpl; [by left|].
  unfold py_str_int. case_decide; simpl; [by right|done].
Qed.

Lemma load_ints_fits zs : Forall fits_digit_limit zs → load_ints zs = Ok tt.
Proof.
  induction 1 as [|z zs Hz _ IH]; simpl; [done|].
  by rewrite PyLong_FromString_fits_decimal.
Qed.

Lemma load_ints_Ok zs : load_ints zs = Ok tt → Forall fits_digit_limit zs.
Proof.
  induction zs as [|z zs IH]; simpl; [constructor|].
  intros H. apply obind_Ok in H as (z' & Hz & H).
  apply PyLong_FromString_fits in Hz as Hfit.
  rewrite PyLong_FromString_decimal_string in Hz.
  case_decide; [done|]. injection Hz as <-. constructor; auto.
Qed.

Lemma json_dump_fits data : record_fits_digit_limit data → json_dump data = Ok data.
Proof.
  intros (H1 & H2 & H3). unfold json_dump.
  by rewrite !dump_ints_fits.
Qed.

Lemma json_dump_Ok data d :
  json_dump data = Ok d → d = data ∧ record_fits_digit_limit data.
Proof.
  unfold json_dump. intros H.
  apply obind_Ok in H as ([] & H1 & H). apply obind_Ok in H as ([] & H2 & H).
  apply obind_Ok in H as ([] & H3 & [= <-]).
  split; [done|]. repeat split; by apply dump_ints_Ok.
Qed.

Lemma json_dump_outcome data :
  (json_dump data = Ok data ∧ record_fits_digit_limit data)
  ∨ (json_dump data = Raise ValueError ∧ ¬ record_fits_digit_limit data).
Proof.
  destruct (json_dump data) as [d| |] eqn:H.
  - apply json_dump_Ok in H as [-> ?]. by left.
  - right. unfold json_dump in H.
    assert (e = ValueError) as ->.
    { destruct (dump_ints_outcome (p_merges data).*2) as [H1|H1];
        rewrite H1 in H; simpl in H; [|congruence].
      destruct (dump_ints_outcome (option_list (p_vocab_size data)))
        as [H2|H2]; rewrite H2 in H; simpl in H; [|congruence].
      destruct (dump_ints_outcome (option_list (p_num_merges data)))
        as [H3|H3]; rewrite H3 in H; simpl in H; congruence. }
    split; [done|]. intros Hfit. apply json_dump_fits in Hfit.
    unfold json_dump in Hfit. congruence.
  - unfold json_dump in H.
    destruct (dump_ints_outcome (p_merges data).*2) as [H1|H1];
      rewrite H1 in H; simpl in H; [|done].
    destruct (dump_ints_outcome (option_list (p_vocab_size data)))
      as [H2|H2]; rewrite H2 in H; simpl in H; [|done].
    destruct (dump_ints_outcome (option_list (p_num_merges data)))
      as [H3|H3]; rewrite H3 in H; simpl in H; done.
Qed.

Lemma json_load_fits doc : record_fits_digit_limit doc → json_load doc = Ok doc.
Proof.
  intros (H1 & H2 & H3). unfold json_load.
  by rewrite !load_ints_fits.
Qed.

Lemma json_load_Ok doc data :
  json_load doc = Ok data → data = doc ∧ record_fits_digit_limit doc.
Proof.
  unfold json_load. intros H.
  apply obind_Ok in H as ([] & H1 & H). apply obind_Ok in H as ([] & H2 & H).
  apply obind_Ok in H as ([] & H3 & [= <-]).
  split; [done|]. repeat split; by apply load_ints_Ok.
Qed.

Ltac fits_tac :=
  unfold fits_digit_limit; apply Nat.leb_le; vm_compute; reflexivity.

Lemma py_sized_fits {A} (l : list A) :
  py_sized l → fits_digit_limit (Z.of_nat (length l)).
Proof.
  unfold py_sized, fits_digit_limit. intros Hl.
  set (n := Z.of_nat (length l)) in *.
  assert (0 ≤ n) as Hn by (unfold n; lia).
  replace (Z.abs n) with n by lia. rewrite decimal_string_nonneg by done.
  assert (2 ^ 63 < 10 ^ Z.of_nat 19) as Hpow by (vm_compute; reflexivity).
  pose proof (digits_loop_length (Z.to_nat (Z.log2 n)) n 18
                (log2_budget n Hn)) as Hlen.
  assert (19 ≤ max_str_digits)%nat by (unfold max_str_digits; lia).
  etrans; [apply Hlen; lia|done].
Qed.

Section load_facts.
Context (isspace : Z → bool) (todecimal : Z → option Z).

Lemma merges_json_wf (m : merge_table) :
  Dict.wf m → keys_fit m → merges_json m = Ok (persist_rule <$> m).
Proof using isspace todecimal.
  intros Hwf Hfit. unfold merges_json, Dict.items.
  rewrite merges_json_loop_fresh; [done..|]. simpl.
  apply NoDup_fmap_2_strong; [|exact Hwf].
  intros k k' Hk Hk' Heq.
  apply list_elem_of_fmap in Hk as ([k0 v] & -> & Hk).
  apply list_elem_of_fmap in Hk' as ([k0' v'] & -> & Hk').
  destruct (Hfit _ _ Hk), (Hfit _ _ Hk').
  by apply (key_text_inj isspace todecimal).
Qed.



(** Loading what [save] wrote rebuilds the table rule by rule. *)
Lemma load_loop_persisted (m acc : merge_table) :
  keys_fit m → NoDup (acc.*1 ++ m.*1) →
  load_loop isspace todecimal (persist_rule <$> m) acc = Ok (acc ++ m).
Proof.
  revert acc. induction m as [|[k v] m IH]; intros acc Hfit Hnd; simpl.
  - by rewrite app_nil_r.
  - apply keys_fit_cons in Hfit as [[H1 H2] Hfit].
    rewrite parse_key_key_text by done. simpl. rewrite dict_set_fresh.
    + rewrite IH; [by rewrite <-app_assoc|done|].
      rewrite fmap_app. simpl. by rewrite <-app_assoc.
    + simpl in Hnd. apply NoDup_app in Hnd as (_ & Hdisj & _).
      intros Hin. apply (Hdisj _ Hin). apply list_elem_of_here.
Qed.

Lemma load_loop_outcome entries acc :
  (∃ m, load_loop isspace todecimal entries acc = Ok m)
  ∨ load_loop isspace todecimal entries acc = Raise ValueError.
Proof.
  revert acc. induction entries as [|[key value] entries IH]; intros acc.
  - left. by exists acc.
  - simpl. destruct (parse_key_outcome isspace todecimal key) as [[k ->]| ->].
    + apply IH.
    + by right.
Qed.

Lemma load_loop_Ok_iff entries acc :
  (∃ m, load_loop isspace todecimal entries acc = Ok m) ↔
  (∀ key v, (key, v) ∈ entries → ∃ k, parse_key isspace todecimal key = Ok k).
Proof.
  revert acc. induction entries as [|[key value] entries IH]; intros acc.
  - split; [|by exists acc]. intros _ key v Hin. by apply elem_of_nil in Hin.
  - simpl. split.
    + intros [m Hm] key' v' Hin.
      apply obind_Ok in Hm as (k & Hk & Hm).
      apply elem_of_cons in Hin as [[= -> ->]|Hin]; [eauto|].
      eapply IH; eauto.
    + intros Hall. destruct (Hall key value) as [k Hk];
        [apply list_elem_of_here|].
      rewrite Hk. simpl. apply IH. intros key' v' Hin.
      eapply Hall. by apply list_elem_of_further.
Qed.

Lemma load_loop_Raise_iff entries acc :
  load_loop isspace todecimal entries acc = Raise ValueError ↔
  (∃ key v, (key, v) ∈ entries
            ∧ parse_key isspace todecimal key = Raise ValueError).
Proof.
  revert acc. induction entries as [|[key value] entries IH]; intros acc.
  - simpl. split; [done|]. intros (key & v & Hin & _).
    by apply elem_of_nil in Hin.
  - simpl. destruct (parse_key_outcome isspace todecimal key) as [[k Hk]|Hk];
      rewrite Hk; simpl.
    + rewrite IH. split.
      * intros (key' & v' & Hin & Hp). exists key', v'.
        split; [by apply list_elem_of_further|done].
      * intros (key' & v' & Hin & Hp).
        apply elem_of_cons in Hin as [[= -> ->]|Hin]; [congruence|eauto].
    + split; [|done]. intros _. exists key, value.
      split; [apply list_elem_of_here|done].
Qed.

Lemma load_loop_wf entries acc m :
  load_loop isspace todecimal entries acc = Ok m → Dict.wf acc → Dict.wf m.
Proof.
  revert acc. induction entries as [|[key value] entries IH]; intros acc.
  - simpl. by intros [= <-].
  - simpl. intros H Hwf. apply obind_Ok in H as (k & _ & H).
    eapply IH; [exact H|]. by apply dict_set_wf.
Qed.


Lemma init_outcome m vs :
  (∃ self, __init__ m vs = Ok self)
  ∨ (∃ o, __init__ m vs = Raise (KeyError (KeyInt o))).
Proof.
  unfold __init__, _build_vocab. simpl.
  destruct (build_vocab_map_outcome m) as [[v ->]|[o ->]]; simpl; eauto.
Qed.

Lemma init_Ok_iff m vs :
  (∃ self, __init__ m vs = Ok self) ↔ references_in_order m.
Proof.
  rewrite <-build_vocab_map_Ok_iff. split.
  - intros [self H]. apply init_Ok in H as (v & Hv & _). eauto.
  - intros [v Hv]. eexists. apply init_Ok. eauto.
Qed.
End load_facts.

Lemma outcome_Ok_of_bind {A} (m : outcome A) :
  (_ ←? m; Ok tt) = Ok tt → ∃ a, m = Ok a.
Proof. destruct m; [eauto|done..]. Qed.

(** ** What [save] writes *)

Lemma table_fits_iff m :
  table_fits_digit_limit m ↔ keys_fit m ∧ Forall fits_digit_limit m.*2.
Proof.
  unfold table_fits_digit_limit, keys_fit. rewrite Forall_forall. split.
  - intros H. split.
    + intros [l r] v Hin. destruct (H l r v Hin) as (? & ? & ?). done.
    + intros res Hin. apply list_elem_of_fmap in Hin as ([[l r] v] & -> & Hin).
      by destruct (H l r v Hin) as (? & ? & ?).
  - intros [Hk Hv] l r res Hin. destruct (Hk (l, r) res Hin).
    split; [done|]. split; [done|]. apply Hv.
    apply list_elem_of_fmap. by exists ((l, r), res).
Qed.

Lemma persist_rule_values m : (persist_rule <$> m).*2 = m.*2.
Proof. induction m as [|[k v] m IH]; csimpl; [done|]. by rewrite IH. Qed.

Section save_facts.
Context (isspace : Z → bool) (todecimal : Z → option Z).

(** The record of a dictionary whose integers are all within the limit
    reaches the file as it is. *)
Lemma json_dump_persisted m vs ds :
  py_sized m → table_fits_digit_limit m → fits_digit_limit vs →
  json_dump (mkPersisted (persist_rule <$> m) (Some vs)
               (Some (Z.of_nat (length m))) ds)
  = Ok (mkPersisted (persist_rule <$> m) (Some vs)
          (Some (Z.of_nat (length m))) ds).
Proof.
  intros Hsized Hfit Hvs. apply json_dump_fits.
  apply table_fits_iff in Hfit as [_ Hvals].
  split; [|split]; simpl.
  - by rewrite persist_rule_values.
  - by apply Forall_singleton.
  - by apply Forall_singleton, py_sized_fits.
Qed.

Lemma json_dump_refuses m vs ds :
  ¬ (Forall fits_digit_limit m.*2 ∧ fits_digit_limit vs) →
  json_dump (mkPersisted (persist_rule <$> m) (Some vs)
               (Some (Z.of_nat (length m))) ds)
  = Raise ValueError.
Proof.
  intros Hnot.
  destruct (json_dump_outcome
              (mkPersisted (persist_rule <$> m) (Some vs)
                 (Some (Z.of_nat (length m))) ds))
    as [[_ (H1 & H2 & _)]|[H _]]; [|done].
  destruct Hnot. cbn [p_merges p_vocab_size] in H1, H2.
  rewrite persist_rule_values in H1.
  split; [done|]. simpl in H2. exact (Forall_inv H2).
Qed.

Lemma save_fits (self : BPEEncoder) :
  Dict.wf (merges self) → py_sized (merges self) →
  table_fits_digit_limit (merges self) → fits_digit_limit (vocab_size self) →
  save self
  = Ok (mkPersisted (persist_rule <$> merges self) (Some (vocab_size self))
          (Some (Z.of_nat (length (merges self)))) None).
Proof using isspace todecimal.
  intros Hwf Hsized Hfit Hvs. unfold save.
  rewrite (merges_json_wf isspace todecimal) by
    (try done; by apply table_fits_iff in Hfit as [? _]).
  simpl. by apply json_dump_persisted.
Qed.

Lemma save_refuses (self : BPEEncoder) :
  Dict.wf (merges self) →
  ¬ (table_fits_digit_limit (merges self)
     ∧ fits_digit_limit (vocab_size self)) →
  save self = Raise ValueError.
Proof using isspace todecimal.
  intros Hwf Hnot. unfold save, merges_json, Dict.items.
  destruct (merges_json_loop_outcome (merges self) []) as [[d Hd]|Hd];
    rewrite Hd; [|done].
  apply merges_json_loop_Ok in Hd as Hkeys.
  pose proof (merges_json_wf isspace todecimal _ Hwf Hkeys) as Hd'.
  unfold merges_json, Dict.items in Hd'. rewrite Hd in Hd'.
  injection Hd' as ->. simpl. apply json_dump_refuses.
  intros [Hvals Hvs]. apply Hnot. split; [|done].
  by apply table_fits_iff.
Qed.
End save_facts.

(** C7 (amended).  For a dictionary held by a constructed encoder: when
    every operand, every result and the vocabulary size have at most 4300
    decimal digits, [save] writes one entry per rule, its key the two
    integers in decimal separated by a comma and nothing else, and the
    number of rules as [num_merges]; what it wrote can be read, and loading
    it yields the same table, rule for rule, and with it the same encoder.
    When one of these integers has more digits, [save] raises
    [ValueError]. *)
Theorem save_then_load_round_trip (isspace : Z → bool)
    (todecimal : Z → option Z) (m : merge_table) (vs : Z)
    (self : BPEEncoder) :
  Dict.wf m → py_sized m → __init__ m vs = Ok self →
  (table_fits_digit_limit m ∧ fits_digit_limit vs →
   ∃ data, save self = Ok data
     ∧ p_merges data = persist_rule <$> m
     ∧ (∀ key v, (key, v) ∈ p_merges data →
                 Forall (λ c, c = 44 ∨ is_int_char c) key)
     ∧ p_num_merges data = Some (Z.of_nat (length m))
     ∧ json_load data = Ok data
     ∧ load_loop isspace todecimal (p_merges data) [] = Ok m
     ∧ from_file isspace todecimal data = Ok self)
  ∧ (¬ (table_fits_digit_limit m ∧ fits_digit_limit vs) →
     save self = Raise ValueError).
Proof.
  intros Hwf Hsized Hinit. pose proof Hinit as Hinit'.
  apply init_Ok in Hinit' as (v & Hv & ->).
  split.
  2:{ intros Hnot.
      by apply (save_refuses isspace todecimal (mkBPEEncoder m vs (Some v))). }
  intros [Hfit Hvs]. eexists. split.
  { by apply (save_fits isspace todecimal (mkBPEEncoder m vs (Some v))). }
  simpl.
  assert (load_loop isspace todecimal (persist_rule <$> m) [] = Ok m) as Hload.
  { apply (load_loop_persisted isspace todecimal m []); [|done].
    by apply table_fits_iff in Hfit as [? _]. }
  split; [done|]. split.
  { intros key value Hin.
    apply list_elem_of_fmap in Hin as ([k v'] & [= -> ->] & _).
    unfold key_text. simpl. rewrite Forall_app, Forall_cons.
    split; [|split].
    + eapply Forall_impl; [apply decimal_string_chars|]. by right.
    + by left.
    + eapply Forall_impl; [apply decimal_string_chars|]. by right. }
  split; [done|]. split.
  { apply json_load_fits. apply table_fits_iff in Hfit as [_ Hvals].
    split; [|split]; simpl.
    - by rewrite persist_rule_values.
    - by apply Forall_singleton.
    - by apply Forall_singleton, py_sized_fits. }
  split; [done|].
  unfold from_file. simpl. rewrite Hload. simpl. exact Hinit.
Qed.

Lemma hi_merges_fits : table_fits_digit_limit hi_merges.
Proof. intros l r res H. elem_cases H. repeat split; fits_tac. Qed.

Lemma hi_merges_sized : py_sized hi_merges.
Proof. unfold py_sized. vm_compute. reflexivity. Qed.

Lemma save_then_load_round_trip_witness :
  ∃ self data,
    __init__ hi_merges 5000 = Ok self
    ∧ save self = Ok data
    ∧ from_file ascii_isspace ascii_todecimal data = Ok self.
Proof.
  assert (fits_digit_limit 5000) as Hvs by fits_tac.
  destruct hi_init as (v & _ & Hinit).
  destruct (proj1 (save_then_load_round_trip ascii_isspace ascii_todecimal
                     hi_merges 5000 _ (NoDup_singleton _) hi_merges_sized
                     Hinit) (conj hi_merges_fits Hvs))
    as (data & Hsave & _ & _ & _ & _ & _ & Hload).
  eexists _, data. split; [exact Hinit|]. split; [exact Hsave|exact Hload].
Defined.

(** C7 as stated fails: the table [{(1, 2): 10 ** 4300}] has pairs of
    integers as keys, a result above 255 and operands that are bytes, and
    an encoder is constructed from it; yet [save] raises [ValueError],
    because the result has 4301 decimal digits. *)
Lemma save_raises_beyond_digit_limit :
  Dict.wf long_result_merges
  ∧ py_sized long_result_merges
  ∧ results_above_bytes long_result_merges
  ∧ results_distinct long_result_merges
  ∧ references_defined long_result_merges
  ∧ ∃ self, __init__ long_result_merges 5000 = Ok self
            ∧ save self = Raise ValueError.
Proof.
  assert (references_defined long_result_merges) as Hrefs.
  { intros l r res H o Ho. elem_cases H. left.
    destruct Ho as [->| ->]; clear; lia. }
  split; [apply NoDup_singleton|].
  split; [unfold py_sized; vm_compute; reflexivity|].
  split.
  { intros k res H. elem_cases H.
    apply Z.lt_le_trans with (10 ^ 3); [clear; vm_compute; reflexivity|].
    apply Z.pow_le_mono_r; clear; lia. }
  split; [apply NoDup_singleton|]. split; [done|].
  destruct (proj2 (build_vocab_map_Ok_iff long_result_merges)) as [v Hv].
  { by apply references_defined_in_order. }
  exists (mkBPEEncoder long_result_merges 5000 (Some v)).
  split; [apply init_Ok; eauto|].
  apply (save_refuses ascii_isspace ascii_todecimal); [apply NoDup_singleton|].
  intros [Hfit _].
  destruct (Hfit 1 2 (10 ^ 4300)) as (_ & _ & Hres); [apply list_elem_of_here|].
  by apply power_exceeds_digit_limit.
Qed.





(** C2 (amended).  Loading a persisted record whose merges field maps
    strings to integers raises [ValueError] exactly when some key cannot be
    parsed into two integers.  When all keys can be parsed, loading
    succeeds exactly when every rule of the table read, taken in ascending
    result order, has operands that are base bytes or results of rules
    before it, and raises [KeyError] otherwise.  Results that occur twice
    or are at most 255 are accepted. *)
Theorem from_file_outcome (isspace : Z → bool) (todecimal : Z → option Z)
    (data : persisted) :
  (from_file isspace todecimal data = Raise ValueError ↔
     ∃ key v, (key, v) ∈ p_merges data
              ∧ parse_key isspace todecimal key = Raise ValueError)
  ∧ ((∃ m, load_loop isspace todecimal (p_merges data) [] = Ok m) ↔
     ∀ key v, (key, v) ∈ p_merges data →
              ∃ k, parse_key isspace todecimal key = Ok k)
  ∧ ((∃ self, from_file isspace todecimal data = Ok self) ↔
     ∃ m, load_loop isspace todecimal (p_merges data) [] = Ok m
          ∧ references_in_order m)
  ∧ (∀ e, from_file isspace todecimal data = Raise e →
          e = ValueError ∨ ∃ o, e = KeyError (KeyInt o))
  ∧ from_file isspace todecimal data ≠ OutOfFuel.
Proof.
  unfold from_file.
  pose proof (load_loop_Raise_iff isspace todecimal (p_merges data) [])
    as Hraise.
  pose proof (load_loop_Ok_iff isspace todecimal (p_merges data) [])
    as Hparsed.
  destruct (load_loop_outcome isspace todecimal (p_merges data) [])
    as [[m Hm]|Hm]; rewrite Hm in *; simpl.
  - destruct (init_outcome m (default 5000 (p_vocab_size data)))
      as [[self Hinit]|[o Hinit]]; rewrite Hinit.
    + assert (references_in_order m) as Hrefs.
      { eapply init_Ok_iff. eauto. }
      split; [by rewrite <-Hraise|]. split; [exact Hparsed|].
      split; [split; eauto|]. split; [done|done].
    + assert (¬ references_in_order m) as Hrefs.
      { intros Hrefs. eapply init_Ok_iff in Hrefs as [self Hself].
        rewrite Hinit in Hself. discriminate. }
      split; [by rewrite <-Hraise|]. split; [exact Hparsed|]. split.
      * split; [by intros [? ?]|]. intros (m' & [= <-] & ?). done.
      * split; [|done]. intros e [= <-]. eauto.
  - split; [by rewrite <-Hraise|]. split; [exact Hparsed|].
    split; [split; [by intros [? ?]|by intros (? & ? & _)]|].
    split; [|done]. intros e [= <-]. by left.
Qed.

Lemma from_file_outcome_witness :
  from_file ascii_isspace ascii_todecimal malformed_data = Raise ValueError.
Proof.
  apply (proj1 (from_file_outcome ascii_isspace ascii_todecimal
                  malformed_data)).
  exists [49; 59; 50], 256. split; [apply list_elem_of_here|].
  vm_compute. reflexivity.
Defined.

(** C2 as stated fails in both directions: a result of 65 and a result
    that occurs twice are loaded without complaint, and a table with none
    of the three defects, whose only rule refers to identifiers that
    nothing defines, is refused with a [KeyError]. *)
Lemma from_file_ignores_result_defects :
  (load_refusal_claimed ascii_isspace ascii_todecimal byte_result_data
   ∧ ∃ self, from_file ascii_isspace ascii_todecimal byte_result_data
             = Ok self)
  ∧ (load_refusal_claimed ascii_isspace ascii_todecimal shared_result_data
     ∧ ∃ self, from_file ascii_isspace ascii_todecimal shared_result_data
               = Ok self)
  ∧ (¬ load_refusal_claimed ascii_isspace ascii_todecimal dangling_data
     ∧ from_file ascii_isspace ascii_todecimal dangling_data
       = Raise (KeyError (KeyInt 300))).
Proof.
  split; [|split].
  - split.
    + right. right. exists [49; 44; 50], 65.
      split; [apply list_elem_of_here|lia].
    + apply outcome_Ok_of_bind. vm_compute. reflexivity.
  - split.
    + right. left. intros Hnd. simpl in Hnd.
      apply NoDup_cons in Hnd as [Hnotin _]. apply Hnotin.
      apply list_elem_of_here.
    + apply outcome_Ok_of_bind. vm_compute. reflexivity.
  - split; [|vm_compute; reflexivity].
    intros [(key & v & Hin & Hparse)|[Hdup|(key & v & Hin & Hle)]].
    + simpl in Hin. elem_cases Hin. vm_compute in Hparse. discriminate.
    + apply Hdup. simpl. apply NoDup_singleton.
    + simpl in Hin. elem_cases Hin. lia.
Qed.

(** * Further properties of the code *)

(** ** [_get_stats] *)

Lemma count_pairs_get pairs counts p :
  Dict.get (fold_left count_pair pairs counts) p
  = let c := length (filter (λ q, q = p) pairs) in
    if decide (c = 0%nat) then Dict.get counts p
    else Some (default 0 (Dict.get counts p) + Z.of_nat c).
Proof.
  revert counts. induction pairs as [|q pairs IH]; intros counts; [done|].
  cbn [fold_left]. rewrite IH. clear IH. unfold count_pair. cbn zeta.
  destruct (decide (q = p)) as [->|Hne].
  - rewrite filter_cons_True by done. rewrite dict_get_set_eq.
    cbn [length]. set (c := length (filter (λ q, q = p) pairs)).
    destruct (decide (S c = 0%nat)) as [?|_]; [lia|].
    destruct (decide (c = 0%nat)) as [->|?]; simpl; f_equal; lia.
  - rewrite filter_cons_False by done. by rewrite dict_get_set_ne.
Qed.

Lemma count_pairs_wf pairs counts :
  Dict.wf counts → Dict.wf (fold_left count_pair pairs counts).
Proof.
  revert counts. induction pairs as [|q pairs IH]; intros counts Hwf; [done|].
  simpl. apply IH. by apply dict_set_wf.
Qed.

Lemma dict_set_sum (counts : list ((Z * Z) * Z)) p x :
  foldr Z.add 0 (Dict.set counts p x).*2
  = foldr Z.add 0 counts.*2 - default 0 (Dict.get counts p) + x.
Proof.
  induction counts as [|[k v] counts IH]; csimpl; [lia|].
  destruct (decide (p = k)) as [->|Hne]; csimpl; [lia|].
  rewrite IH. lia.
Qed.

Lemma count_pair_sum counts p :
  foldr Z.add 0 (count_pair counts p).*2 = foldr Z.add 0 counts.*2 + 1.
Proof. unfold count_pair. rewrite dict_set_sum. lia. Qed.

Lemma count_pairs_sum pairs counts :
  foldr Z.add 0 (fold_left count_pair pairs counts).*2
  = foldr Z.add 0 counts.*2 + Z.of_nat (length pairs).
Proof.
  revert counts. induction pairs as [|q pairs IH]; intros counts.
  - simpl. lia.
  - cbn [fold_left length]. rewrite IH, count_pair_sum. lia.
Qed.

Lemma occurrences_zip ids p :
  occurrences ids p = length (filter (λ q, q = p) (zip ids (drop 1 ids))).
Proof.
  induction ids as [|a ids IH]; [done|].
  destruct ids as [|b ids]; [done|].
  change (occurrences (a :: b :: ids) p)
    with ((if decide ((a, b) = p) then 1 else 0)
          + occurrences (b :: ids) p)%nat.
  rewrite IH.
  change (zip (a :: b :: ids) (drop 1 (a :: b :: ids)))
    with ((a, b) :: zip (b :: ids) (drop 1 (b :: ids))).
  case_decide.
  - by rewrite filter_cons_True.
  - by rewrite filter_cons_False.
Qed.

(** X1.  [_get_stats] returns a dictionary with one entry per pair that
    occurs at neighbouring positions of [ids]; the entry holds the number
    of positions at which the pair occurs, and a pair that occurs nowhere
    has no entry. *)
Theorem get_stats_counts_occurrences (ids : list Z) :
  Dict.wf (_get_stats ids)
  ∧ ∀ p, Dict.get (_get_stats ids) p
         = if decide (occurrences ids p = 0%nat) then None
           else Some (Z.of_nat (occurrences ids p)).
Proof.
  split.
  - apply count_pairs_wf, NoDup_nil_2.
  - intros p. unfold _get_stats. rewrite count_pairs_get, <-occurrences_zip.
    cbn zeta. case_decide; [done|]. simpl. f_equal; lia.
Qed.

(** X2.  The counts that [_get_stats] returns add up to the number of
    neighbouring positions: [len(ids) - 1], and 0 for an empty [ids]. *)
Theorem get_stats_counts_sum (ids : list Z) :
  foldr Z.add 0 (_get_stats ids).*2 = Z.of_nat (length ids - 1).
Proof.
  unfold _get_stats. rewrite count_pairs_sum. simpl.
  rewrite length_zip_with, length_drop. lia.
Qed.

(** ** [_merge] *)

Lemma replace_scan_at_least_half ids pair idx :
  (length ids ≤ 2 * length (replace_scan ids pair idx))%nat.
Proof.
  induction ids as [|a|a b rest IH1 IH2] using list_pair_ind;
    [simpl; lia..|].
  change (replace_scan (a :: b :: rest) pair idx)
    with (if decide (a = pair.1 ∧ b = pair.2)
          then idx :: replace_scan rest pair idx
          else a :: replace_scan (b :: rest) pair idx).
  case_decide; simpl in *; lia.
Qed.

Lemma replace_scan_absent ids pair idx :
  ¬ adjacent ids pair → replace_scan ids pair idx = ids.
Proof.
  induction ids as [|a|a b rest IH1 IH2] using list_pair_ind; [done..|].
  intros Hno.
  change (replace_scan (a :: b :: rest) pair idx)
    with (if decide (a = pair.1 ∧ b = pair.2)
          then idx :: replace_scan rest pair idx
          else a :: replace_scan (b :: rest) pair idx).
  case_decide as Hc.
  - destruct Hc as [-> ->]. exfalso. apply Hno. by exists 0%nat.
  - f_equal. apply IH2. intros Hadj. apply Hno. apply adjacent_cons. by right.
Qed.

Lemma adjacent_dec ids pair : Decision (adjacent ids pair).
Proof.
  destruct (decide (pair ∈ zip ids (drop 1 ids))) as [Hin|Hnotin].
  - left. by apply adjacent_zip.
  - right. by rewrite adjacent_zip.
Defined.

Lemma replace_scan_head b rest pair idx :
  head (replace_scan (b :: rest) pair idx) = Some b
  ∨ head (replace_scan (b :: rest) pair idx) = Some idx.
Proof.
  destruct rest as [|c rest]; [by left|].
  change (replace_scan (b :: c :: rest) pair idx)
    with (if decide (b = pair.1 ∧ c = pair.2)
          then idx :: replace_scan rest pair idx
          else b :: replace_scan (c :: rest) pair idx).
  case_decide; [by right|by left].
Qed.

Lemma replace_scan_removes ids pair idx :
  idx ≠ pair.1 → idx ≠ pair.2 → ¬ adjacent (replace_scan ids pair idx) pair.
Proof.
  intros Hne1 Hne2.
  induction ids as [|a|a b rest IH1 IH2] using list_pair_ind.
  - apply adjacent_nil.
  - apply adjacent_singleton.
  - change (replace_scan (a :: b :: rest) pair idx)
      with (if decide (a = pair.1 ∧ b = pair.2)
            then idx :: replace_scan rest pair idx
            else a :: replace_scan (b :: rest) pair idx).
    case_decide as Hc; rewrite adjacent_cons; intros [(_ & Ha & Hhd)|Hadj];
      [done|done| |done].
    destruct (replace_scan_head b rest pair idx) as [Hb|Hb];
      rewrite Hb in Hhd; injection Hhd as Hhd; [|done].
    apply Hc. by split.
Qed.

Lemma replace_scan_expand ids pair idx :
  idx ∉ ids → expand (replace_scan ids pair idx) pair idx = ids.
Proof.
  unfold expand.
  induction ids as [|a|a b rest IH1 IH2] using list_pair_ind.
  - done.
  - rewrite not_elem_of_cons. intros [Hne _]. simpl.
    by rewrite decide_False.
  - intros Hnotin.
    change (replace_scan (a :: b :: rest) pair idx)
      with (if decide (a = pair.1 ∧ b = pair.2)
            then idx :: replace_scan rest pair idx
            else a :: replace_scan (b :: rest) pair idx).
    apply not_elem_of_cons in Hnotin as [Hnea Hnotin].
    case_decide as Hc.
    + destruct Hc as [-> ->]. apply not_elem_of_cons in Hnotin as [_ Hnotin].
      cbn [mbind list_bind]. rewrite decide_True by done.
      rewrite (IH1 Hnotin). done.
    + cbn [mbind list_bind]. rewrite decide_False by done.
      rewrite (IH2 Hnotin). done.
Qed.

Lemma replace_scan_elements ids pair idx t :
  t ∈ replace_scan ids pair idx → t ∈ ids ∨ t = idx.
Proof.
  induction ids as [|a|a b rest IH1 IH2] using list_pair_ind; [by left..|].
  change (replace_scan (a :: b :: rest) pair idx)
    with (if decide (a = pair.1 ∧ b = pair.2)
          then idx :: replace_scan rest pair idx
          else a :: replace_scan (b :: rest) pair idx).
  case_decide; rewrite elem_of_cons; intros [->|Hin].
  - by right.
  - destruct (IH1 Hin) as [?|?]; [left|by right].
    by do 2 apply list_elem_of_further.
  - left. apply list_elem_of_here.
  - destruct (IH2 Hin) as [?|?]; [left|by right].
    by apply list_elem_of_further.
Qed.

(** X3.  [_merge] always returns a list; it is never longer than [ids]
    and never shorter than half of it; it is shorter than [ids] exactly
    when the pair occurs at neighbouring positions, and equal to [ids]
    exactly when it does not. *)
Theorem merge_length_bounds (ids : list Z) (pair : Z * Z) (idx : Z) :
  ∃ newids, _merge ids pair idx = Ok newids
    ∧ (length newids ≤ length ids)%nat
    ∧ (length ids ≤ 2 * length newids)%nat
    ∧ ((length newids < length ids)%nat ↔ adjacent ids pair)
    ∧ (newids = ids ↔ ¬ adjacent ids pair).
Proof.
  exists (replace_scan ids pair idx). split; [apply _merge_scan|].
  split; [apply replace_scan_length|].
  split; [apply replace_scan_at_least_half|].
  destruct (adjacent_dec ids pair) as [Hadj|Hno].
  - pose proof (replace_scan_shrinks ids pair idx Hadj) as Hlt. split.
    + done.
    + split; [|done]. intros Heq. rewrite Heq in Hlt. lia.
  - rewrite (replace_scan_absent ids pair idx Hno). split; [|done].
    split; [lia|done].
Qed.

(** X4.  When the new id differs from both members of the pair, the list
    that [_merge] returns has no occurrence of the pair left. *)
Theorem merge_removes_pair (ids : list Z) (pair : Z * Z) (idx : Z) :
  idx ≠ pair.1 → idx ≠ pair.2 →
  ∃ newids, _merge ids pair idx = Ok newids ∧ ¬ adjacent newids pair.
Proof.
  intros Hne1 Hne2. exists (replace_scan ids pair idx).
  split; [apply _merge_scan|]. by apply replace_scan_removes.
Qed.

Lemma merge_removes_pair_witness :
  ∃ newids, _merge [104; 104; 105; 105; 104; 105] (104, 105) 256 = Ok newids
            ∧ ¬ adjacent newids (104, 105).
Proof.
  apply (merge_removes_pair [104; 104; 105; 105; 104; 105] (104, 105) 256);
    simpl; lia.
Defined.

(** X5.  [_merge] loses nothing: when the new id does not occur in [ids],
    writing the pair back for every new id in the result gives [ids]. *)
Theorem merge_expand_round_trip (ids : list Z) (pair : Z * Z) (idx : Z) :
  idx ∉ ids →
  ∃ newids, _merge ids pair idx = Ok newids ∧ expand newids pair idx = ids.
Proof.
  intros Hnotin. exists (replace_scan ids pair idx).
  split; [apply _merge_scan|]. by apply replace_scan_expand.
Qed.

Lemma merge_expand_round_trip_witness :
  ∃ newids, _merge [104; 105; 33; 104; 105] (104, 105) 256 = Ok newids
            ∧ expand newids (104, 105) 256 = [104; 105; 33; 104; 105].
Proof.
  apply (merge_expand_round_trip [104; 105; 33; 104; 105] (104, 105) 256).
  intros Hin. elem_cases Hin.
Defined.

(** ** [encode] *)

Lemma encode_loop_result fuel m tokens r :
  encode_loop fuel m tokens = Ok r →
  (length r ≤ length tokens)%nat
  ∧ (tokens ≠ [] → r ≠ [])
  ∧ (∀ t, t ∈ r → t ∈ tokens ∨ t ∈ m.*2)
  ∧ ((length r < 2)%nat ∨ ∀ p, adjacent r p → Dict.get m p = None).
Proof.
  revert tokens. induction fuel as [|fuel IH]; intros tokens; simpl.
  - case_decide; [done|]. intros [= <-].
    split; [done|]. split; [done|]. split; [by left|]. left. lia.
  - case_decide as Hlen.
    2:{ intros [= <-]. split; [done|]. split; [done|]. split; [by left|].
        left. lia. }
    destruct (encode_body_cases m tokens Hlen)
      as [[Hbody Hnone]|(pair & idx & Hadj & Hget & _ & Hbody)];
      rewrite Hbody; simpl.
    + intros [= <-]. split; [done|]. split; [done|]. split; [by left|].
      by right.
    + intros Hloop. destruct (IH _ Hloop) as (Hle & Hne & Helem & Hfix).
      pose proof (replace_scan_length tokens pair idx).
      pose proof (replace_scan_at_least_half tokens pair idx).
      split; [lia|]. split; [|split; [|done]].
      * intros _. apply Hne. intros Heq. rewrite Heq in *. simpl in *. lia.
      * intros t Ht. destruct (Helem t Ht) as [Hin|Hin]; [|by right].
        apply replace_scan_elements in Hin as [Hin| ->]; [by left|].
        right. apply dict_get_Some_elem in Hget.
        apply list_elem_of_fmap. by exists (pair, idx).
Qed.

Lemma utf8_encode_char_nonempty ch b : utf8_encode_char ch = Ok b → b ≠ [].
Proof.
  unfold utf8_encode_char. destruct (is_surrogate ch);
    repeat case_decide; intros [= <-]; done.
Qed.

Lemma utf8_encode_nonempty text b :
  utf8_encode text = Ok b → text ≠ [] → b ≠ [].
Proof.
  destruct text as [|ch text]; [done|]. simpl. intros H _.
  apply obind_Ok in H as (b1 & Hb1 & H).
  apply obind_Ok in H as (bs & _ & [= <-]).
  apply utf8_encode_char_nonempty in Hb1. by destruct b1.
Qed.

Lemma utf8_encode_char_Ok_iff ch :
  (∃ b, utf8_encode_char ch = Ok b) ↔ ¬ (0xD800 ≤ ch ≤ 0xDFFF).
Proof.
  unfold utf8_encode_char, is_surrogate.
  destruct (bool_decide_reflect (0xD800 ≤ ch ≤ 0xDFFF)) as [Hs|Hs].
  - rewrite !decide_False by lia. split; [by intros [? ?]|done].
  - split; [done|]. intros _. repeat case_decide; eauto.
Qed.

Lemma utf8_encode_Ok_iff text :
  (∃ b, utf8_encode text = Ok b) ↔ Forall (λ ch, ¬ (0xD800 ≤ ch ≤ 0xDFFF)) text.
Proof.
  induction text as [|ch text IH]; simpl.
  - split; [constructor|eauto].
  - rewrite Forall_cons, <-IH, <-utf8_encode_char_Ok_iff. split.
    + intros [b H]. apply obind_Ok in H as (b1 & Hb1 & H).
      apply obind_Ok in H as (bs & Hbs & _). eauto.
    + intros [[b1 ->] [bs ->]]. simpl. eauto.
Qed.

Lemma utf8_encode_bytes text b :
  Forall (λ ch, 0 ≤ ch ≤ 0x10FFFF) text → utf8_encode text = Ok b →
  Forall is_byte b.
Proof.
  intros Hrange Henc.
  assert (Forall is_scalar text) as Hscalar.
  { pose proof (proj1 (utf8_encode_Ok_iff text) (ex_intro _ b Henc)) as Hns.
    rewrite Forall_forall in *. intros ch Hin. split; auto. }
  destruct (utf8_roundtrip text Hscalar) as (b' & Hb' & Hbytes & _).
  congruence.
Qed.

(** X6.  What [encode] returns cannot be merged further: it has fewer
    than two tokens, or none of its adjacent pairs has a rule. *)
Theorem encode_result_has_no_applicable_rule (self : BPEEncoder)
    (text : str) (tokens : list Z) :
  encode self text = Ok tokens →
  (length tokens < 2)%nat
  ∨ ∀ p, adjacent tokens p → Dict.get (merges self) p = None.
Proof.
  unfold encode. intros H. apply obind_Ok in H as (b & _ & H).
  by apply encode_loop_result in H as (_ & _ & _ & Hfix).
Qed.

Lemma encode_result_has_no_applicable_rule_witness :
  (length [256; 104] < 2)%nat
  ∨ ∀ p, adjacent [256; 104] p → Dict.get hi_merges p = None.
Proof.
  apply (encode_result_has_no_applicable_rule
           (mkBPEEncoder hi_merges 5000 None) [104; 105; 104] [256; 104]).
  vm_compute. reflexivity.
Defined.

(** X7.  [encode] returns at most as many tokens as the text has UTF-8
    bytes, and at least one token for a text that is not empty. *)
Theorem encode_result_length (self : BPEEncoder) (text : str)
    (bytes_of_text tokens : list Z) :
  utf8_encode text = Ok bytes_of_text → encode self text = Ok tokens →
  (length tokens ≤ length bytes_of_text)%nat ∧ (text ≠ [] → tokens ≠ []).
Proof.
  unfold encode. intros Hb H. rewrite Hb in H. simpl in H.
  apply encode_loop_result in H as (Hle & Hne & _). split; [done|].
  intros Htext. apply Hne. by eapply utf8_encode_nonempty.
Qed.

Lemma encode_result_length_witness :
  (length [256; 104] ≤ length [104; 105; 104])%nat
  ∧ ([104; 105; 104] ≠ [] → [256; 104] ≠ []).
Proof.
  apply (encode_result_length (mkBPEEncoder hi_merges 5000 None)
           [104; 105; 104] [104; 105; 104] [256; 104]);
    vm_compute; reflexivity.
Defined.

(** X8.  For a constructed encoder and a text of code points, every token
    that [encode] returns is a byte value or the result of a rule, so
    [decode] of it returns a text: it raises no [KeyError], whatever the
    merge table. *)
Theorem encode_result_decodes (m : merge_table) (vs : Z)
    (self : BPEEncoder) (text : str) (tokens : list Z) :
  __init__ m vs = Ok self →
  Forall (λ ch, 0 ≤ ch ≤ 0x10FFFF) text →
  encode self text = Ok tokens →
  (∀ t, t ∈ tokens → 0 ≤ t ≤ 255 ∨ t ∈ m.*2)
  ∧ ∃ decoded, decode self tokens = Ok decoded.
Proof.
  intros Hinit Hrange Henc. apply init_Ok in Hinit as (v & Hv & ->).
  unfold encode in Henc. simpl in Henc.
  apply obind_Ok in Henc as (b & Hb & Hloop).
  pose proof (utf8_encode_bytes text b Hrange Hb) as Hbytes.
  apply encode_loop_result in Hloop as (_ & _ & Helem & _).
  assert (∀ t, t ∈ tokens → 0 ≤ t ≤ 255 ∨ t ∈ m.*2) as Htok.
  { intros t Ht. destruct (Helem t Ht) as [Hin|?]; [left|by right].
    rewrite Forall_forall in Hbytes. specialize (Hbytes t Hin).
    unfold is_byte in Hbytes. lia. }
  split; [done|].
  destruct (join_vocab_pieces (mkBPEEncoder m vs (Some v)) v eq_refl tokens)
    as (pieces & _ & Hjoin).
  { intros t Ht. apply (build_vocab_map_dom m v Hv). auto. }
  eexists. unfold decode. by rewrite Hjoin.
Qed.

(** X9.  [encode] raises [UnicodeEncodeError] exactly when the text holds
    a surrogate, and returns tokens exactly when it holds none. *)
Theorem encode_raises_on_surrogates_only (self : BPEEncoder) (text : str) :
  (encode self text = Raise UnicodeEncodeError
   ↔ ∃ ch, ch ∈ text ∧ 0xD800 ≤ ch ≤ 0xDFFF)
  ∧ ((∃ tokens, encode self text = Ok tokens)
     ↔ ∀ ch, ch ∈ text → ¬ (0xD800 ≤ ch ≤ 0xDFFF)).
Proof.
  pose proof (utf8_encode_Ok_iff text) as Hiff.
  rewrite Forall_forall in Hiff. unfold encode.
  destruct (utf8_encode_outcome text) as [[b Hb]|Hraise].
  - rewrite Hb. simpl.
    destruct (encode_loop_budget (length b) (merges self) b)
      as (r & Hr & _); [lia|]. rewrite Hr.
    assert (∀ ch, ch ∈ text → ¬ (0xD800 ≤ ch ≤ 0xDFFF)) as Hns.
    { apply Hiff. eauto. }
    split; split; [done| |eauto|eauto].
    intros (ch & Hin & Hs). by destruct (Hns ch Hin).
  - rewrite Hraise. simpl.
    assert (¬ ∀ ch, ch ∈ text → ¬ (0xD800 ≤ ch ≤ 0xDFFF)) as Hsome.
    { intros Hall. apply Hiff in Hall as [b Hb]. congruence. }
    split; split; [|done|by intros [? ?]|done].
    intros _. clear -Hsome.
    induction text as [|ch text IH].
    + exfalso. apply Hsome. intros ch Hin. by apply elem_of_nil in Hin.
    + destruct (decide (0xD800 ≤ ch ≤ 0xDFFF)) as [Hs|Hs].
      * exists ch. split; [apply list_elem_of_here|done].
      * destruct IH as (c & Hin & Hc).
        -- intros Hall. apply Hsome. intros c Hin.
           apply elem_of_cons in Hin as [->|Hin]; auto.
        -- exists c. split; [by apply list_elem_of_further|done].
Qed.

(** X10.  When no adjacent pair of the text's UTF-8 bytes has a rule (in
    particular with an empty merge table), [encode] returns the bytes
    themselves. *)
Theorem encode_without_applicable_rule (self : BPEEncoder) (text : str)
    (bytes_of_text : list Z) :
  utf8_encode text = Ok bytes_of_text →
  (∀ p, adjacent bytes_of_text p → Dict.get (merges self) p = None) →
  encode self text = Ok bytes_of_text.
Proof.
  intros Hb Hnone. unfold encode. rewrite Hb. simpl.
  destruct bytes_of_text as [|a [|b rest]]; [done..|].
  remember (a :: b :: rest) as tokens eqn:Htok.
  assert (2 ≤ length tokens)%nat as Hlen by (subst; simpl; lia).
  destruct (length tokens) as [|fuel] eqn:Hfuel; [lia|].
  simpl. rewrite Hfuel. rewrite decide_True by lia.
  destruct (encode_body_cases (merges self) tokens)
    as [[-> _]|(pair & idx & Hadj & Hget & _)]; [lia|done|].
  rewrite (Hnone pair Hadj) in Hget. discriminate.
Qed.

Lemma encode_without_applicable_rule_witness :
  encode (mkBPEEncoder hi_merges 5000 None) [105; 104; 33]
  = Ok [105; 104; 33].
Proof.
  apply (encode_without_applicable_rule
           (mkBPEEncoder hi_merges 5000 None) [105; 104; 33] [105; 104; 33]).
  - vm_compute. reflexivity.
  - intros p Hadj. apply adjacent_zip in Hadj. simpl in Hadj.
    elem_cases Hadj; vm_compute; reflexivity.
Defined.

Lemma encode_result_decodes_witness :
  ∃ self, __init__ hi_merges 5000 = Ok self
    ∧ (∀ t, t ∈ [256; 104] → 0 ≤ t ≤ 255 ∨ t ∈ hi_merges.*2)
    ∧ ∃ decoded, decode self [256; 104] = Ok decoded.
Proof.
  assert (Forall (λ ch, 0 ≤ ch ≤ 0x10FFFF) [104; 105; 104]) as Hrange.
  { repeat constructor; lia. }
  destruct hi_init as (v & _ & Hinit). eexists. split; [exact Hinit|].
  apply (encode_result_decodes hi_merges 5000 _ [104; 105; 104] [256; 104]
           Hinit Hrange).
  vm_compute. reflexivity.
Defined.

(** ** [decode] and the vocabulary *)

Lemma vocab_getitem_missing v idx :
  v !! idx = None → vocab_getitem v idx = Raise (KeyError (KeyInt idx)).
Proof. intros H. unfold vocab_getitem. by rewrite H. Qed.

Lemma join_vocab_first_missing (self : BPEEncoder) (v : gmap Z (list Z))
    (pre post : list Z) (id : Z) :
  _vocab self = Some v →
  (∀ t, t ∈ pre → is_Some (v !! t)) → v !! id = None →
  join_vocab self (pre ++ id :: post) = Raise (KeyError (KeyInt id)).
Proof.
  intros Hv Hpre Hid. induction pre as [|t pre IH]; simpl.
  - rewrite (self_vocab_getitem_eq self v Hv).
    by rewrite vocab_getitem_missing.
  - destruct (Hpre t) as [b Hb]; [apply list_elem_of_here|].
    rewrite (self_vocab_getitem_eq self v Hv).
    unfold vocab_getitem at 1. rewrite Hb. simpl. rewrite IH; [done|].
    intros t' Hin. apply Hpre. by apply list_elem_of_further.
Qed.

(** X11.  [decode] raises the [KeyError] of the first identifier in the
    sequence that has no vocabulary entry. *)
Theorem decode_raises_for_first_unknown_id (m : merge_table) (vs : Z)
    (self : BPEEncoder) (pre post : list Z) (id : Z) :
  __init__ m vs = Ok self →
  (∀ t, t ∈ pre → 0 ≤ t ≤ 255 ∨ t ∈ m.*2) →
  ¬ (0 ≤ id ≤ 255) → id ∉ m.*2 →
  decode self (pre ++ id :: post) = Raise (KeyError (KeyInt id)).
Proof.
  intros Hinit Hpre Hbyte Hres. apply init_Ok in Hinit as (v & Hv & ->).
  pose proof (build_vocab_map_dom m v Hv) as Hdom. unfold decode.
  rewrite (join_vocab_first_missing (mkBPEEncoder m vs (Some v)) v
             pre post id eq_refl); [done| |].
  - intros t Ht. apply Hdom. auto.
  - apply eq_None_not_Some. rewrite Hdom. tauto.
Qed.

Lemma decode_raises_for_first_unknown_id_witness :
  ∃ self, __init__ hi_merges 5000 = Ok self
    ∧ decode self ([104; 256] ++ 300 :: [400; 105])
      = Raise (KeyError (KeyInt 300)).
Proof.
  assert (∀ t, t ∈ [104; 256] → 0 ≤ t ≤ 255 ∨ t ∈ hi_merges.*2) as Hpre.
  { intros t Ht. elem_cases Ht; [left; lia|right; apply list_elem_of_here]. }
  assert (300 ∉ hi_merges.*2) as Hres.
  { simpl. intros Hin. elem_cases Hin. }
  destruct hi_init as (v & _ & Hinit). eexists. split; [exact Hinit|].
  apply (decode_raises_for_first_unknown_id hi_merges 5000 _
           [104; 256] [400; 105] 300 Hinit Hpre); [lia|exact Hres].
Defined.

Lemma build_loop_nonempty rules v v' :
  build_loop rules v = Ok v' →
  (∀ k b, v !! k = Some b → b ≠ []) →
  ∀ k b, v' !! k = Some b → b ≠ [].
Proof.
  revert v. induction rules as [|[[l r] res] rules IH]; intros v H Hv.
  - simpl in H. by injection H as <-.
  - apply build_loop_cons_Ok in H as (bl & br & Hl & Hr & H).
    apply (IH _ H). intros k b.
    destruct (decide (res = k)) as [->|Hne].
    + rewrite lookup_insert_eq. intros [= <-] Heq.
      apply app_eq_nil in Heq as [-> _]. by apply (Hv l []).
    + rewrite lookup_insert_ne by done. apply Hv.
Qed.

(** X12.  A constructed encoder keeps the table and the vocabulary size
    it was given; its vocabulary has an entry for the ids 0..255 and the
    results of the rules and for nothing else, and every entry is a
    non-empty string of bytes. *)
Theorem constructed_vocabulary_shape (m : merge_table) (vs : Z)
    (self : BPEEncoder) :
  __init__ m vs = Ok self →
  merges self = m ∧ get_vocab_size self = vs
  ∧ ∃ v, _vocab self = Some v
      ∧ (∀ k, is_Some (v !! k) ↔ 0 ≤ k ≤ 255 ∨ k ∈ m.*2)
      ∧ (∀ k b, v !! k = Some b → b ≠ [] ∧ Forall is_byte b).
Proof.
  intros Hinit. apply init_Ok in Hinit as (v & Hv & ->).
  split; [done|]. split; [done|]. exists v. split; [done|].
  split; [by apply build_vocab_map_dom|]. intros k b Hb. split.
  - apply (build_loop_nonempty _ _ _ Hv) with k; [|done].
    clear. intros k b. rewrite base_vocab_lookup. case_decide; [|done].
    by intros [= <-].
  - by eapply build_vocab_map_bytes.
Qed.

Lemma constructed_vocabulary_shape_witness :
  ∃ self, __init__ hi_merges 5000 = Ok self
    ∧ merges self = hi_merges ∧ get_vocab_size self = 5000
    ∧ ∃ v, _vocab self = Some v
        ∧ (∀ k, is_Some (v !! k) ↔ 0 ≤ k ≤ 255 ∨ k ∈ hi_merges.*2)
        ∧ (∀ k b, v !! k = Some b → b ≠ [] ∧ Forall is_byte b).
Proof.
  destruct hi_init as (v & _ & Hinit). eexists. split; [exact Hinit|].
  apply (constructed_vocabulary_shape hi_merges 5000 _ Hinit).
Defined.

(** ** [from_file], [save] and [save_merges_to_file] *)

Section load_more.
Context (isspace : Z → bool) (todecimal : Z → option Z).

Lemma dict_set_length {K V} `{EqDecision K} (d : list (K * V)) k v :
  (length (Dict.set d k v) ≤ S (length d))%nat.
Proof.
  induction d as [|[k' v'] d IH]; simpl; [lia|].
  case_decide; simpl; lia.
Qed.

Lemma load_loop_length entries acc m :
  load_loop isspace todecimal entries acc = Ok m →
  (length m ≤ length acc + length entries)%nat.
Proof.
  revert acc. induction entries as [|[key value] entries IH]; intros acc.
  - simpl. intros [= <-]. lia.
  - simpl. intros H. apply obind_Ok in H as (k & _ & H).
    apply IH in H. pose proof (dict_set_length acc k value). lia.
Qed.

(** Every rule of the table read comes from an entry of the file. *)
Lemma load_loop_origin entries acc m k v :
  load_loop isspace todecimal entries acc = Ok m →
  Dict.get m k = Some v →
  Dict.get acc k = Some v
  ∨ ∃ key, (key, v) ∈ entries ∧ parse_key isspace todecimal key = Ok k.
Proof.
  revert acc. induction entries as [|[key value] entries IH]; intros acc.
  - simpl. intros [= <-]. by left.
  - simpl. intros H Hget. apply obind_Ok in H as (k' & Hk' & H).
    destruct (IH _ H Hget) as [Hacc|(key' & Hin & Hp)].
    + destruct (decide (k' = k)) as [->|Hne].
      * rewrite dict_get_set_eq in Hacc. injection Hacc as ->.
        right. exists key. split; [apply list_elem_of_here|done].
      * rewrite dict_get_set_ne in Hacc by done. by left.
    + right. exists key'. split; [by apply list_elem_of_further|done].
Qed.

Lemma from_file_Ok data self :
  from_file isspace todecimal data = Ok self →
  ∃ m, load_loop isspace todecimal (p_merges data) [] = Ok m
       ∧ __init__ m (default 5000 (p_vocab_size data)) = Ok self.
Proof. unfold from_file. intros H. by apply obind_Ok in H. Qed.

(** X13.  In an encoder that [from_file] returns, the table has unique
    keys, [get_num_merges] is at most the number of entries of the file,
    [get_vocab_size] is the file's [vocab_size], or 5000 when the file has
    none, and every rule comes from an entry of the file whose key parses
    to the rule's pair. *)
Theorem loaded_table_comes_from_file (data : persisted) (self : BPEEncoder) :
  from_file isspace todecimal data = Ok self →
  Dict.wf (merges self)
  ∧ get_num_merges self ≤ Z.of_nat (length (p_merges data))
  ∧ get_vocab_size self = default 5000 (p_vocab_size data)
  ∧ ∀ k v, Dict.get (merges self) k = Some v →
           ∃ key, (key, v) ∈ p_merges data
                  ∧ parse_key isspace todecimal key = Ok k.
Proof.
  intros H. apply from_file_Ok in H as (m & Hm & Hinit).
  apply init_Ok in Hinit as (v & _ & ->). simpl.
  split; [eapply load_loop_wf; [exact Hm|apply NoDup_nil_2]|].
  split. { unfold get_num_merges. simpl.
           pose proof (load_loop_length _ _ _ Hm). simpl in *. lia. }
  split; [done|]. intros k val Hget.
  by destruct (load_loop_origin _ _ _ _ _ Hm Hget) as [?|?].
Qed.

Lemma dict_elem_get {K V} `{EqDecision K} (d : list (K * V)) k v :
  Dict.wf d → (k, v) ∈ d → Dict.get d k = Some v.
Proof.
  unfold Dict.wf. induction d as [|[k' v'] d IH]; simpl.
  - intros _ Hin. by apply elem_of_nil in Hin.
  - rewrite NoDup_cons. intros [Hnotin Hnd] Hin.
    apply elem_of_cons in Hin as [[= -> ->]|Hin].
    + by rewrite decide_True.
    + rewrite decide_False; [auto|]. intros ->. apply Hnotin.
      apply list_elem_of_fmap. by exists (k', v).
Qed.

(** The table read from a record whose integers are within the limit is
    made of such integers. *)
Lemma load_loop_fits entries m :
  load_loop isspace todecimal entries [] = Ok m →
  Forall fits_digit_limit entries.*2 →
  table_fits_digit_limit m.
Proof.
  intros Hm Hvals l r res Hin.
  assert (Dict.wf m) as Hwf.
  { eapply load_loop_wf; [exact Hm|apply NoDup_nil_2]. }
  apply (dict_elem_get _ _ _ Hwf) in Hin.
  destruct (load_loop_origin _ _ _ _ _ Hm Hin) as [?|(key & Hkey & Hp)];
    [done|].
  apply parse_key_fits in Hp as [H1 H2].
  split; [done|]. split; [done|].
  rewrite Forall_forall in Hvals. apply Hvals.
  apply list_elem_of_fmap. by exists (key, res).
Qed.

(** X14.  An encoder that was loaded from what [json.load] returned for a
    file is saved without error and loaded again from what [save] writes
    for it; [save] records [get_num_merges] and [get_vocab_size]. *)
Theorem load_save_load (data : persisted) (self : BPEEncoder) :
  json_load data = Ok data → py_sized (p_merges data) →
  from_file isspace todecimal data = Ok self →
  ∃ saved, save self = Ok saved
    ∧ json_load saved = Ok saved
    ∧ from_file isspace todecimal saved = Ok self
    ∧ p_num_merges saved = Some (get_num_merges self)
    ∧ p_vocab_size saved = Some (get_vocab_size self).
Proof.
  intros Hjson Hsized H. apply from_file_Ok in H as (m & Hm & Hinit).
  apply json_load_Ok in Hjson as (_ & Hvals & Hvs & _).
  assert (Dict.wf m) as Hwf.
  { eapply load_loop_wf; [exact Hm|apply NoDup_nil_2]. }
  assert (table_fits_digit_limit m) as Hfit by by eapply load_loop_fits.
  assert (py_sized m) as Hsized'.
  { unfold py_sized in *. apply load_loop_length in Hm. simpl in Hm. lia. }
  assert (fits_digit_limit (default 5000 (p_vocab_size data))) as Hvs'.
  { destruct (p_vocab_size data) as [vs|]; simpl in *;
      [exact (Forall_inv Hvs)|fits_tac]. }
  pose proof Hinit as Hinit'. apply init_Ok in Hinit' as (v & Hv & ->).
  eexists. split.
  { by apply (save_fits isspace todecimal
                (mkBPEEncoder m (default 5000 (p_vocab_size data)) (Some v))). }
  cbn [merges vocab_size].
  apply table_fits_iff in Hfit as [Hkeys Hvals'].
  split; [|split; [|done]].
  - apply json_load_fits. split; [|split]; simpl.
    + by rewrite persist_rule_values.
    + by apply Forall_singleton.
    + by apply Forall_singleton, py_sized_fits.
  - unfold from_file. cbn [p_merges p_vocab_size].
    rewrite (load_loop_persisted isspace todecimal m []) by done.
    simpl. apply init_Ok. eauto.
Qed.

(** X15.  For a dictionary whose operands and results, and a vocabulary
    size, of at most 4300 decimal digits, [save_merges_to_file] writes a
    record that can be read; loading it ends as the constructor does on
    that dictionary and vocabulary size, with the encoder or with the
    constructor's error; the record has the same merges, [vocab_size] and
    [num_merges] as the one [save] writes. *)
Theorem save_merges_to_file_then_load (m : merge_table) (vs : Z) :
  Dict.wf m → py_sized m →
  table_fits_digit_limit m → fits_digit_limit vs →
  ∃ data, save_merges_to_file m vs = Ok data
    ∧ json_load data = Ok data
    ∧ from_file isspace todecimal data = __init__ m vs
    ∧ p_num_merges data = Some (Z.of_nat (length m))
    ∧ ∀ self, merges self = m → vocab_size self = vs →
        ∃ saved, save self = Ok saved
          ∧ p_merges saved = p_merges data
          ∧ p_vocab_size saved = p_vocab_size data
          ∧ p_num_merges saved = p_num_merges data.
Proof.
  intros Hwf Hsized Hfit Hvs.
  pose proof Hfit as Hfit'. apply table_fits_iff in Hfit' as [Hkeys Hvals].
  eexists. split.
  { unfold save_merges_to_file.
    rewrite (merges_json_wf isspace todecimal m Hwf Hkeys). simpl.
    by apply json_dump_persisted. }
  split; [|split; [|split; [done|]]].
  - apply json_load_fits. split; [|split]; simpl.
    + by rewrite persist_rule_values.
    + by apply Forall_singleton.
    + by apply Forall_singleton, py_sized_fits.
  - unfold from_file. cbn [p_merges p_vocab_size].
    by rewrite (load_loop_persisted isspace todecimal m []) by done.
  - intros self <- <-. eexists. split.
    { by apply (save_fits isspace todecimal). }
    done.
Qed.
End load_more.

Lemma loaded_table_comes_from_file_witness :
  ∃ self, from_file ascii_isspace ascii_todecimal collision_data = Ok self
    ∧ Dict.wf (merges self)
    ∧ get_num_merges self ≤ Z.of_nat (length (p_merges collision_data))
    ∧ get_vocab_size self = default 5000 (p_vocab_size collision_data)
    ∧ ∀ k v, Dict.get (merges self) k = Some v →
             ∃ key, (key, v) ∈ p_merges collision_data
                    ∧ parse_key ascii_isspace ascii_todecimal key = Ok k.
Proof.
  destruct (outcome_Ok_of_bind
              (from_file ascii_isspace ascii_todecimal collision_data))
    as [self Hself]; [vm_compute; reflexivity|].
  exists self. split; [exact Hself|].
  apply (loaded_table_comes_from_file ascii_isspace ascii_todecimal
           collision_data self Hself).
Defined.

Lemma load_save_load_witness :
  ∃ self saved,
    from_file ascii_isspace ascii_todecimal collision_data = Ok self
    ∧ save self = Ok saved
    ∧ json_load saved = Ok saved
    ∧ from_file ascii_isspace ascii_todecimal saved = Ok self
    ∧ p_num_merges saved = Some (get_num_merges self)
    ∧ p_vocab_size saved = Some (get_vocab_size self).
Proof.
  assert (json_load collision_data = Ok collision_data) as Hjson
    by (vm_compute; reflexivity).
  assert (py_sized (p_merges collision_data)) as Hsized
    by (unfold py_sized; vm_compute; reflexivity).
  destruct (outcome_Ok_of_bind
              (from_file ascii_isspace ascii_todecimal collision_data))
    as [self Hself]; [vm_compute; reflexivity|].
  destruct (load_save_load ascii_isspace ascii_todecimal
              collision_data self Hjson Hsized Hself) as (saved & Hsaved).
  exists self, saved. split; [exact Hself|exact Hsaved].
Defined.

Lemma save_merges_to_file_then_load_witness :
  ∃ data, save_merges_to_file hi_merges 5000 = Ok data
    ∧ from_file ascii_isspace ascii_todecimal data = __init__ hi_merges 5000.
Proof.
  assert (fits_digit_limit 5000) as Hvs by fits_tac.
  destruct (save_merges_to_file_then_load ascii_isspace ascii_todecimal
              hi_merges 5000 (NoDup_singleton _) hi_merges_sized
              hi_merges_fits Hvs) as (data & Hsave & _ & Hload & _).
  exists data. split; [exact Hsave|exact Hload].
Defined.

(** ** Keys that [from_file] accepts *)

Lemma skip_spaces_app ws s :
  Forall is_space_char ws → skip_spaces (ws ++ s) = skip_spaces s.
Proof.
  induction 1 as [|c ws Hc _ IH]; [done|]. simpl. by rewrite Hc.
Qed.

Lemma skip_spaces_all ws : Forall is_space_char ws → skip_spaces ws = [].
Proof.
  intros H. rewrite <-(app_nil_r ws). by rewrite skip_spaces_app.
Qed.

Lemma is_space_char_range c : is_space_char c → 9 ≤ c ≤ 32.
Proof.
  unfold is_space_char, Py_ISSPACE. rewrite orb_true_iff.
  rewrite !bool_decide_eq_true. lia.
Qed.

Lemma scan_digits_at_space ws acc k :
  Forall is_space_char ws →
  scan_digits ws false acc k = Some (acc, k, ws).
Proof.
  destruct 1 as [|c ws Hc _]; [done|]. apply is_space_char_range in Hc.
  simpl. unfold Py_ISDIGIT. rewrite bool_decide_eq_false_2 by lia.
  by rewrite decide_False by lia.
Qed.

Lemma PyLong_FromString_padded ws1 ws2 z :
  Forall is_space_char ws1 → Forall is_space_char ws2 →
  fits_digit_limit z →
  PyLong_FromString (ws1 ++ decimal_string z ++ ws2) = Ok z.
Proof.
  intros Hws1 Hws2 Hfit. unfold fits_digit_limit in Hfit.
  rewrite decimal_string_nonneg in Hfit by lia. unfold PyLong_FromString.
  rewrite (skip_spaces_app ws1 _ Hws1). unfold decimal_string.
  assert (∀ n, 0 ≤ n →
     let ds := digits_loop (S (Z.to_nat (Z.log2 n))) n in
     ∃ d ds', ds = d :: ds' ∧ is_digit_char d
              ∧ scan_digits (ds ++ ws2) false 0 0
                = Some (n, length ds, ws2)) as Hds.
  { intros n Hn ds.
    pose proof (digits_loop_nonempty (Z.to_nat (Z.log2 n)) n) as Hne.
    pose proof (digits_loop_digits (S (Z.to_nat (Z.log2 n))) n Hn) as Hall.
    pose proof (scan_digits_loop (Z.to_nat (Z.log2 n)) n ws2 false 0%nat
                  (log2_budget n Hn)) as Hscan.
    rewrite (scan_digits_at_space ws2 _ _ Hws2) in Hscan.
    fold ds in Hne, Hall, Hscan.
    destruct ds as [|d ds']; [done|].
    apply Forall_cons in Hall as [Hd _]. eauto. }
  destruct (decide (z < 0)) as [Hneg|Hpos].
  - replace (Z.abs z) with (- z) in Hfit by lia.
    destruct (Hds (- z)) as (d & ds' & Heq & Hd & Hscan); [lia|].
    cbn zeta in Heq, Hscan. rewrite Heq in *.
    rewrite <-!app_comm_cons. rewrite skip_spaces_cons by done.
    unfold split_sign.
    rewrite decide_False by lia. rewrite decide_True by done.
    rewrite decide_False by (unfold is_digit_char in Hd; intros [= ?]; lia).
    rewrite <-app_comm_cons in Hscan. rewrite Hscan. cbv beta iota.
    rewrite decide_False by lia. rewrite decide_False by done.
    rewrite (skip_spaces_all ws2 Hws2). f_equal. lia.
  - replace (Z.abs z) with z in Hfit by lia.
    destruct (Hds z) as (d & ds' & Heq & Hd & Hscan); [lia|].
    cbn zeta in Heq, Hscan. rewrite Heq in *.
    rewrite <-!app_comm_cons. rewrite skip_spaces_cons
      by by apply Py_ISSPACE_digit.
    unfold is_digit_char in Hd. unfold split_sign.
    rewrite !decide_False by lia.
    rewrite decide_False by (intros [= ?]; lia).
    rewrite <-app_comm_cons in Hscan. rewrite Hscan. cbv beta iota.
    rewrite decide_False by lia. rewrite decide_False by done.
    rewrite (skip_spaces_all ws2 Hws2). f_equal. lia.
Qed.

Lemma split_length sep s :
  length (split sep s) = S (length (filter (λ c, c = sep) s)).
Proof.
  induction s as [|c s IH]; [done|]. simpl.
  destruct (decide (c = sep)) as [->|Hne].
  - rewrite filter_cons_True by done. simpl. by rewrite IH.
  - rewrite filter_cons_False by done.
    destruct (split sep s) as [|h t]; simpl in *; [lia|done].
Qed.

Section key_more.
Context (isspace : Z → bool) (todecimal : Z → option Z).

Lemma py_int_padded ws1 ws2 z :
  Forall is_space_char ws1 → Forall is_space_char ws2 →
  fits_digit_limit z →
  py_int isspace todecimal (ws1 ++ decimal_string z ++ ws2) = Ok z.
Proof.
  intros Hws1 Hws2 Hfit. unfold py_int. rewrite transform_ascii.
  - by apply PyLong_FromString_padded.
  - rewrite !Forall_app. split; [|split].
    + eapply Forall_impl; [exact Hws1|]. intros c Hc.
      apply is_space_char_range in Hc. lia.
    + eapply Forall_impl; [apply decimal_string_chars|].
      unfold is_int_char, is_digit_char. intros; lia.
    + eapply Forall_impl; [exact Hws2|]. intros c Hc.
      apply is_space_char_range in Hc. lia.
Qed.

(** X16.  [from_file] reads a key whose two integers, of at most 4300
    decimal digits each, are surrounded by white space as the pair of the
    two integers: white space before and after either integer is
    ignored. *)
Theorem parse_key_ignores_white_space (ws1 ws2 ws3 ws4 : str) (l r : Z) :
  Forall is_space_char ws1 → Forall is_space_char ws2 →
  Forall is_space_char ws3 → Forall is_space_char ws4 →
  fits_digit_limit l → fits_digit_limit r →
  parse_key isspace todecimal
    ((ws1 ++ decimal_string l ++ ws2) ++ [44]
     ++ (ws3 ++ decimal_string r ++ ws4))
  = Ok (l, r).
Proof.
  intros H1 H2 H3 H4 Hl Hr. unfold parse_key.
  assert (∀ ws z ws', Forall is_space_char ws → Forall is_space_char ws' →
            44 ∉ ws ++ decimal_string z ++ ws') as Hno.
  { intros ws z ws' Hws Hws'. rewrite !elem_of_app.
    intros [Hin|[Hin|Hin]].
    - rewrite Forall_forall in Hws. apply Hws, is_space_char_range in Hin. lia.
    - by apply decimal_string_no_comma in Hin.
    - rewrite Forall_forall in Hws'.
      apply Hws', is_space_char_range in Hin. lia. }
  simpl. rewrite split_app_sep by by apply Hno.
  rewrite split_no_sep by by apply Hno.
  by rewrite !py_int_padded.
Qed.

(** X17.  A key that does not hold exactly one comma is refused with
    [ValueError]. *)
Theorem parse_key_needs_one_comma (key : str) :
  length (filter (λ c, c = 44) key) ≠ 1%nat →
  parse_key isspace todecimal key = Raise ValueError.
Proof.
  intros Hcount. unfold parse_key.
  pose proof (split_length 44 key) as Hlen.
  destruct (split 44 key) as [|a [|b [|c parts]]]; simpl in Hlen;
    [done|done|lia|done].
Qed.
End key_more.

Lemma parse_key_ignores_white_space_witness :
  parse_key ascii_isspace ascii_todecimal
    (([32] ++ decimal_string 104 ++ []) ++ [44]
     ++ ([9; 32] ++ decimal_string 105 ++ [10]))
  = Ok (104, 105).
Proof.
  apply (parse_key_ignores_white_space ascii_isspace ascii_todecimal
           [32] [] [9; 32] [10] 104 105);
    first [fits_tac|repeat constructor].
Defined.

Lemma parse_key_needs_one_comma_witness :
  parse_key ascii_isspace ascii_todecimal [49; 44; 50; 44; 51]
  = Raise ValueError.
Proof.
  apply (parse_key_needs_one_comma ascii_isspace ascii_todecimal
           [49; 44; 50; 44; 51]).
  vm_compute. lia.
Defined.

(** ** [decode_tokens] of the demo *)

Section demo_facts.
Context (isspace : Z → bool) (todecimal : Z → option Z).


Lemma lstrip_no_space s :
  Forall (λ c, str_isspace isspace c = false) s → lstrip isspace s = s.
Proof. destruct 1 as [|c s Hc _]; [done|]. simpl. by rewrite Hc. Qed.

Lemma lstrip_all_space s :
  Forall (λ c, str_isspace isspace c = true) s → lstrip isspace s = [].
Proof. induction 1 as [|c s Hc _ IH]; [done|]. simpl. by rewrite Hc. Qed.

Lemma strip_no_space s :
  Forall (λ c, str_isspace isspace c = false) s → strip isspace s = s.
Proof.
  intros Hs. unfold strip, rstrip. rewrite (lstrip_no_space s Hs).
  rewrite lstrip_no_space by by apply Forall_reverse.
  apply reverse_involutive.
Qed.

Lemma strip_all_space s :
  Forall (λ c, str_isspace isspace c = true) s → strip isspace s = [].
Proof.
  intros Hs. unfold strip, rstrip. by rewrite (lstrip_all_space s Hs).
Qed.

Lemma strip_leading_space s : strip isspace (32 :: s) = strip isspace s.
Proof. done. Qed.

Lemma int_char_no_space c : is_int_char c → str_isspace isspace c = false.
Proof.
  unfold is_int_char, is_digit_char, str_isspace,
    _Py_ascii_whitespace.
  intros Hc. rewrite decide_True by lia.
  rewrite !bool_decide_eq_false_2 by lia. done.
Qed.

Lemma strip_decimal_string z :
  strip isspace (decimal_string z) = decimal_string z.
Proof.
  apply strip_no_space. eapply Forall_impl; [apply decimal_string_chars|].
  apply int_char_no_space.
Qed.

Lemma decimal_string_nonempty z : decimal_string z ≠ [].
Proof.
  unfold decimal_string. case_decide; [done|]. apply digits_loop_nonempty.
Qed.

Lemma format_tokens_no_comma_head t rest :
  split 44 (format_tokens (t :: rest))
  = decimal_string t :: ((λ t', 32 :: decimal_string t') <$> rest).
Proof.
  revert t. induction rest as [|t' rest IH]; intros t.
  - simpl. apply split_no_sep, decimal_string_no_comma.
  - change (format_tokens (t :: t' :: rest))
      with (decimal_string t ++ 44 :: 32 :: format_tokens (t' :: rest)).
    rewrite split_app_sep by apply decimal_string_no_comma.
    f_equal. cbn [split]. rewrite decide_False by lia. by rewrite IH.
Qed.

Lemma parse_tokens_padded ts :
  Forall fits_digit_limit ts →
  parse_tokens isspace todecimal ((λ t, 32 :: decimal_string t) <$> ts)
  = Ok ts.
Proof.
  induction 1 as [|t ts Ht _ IH]; [done|]. cbn [fmap list_fmap parse_tokens].
  rewrite strip_leading_space, strip_decimal_string.
  rewrite decide_False by apply decimal_string_nonempty.
  rewrite py_int_decimal_string by done. simpl. by rewrite IH.
Qed.

Lemma parse_tokens_format_tokens ts :
  ts ≠ [] → Forall fits_digit_limit ts →
  parse_tokens isspace todecimal (split 44 (format_tokens ts)) = Ok ts.
Proof.
  destruct ts as [|t rest]; [done|]. intros _ Hfit.
  apply Forall_cons in Hfit as [Ht Hrest].
  rewrite format_tokens_no_comma_head. cbn [parse_tokens].
  rewrite strip_decimal_string.
  rewrite decide_False by apply decimal_string_nonempty.
  rewrite py_int_decimal_string by done. simpl.
  by rewrite parse_tokens_padded.
Qed.

Lemma format_tokens_nonempty ts : ts ≠ [] → format_tokens ts ≠ [].
Proof.
  destruct ts as [|t [|t' rest]]; [done| |]; intros _.
  - apply decimal_string_nonempty.
  - change (format_tokens (t :: t' :: rest))
      with (decimal_string t ++ 44 :: 32 :: format_tokens (t' :: rest)).
    intros Heq. by apply app_eq_nil in Heq as [_ ?].
Qed.

(** [decode] returns a text or raises an exception that
    [except ValueError] does not catch. *)
Lemma join_vocab_outcome self ids :
  (∃ b, join_vocab self ids = Ok b)
  ∨ (∃ e, join_vocab self ids = Raise e ∧ is_ValueError e = false).
Proof.
  induction ids as [|id ids IH]; [left; by exists []|]. simpl.
  unfold self_vocab_getitem, vocab_getitem.
  destruct (_vocab self) as [v|]; [|right; by eexists].
  destruct (v !! id); simpl; [|right; by eexists].
  destruct IH as [[b ->]|(e & -> & He)]; simpl; [left|right]; by eexists.
Qed.

Lemma decode_outcome self ids :
  (∃ text, decode self ids = Ok text)
  ∨ (∃ e, decode self ids = Raise e ∧ is_ValueError e = false).
Proof.
  unfold decode.
  destruct (join_vocab_outcome self ids) as [[b ->]|(e & -> & He)]; simpl;
    [left|right]; by eexists.
Qed.

Lemma parse_tokens_Raise_iff pieces :
  parse_tokens isspace todecimal pieces = Raise ValueError ↔
  ∃ x, x ∈ pieces ∧ strip isspace x ≠ []
       ∧ py_int isspace todecimal (strip isspace x) = Raise ValueError.
Proof.
  induction pieces as [|x pieces IH]; simpl.
  - split; [done|]. intros (x & Hin & _). by apply elem_of_nil in Hin.
  - case_decide as Hblank.
    + rewrite IH. split; intros (y & Hin & Hne & Hp).
      * exists y. split; [by apply list_elem_of_further|done].
      * apply elem_of_cons in Hin as [->|Hin]; [done|]. by exists y.
    + unfold py_int at 1.
      destruct (PyLong_FromString_outcome
                  (transform_decimal_and_space_to_ascii isspace todecimal
                     (strip isspace x))) as [[n Hn]|Hn]; rewrite Hn; simpl.
      * split.
        -- intros H. destruct (parse_tokens isspace todecimal pieces) eqn:Hrest; simpl in H;
             try done. injection H as ->.
           destruct (proj1 IH eq_refl) as (y & Hin & Hy).
           exists y. split; [by apply list_elem_of_further|done].
        -- intros (y & Hin & Hne & Hp).
           apply elem_of_cons in Hin as [->|Hin].
           ++ unfold py_int in Hp. congruence.
           ++ rewrite (proj2 IH); [done|]. by exists y.
      * split; [|done]. intros _. exists x.
        split; [apply list_elem_of_here|]. split; [done|]. exact Hn.
Qed.

Lemma parse_tokens_outcome pieces :
  (∃ ts, parse_tokens isspace todecimal pieces = Ok ts) ∨ parse_tokens isspace todecimal pieces = Raise ValueError.
Proof.
  induction pieces as [|x pieces IH]; simpl; [eauto|].
  case_decide; [done|]. unfold py_int.
  destruct (PyLong_FromString_outcome
              (transform_decimal_and_space_to_ascii isspace todecimal
                 (strip isspace x))) as [[n ->]| ->]; simpl; [|by right].
  destruct IH as [[ts ->]| ->]; simpl; eauto.
Qed.

Lemma split_pieces (P : Z → Prop) sep s :
  Forall (λ c, c = sep ∨ P c) s → Forall (Forall P) (split sep s).
Proof.
  induction 1 as [|c s Hc _ IH]; simpl.
  - by repeat constructor.
  - case_decide as Hsep; [by constructor|].
    destruct Hc as [?|Hc]; [done|].
    destruct (split sep s) as [|h t]; [by repeat constructor|].
    apply Forall_cons in IH as [Hh Ht]. constructor; [by constructor|done].
Qed.

Lemma parse_tokens_blank pieces :
  Forall (Forall (λ c, str_isspace isspace c = true)) pieces →
  parse_tokens isspace todecimal pieces = Ok [].
Proof.
  induction 1 as [|x pieces Hx _ IH]; [done|]. simpl.
  by rewrite (strip_all_space x Hx), decide_True.
Qed.

(** X18.  [decode_tokens] reads identifiers of at most 4300 decimal
    digits each, written in decimal and separated by a comma and a space,
    back as they are, and replies with what [decode] returns for them: the
    text, or the error that [decode] raised. *)
Theorem decode_tokens_reads_formatted_ids (enc : BPEEncoder) (ts : list Z) :
  ts ≠ [] → Forall fits_digit_limit ts →
  parse_tokens isspace todecimal (split 44 (format_tokens ts)) = Ok ts
  ∧ decode_tokens isspace todecimal (Some enc) (format_tokens ts)
    = match decode enc ts with
      | Ok text => Ok (reply_text text)
      | Raise e => Ok (reply_error e)
      | OutOfFuel => OutOfFuel
      end.
Proof.
  intros Hts Hfit. split; [by apply parse_tokens_format_tokens|].
  unfold decode_tokens.
  rewrite decide_False by by apply format_tokens_nonempty.
  rewrite (parse_tokens_format_tokens ts Hts Hfit). simpl.
  destruct (decode_outcome enc ts) as [[text ->]|(e & -> & He)]; [done|].
  by rewrite He.
Qed.

(** X19.  [decode_tokens] replies with the invalid-format message exactly
    when the input is not empty and one of its comma-separated pieces is
    neither blank nor an integer; an unknown identifier is never reported
    as a format error. *)
Theorem decode_tokens_invalid_format_iff (enc : BPEEncoder)
    (tokens_str : str) :
  decode_tokens isspace todecimal (Some enc) tokens_str = Ok reply_invalid_format ↔
  tokens_str ≠ []
  ∧ ∃ x, x ∈ split 44 tokens_str ∧ strip isspace x ≠ []
         ∧ py_int isspace todecimal (strip isspace x) = Raise ValueError.
Proof.
  rewrite <-parse_tokens_Raise_iff. unfold decode_tokens.
  case_decide as Hempty; [split; [done|by intros [? _]]|].
  destruct (parse_tokens_outcome (split 44 tokens_str)) as [[ts ->]| ->];
    simpl.
  - destruct (decode_outcome enc ts) as [[text ->]|(e & -> & He)].
    + split; [done|by intros [_ ?]].
    + rewrite He. split; [done|by intros [_ ?]].
  - done.
Qed.

(** X20.  On an input that is not empty and holds only commas and white
    space, [decode_tokens] replies with the empty text. *)
Theorem decode_tokens_blank_input (enc : BPEEncoder) (tokens_str : str) :
  tokens_str ≠ [] →
  Forall (λ c, c = 44 ∨ str_isspace isspace c = true) tokens_str →
  decode_tokens isspace todecimal (Some enc) tokens_str = Ok (reply_text []).
Proof.
  intros Hne Hblank. unfold decode_tokens.
  rewrite decide_False by done.
  rewrite parse_tokens_blank; [done|]. by apply split_pieces.
Qed.
End demo_facts.

Lemma decode_tokens_reads_formatted_ids_witness :
  ∃ self,
    __init__ hi_merges 5000 = Ok self
    ∧ parse_tokens ascii_isspace ascii_todecimal
        (split 44 (format_tokens [256; 33])) = Ok [256; 33]
    ∧ decode_tokens ascii_isspace ascii_todecimal (Some self)
        (format_tokens [256; 33])
      = match decode self [256; 33] with
        | Ok text => Ok (reply_text text)
        | Raise e => Ok (reply_error e)
        | OutOfFuel => OutOfFuel
        end.
Proof.
  assert (Forall fits_digit_limit [256; 33]) as Hfit.
  { repeat (apply Forall_cons_2; [fits_tac|]). apply Forall_nil_2. }
  destruct hi_init as (v & _ & Hinit). eexists. split; [exact Hinit|].
  apply (decode_tokens_reads_formatted_ids ascii_isspace ascii_todecimal
           _ [256; 33]); [discriminate|exact Hfit].
Defined.

Lemma decode_tokens_blank_input_witness :
  decode_tokens ascii_isspace ascii_todecimal
    (Some (mkBPEEncoder hi_merges 5000 None)) [32; 44; 44; 9]
  = Ok (reply_text []).
Proof.
  apply (decode_tokens_blank_input ascii_isspace ascii_todecimal
           (mkBPEEncoder hi_merges 5000 None) [32; 44; 44; 9]).
  - discriminate.
  - repeat (apply Forall_cons_2; [first [by left|by right]|]).
    apply Forall_nil_2.
Defined.

(** ** Further round trips *)

Lemma build_loop_untouched rules v v' k :
  build_loop rules v = Ok v' → k ∉ rules.*2 → v' !! k = v !! k.
Proof.
  revert v. induction rules as [|[[l r] res] rules IH]; intros v H Hk.
  - simpl in H. by injection H as <-.
  - apply build_loop_cons_Ok in H as (bl & br & Hl & Hr & H).
    simpl in Hk. apply not_elem_of_cons in Hk as [Hne Hk].
    rewrite (IH _ H Hk). by rewrite lookup_insert_ne.
Qed.

Lemma build_vocab_map_base m v :
  results_above_bytes m → build_vocab_map m = Ok v →
  ∀ id, 0 ≤ id ≤ 255 → v !! id = Some [id].
Proof.
  intros Habove Hv id Hid. unfold build_vocab_map, Dict.items in Hv.
  rewrite (build_loop_untouched _ _ _ id Hv).
  - rewrite base_vocab_lookup. by rewrite decide_True.
  - rewrite (py_sorted_perm snd m). intros Hin.
    apply list_elem_of_fmap in Hin as ([k res] & -> & Hin).
    apply Habove in Hin. simpl in Hid. lia.
Qed.

(** X21. When every rule's result id is above 255, [decode] of a list of
    byte values (ids 0 to 255) returns exactly the UTF-8 decoding, with
    errors replaced, of those bytes: the base entries of the vocabulary are
    never overwritten. *)
Theorem decode_of_bytes_is_utf8_decoding (m : merge_table) (vs : Z)
    (self : BPEEncoder) (ids : list Z) :
  results_above_bytes m → __init__ m vs = Ok self →
  Forall is_byte ids →
  decode self ids = Ok (utf8_decode_replace ids).
Proof.
  intros Habove Hinit Hids. apply init_Ok in Hinit as (v & Hv & ->).
  unfold decode.
  rewrite (join_vocab_bytes (mkBPEEncoder m vs (Some v)) v eq_refl ids);
    [done| |done].
  exact (build_vocab_map_base m v Habove Hv).
Qed.

Lemma decode_of_bytes_is_utf8_decoding_witness :
  ∃ self, __init__ hi_merges 5000 = Ok self
    ∧ decode self [224; 164; 185; 255]
      = Ok (utf8_decode_replace [224; 164; 185; 255]).
Proof.
  assert (Forall is_byte [224; 164; 185; 255]) as Hbytes.
  { repeat constructor; unfold is_byte; lia. }
  destruct hi_init as (v & _ & Hinit). eexists. split; [exact Hinit|].
  apply (decode_of_bytes_is_utf8_decoding hi_merges 5000 _
           [224; 164; 185; 255] hi_merges_above Hinit Hbytes).
Defined.

(** X22. For a table whose result ids are above 255 and pairwise distinct,
    the tokens returned by [encode], each replaced by its vocabulary entry
    and joined as [decode] joins them, spell exactly the UTF-8 bytes of the
    text. *)
Theorem encode_result_spells_utf8_bytes (m : merge_table) (vs : Z)
    (self : BPEEncoder) (text : str) (bytes_of_text tokens : list Z) :
  results_above_bytes m → results_distinct m →
  __init__ m vs = Ok self →
  Forall (λ ch, 0 ≤ ch ≤ 0x10FFFF) text →
  utf8_encode text = Ok bytes_of_text →
  encode self text = Ok tokens →
  join_vocab self tokens = Ok bytes_of_text.
Proof.
  intros Habove Hdist Hinit Hrange Hb Henc.
  apply init_Ok in Hinit as (v & Hv & ->).
  pose proof (build_vocab_map_describes m v Habove Hdist Hv) as Hdesc.
  unfold encode in Henc. rewrite Hb in Henc. simpl in Henc.
  rewrite (encode_loop_join (mkBPEEncoder m vs (Some v)) v eq_refl
             _ _ _ _ Hdesc Henc).
  apply (join_vocab_bytes (mkBPEEncoder m vs (Some v)) v eq_refl);
    [apply Hdesc|].
  by eapply utf8_encode_bytes.
Qed.

Lemma encode_result_spells_utf8_bytes_witness :
  ∃ self, __init__ hi_merges 5000 = Ok self
    ∧ join_vocab self [256; 104] = Ok [104; 105; 104].
Proof.
  assert (Forall (λ ch, 0 ≤ ch ≤ 0x10FFFF) [104; 105; 104]) as Hrange.
  { repeat constructor; lia. }
  destruct hi_init as (v & _ & Hinit). eexists. split; [exact Hinit|].
  apply (encode_result_spells_utf8_bytes hi_merges 5000 _
           [104; 105; 104] [104; 105; 104] [256; 104]
           hi_merges_above hi_merges_distinct Hinit Hrange);
    vm_compute; reflexivity.
Defined.

Section load_order.
Context (isspace : Z → bool) (todecimal : Z → option Z).

Lemma load_loop_distinct entries ks acc :
  Forall2 (λ e k, parse_key isspace todecimal e.1 = Ok k) entries ks →
  NoDup (acc.*1 ++ ks) →
  load_loop isspace todecimal entries acc = Ok (acc ++ zip ks entries.*2).
Proof.
  intros Hparse. revert acc.
  induction Hparse as [|[key value] k entries ks Hk _ IH]; intros acc Hnd.
  - simpl. by rewrite app_nil_r.
  - simpl in *. rewrite Hk. simpl. rewrite dict_set_fresh.
    + rewrite IH; [by rewrite <-app_assoc|].
      rewrite fmap_app. simpl. by rewrite <-app_assoc.
    + apply NoDup_app in Hnd as (_ & Hdisj & _).
      intros Hin. apply (Hdisj _ Hin). apply list_elem_of_here.
Qed.

(** X23. When the keys of the file's merges object all parse and denote
    pairwise distinct pairs, [from_file] constructs the encoder from the
    rules of the file in file order, none dropped: the loaded table has as
    many rules as the file has entries. *)
Theorem load_keeps_distinct_rules_in_order (data : persisted)
    (ks : list (Z * Z)) :
  Forall2 (λ e k, parse_key isspace todecimal e.1 = Ok k) (p_merges data) ks →
  NoDup ks →
  load_loop isspace todecimal (p_merges data) []
  = Ok (zip ks (p_merges data).*2)
  ∧ from_file isspace todecimal data
    = __init__ (zip ks (p_merges data).*2) (default 5000 (p_vocab_size data))
  ∧ ∀ self, from_file isspace todecimal data = Ok self →
            get_num_merges self = Z.of_nat (length (p_merges data)).
Proof.
  intros Hparse Hnd.
  pose proof (load_loop_distinct _ _ [] Hparse Hnd) as Hload. simpl in Hload.
  split; [done|]. unfold from_file. rewrite Hload. simpl. split; [done|].
  intros self Hinit. apply init_Ok in Hinit as (v & _ & ->).
  unfold get_num_merges. simpl. rewrite length_zip_with, length_fmap.
  apply Forall2_length in Hparse. lia.
Qed.

(** X24.  The notebook cell writes what [save_merges_to_file] writes with
    vocabulary size 5000.  For a dictionary whose operands and results
    have at most 4300 decimal digits the record can be read, and loading
    it ends as the constructor does on the dictionary and vocabulary size
    5000. *)
Theorem notebook_cell_file_loads (m : merge_table) :
  Dict.wf m → py_sized m → table_fits_digit_limit m →
  notebook_cell_data m = save_merges_to_file m 5000
  ∧ ∃ data, notebook_cell_data m = Ok data
      ∧ json_load data = Ok data
      ∧ from_file isspace todecimal data = __init__ m 5000.
Proof.
  intros Hwf Hsized Hfit. split; [done|].
  assert (fits_digit_limit 5000) as Hvs by fits_tac.
  pose proof Hfit as Hfit'. apply table_fits_iff in Hfit' as [Hkeys Hvals].
  eexists. split.
  { unfold notebook_cell_data.
    rewrite (merges_json_wf isspace todecimal m Hwf Hkeys). simpl.
    by apply json_dump_persisted. }
  split.
  - apply json_load_fits. split; [|split]; simpl.
    + by rewrite persist_rule_values.
    + by apply Forall_singleton.
    + by apply Forall_singleton, py_sized_fits.
  - unfold from_file. cbn [p_merges p_vocab_size].
    by rewrite (load_loop_persisted isspace todecimal m []) by done.
Qed.
End load_order.

Lemma load_keeps_distinct_rules_in_order_witness :
  load_loop ascii_isspace ascii_todecimal (p_merges shared_result_data) []
  = Ok (zip [(1, 2); (3, 4)] (p_merges shared_result_data).*2)
  ∧ from_file ascii_isspace ascii_todecimal shared_result_data
    = __init__ (zip [(1, 2); (3, 4)] (p_merges shared_result_data).*2)
        (default 5000 (p_vocab_size shared_result_data))
  ∧ ∀ self, from_file ascii_isspace ascii_todecimal shared_result_data
            = Ok self →
            get_num_merges self
            = Z.of_nat (length (p_merges shared_result_data)).
Proof.
  apply (load_keeps_distinct_rules_in_order ascii_isspace ascii_todecimal
           shared_result_data [(1, 2); (3, 4)]).
  - repeat constructor.
  - repeat constructor; intros Hin; elem_cases Hin.
Defined.

Lemma notebook_cell_file_loads_witness :
  notebook_cell_data hi_merges = save_merges_to_file hi_merges 5000
  ∧ ∃ data, notebook_cell_data hi_merges = Ok data
      ∧ json_load data = Ok data
      ∧ from_file ascii_isspace ascii_todecimal data
        = __init__ hi_merges 5000.
Proof.
  apply (notebook_cell_file_loads ascii_isspace ascii_todecimal hi_merges
           (NoDup_singleton _) hi_merges_sized hi_merges_fits).
Defined.
